(** Verification of the multi-target publish orchestrator of
    [src/app/create-post/VideoUploadComponent.tsx] (and of the earlier revision
    of the same component kept as [src/unnamed/part_000]).

    The component is a React function component.  Its publishing logic is a
    set of promise chains started from the form action.  The embedding keeps
    that shape:

    - a promise chain is a [Task]: synchronous effects ([Emit]), suspension
      points ([Await]), floating promises ([Spawn]), fulfilment ([Ret]) and
      rejection ([Throw]);
    - the imported server actions and the storage / http clients are fields of
      a record [Env] of functions from the request to its outcome;
    - the JavaScript event loop is a step function on a [Config] that resumes
      one suspended promise at a time, chosen by a schedule. *)

From Stdlib Require Import Ascii String.
From stdpp Require Import gmap strings list fin_maps pretty.

Open Scope string_scope.
Open Scope list_scope.

(** * Data model *)

(** [type ProcessingState = "processing" | "posted" | "error"] *)
Inductive ProcessingState := processing | posted | error.

#[global] Instance ProcessingState_eq_dec : EqDecision ProcessingState.
Proof. solve_decision. Defined.

(** [{ [key: string]: ProcessingState }] *)
Abbreviation StateMap := (gmap string ProcessingState).

(** The part of a browser [File] the component reads. *)
Record File := mkFile {
  name : string;
  type : string
}.

(** An element of the [files] hook: [{ file, errorMessage }]. *)
Record FileEntry := mkFileEntry {
  file : File;
  errorMessage : string
}.

(** A row of [instagram-accounts]: [Tables<"instagram-accounts">]. *)
Module InstagramAccounts.
Record Row := mk {
id : string;
instagram_business_account_id : string;
account_name : string
}.
End InstagramAccounts.

(** A row of [youtube-channels]: [Tables<"youtube-channels">]. *)
Module YoutubeChannels.
Record Row := mk {
id : string;
channel_custom_url : string
}.
End YoutubeChannels.

(** What the storage client answers to [upload]: [{ data, error }]. *)
Inductive UploadResponse :=
| UploadError                      (* error is set *)
| UploadNoPath                     (* no error, but data?.path is missing *)
| UploadPath (path : string).      (* data.path *)

(** What [fetch] gives: a rejection, or a response with its [ok] flag. *)
Inductive FetchResult :=
| FetchRejected
| FetchResponse (ok : bool).

(** Everything the component does that is visible from outside: the remote
    calls it issues, with their arguments, and the writes of its two state
    hooks, with the value handed to the setter. *)
Inductive Event :=
| CreateSocialMediaPost (userId : string)
| StorageUpload (bucket filePath : string) (f : File)
| MediaFilesInsert (media_file_path parent_social_media_post_id user_id : string)
| CreateInstagramContainer
    (instagramBusinessAccountId filePath : string) (caption : option string)
    (userId postType : string) (isCarouselItem : bool)
| CheckInstagramContainerStatus
    (containerIds : list string) (instagramBusinessAccountId userId : string)
| CreateInstagramCarouselContainer
    (instagramCarouselMediaContainerIds : list string)
    (instagramBusinessAccountId userId caption : string)
| PublishInstagramMediaContainer
    (instagramBusinessAccountId instagramMediaContainerId userId : string)
| SaveInstagramId
    (instagramMediaId parentSocialMediaPostId caption userId : string)
| FetchYoutubePost
    (youtubeChannelId : string) (video : File)
    (title userId parentSocialMediaPostId : string)
| PostVideoToYoutube
    (youtubeChannelId : string) (video : File)
    (title userId parentSocialMediaPostId youtubeTitle : string)
| SetInstagramAccountIdToProcessingState (v : StateMap)
| SetYoutubeChannelIdToProcessingState (v : StateMap).

(** The collaborators the component imports.  Each is a function from the
    request to its outcome; [None] is a rejected promise. *)
Record Env := mkEnv {
  bucketName : option string;
  createSocialMediaPost : string -> option string;
  storage_upload : string -> string -> File -> UploadResponse;
  media_files_insert : string -> string -> string -> bool;   (* true: no insertError *)
  createInstagramContainer :
    string -> string -> option string -> string -> string -> bool -> option string;
  checkInstagramContainerStatus : list string -> string -> string -> option unit;
  createInstagramCarouselContainer :
    list string -> string -> string -> string -> option string;
  publishInstagramMediaContainer : string -> string -> string -> option string;
  saveInstagramId : string -> string -> string -> string -> option unit;
  fetch_youtube_post : string -> File -> string -> string -> string -> FetchResult;
  postVideoToYoutube :
    string -> File -> string -> string -> string -> string -> option unit
}.

(** * Promise chains *)

(** A promise chain that fulfils with a value of type [R].  [Spawn c k] starts
    the promise [c] and goes on with [k] without keeping a reference to [c]: a
    floating promise, whose rejection nothing handles. *)
Inductive Task (R : Type) : Type :=
| Ret (r : R)
| Throw
| Emit (e : Event) (k : Task R)
| Await (k : Task R)
| Spawn (c : Task unit) (k : Task R).

Arguments Ret {R} r.
Arguments Throw {R}.
Arguments Emit {R} e k.
Arguments Await {R} k.
Arguments Spawn {R} c k.

(** [await t; f result], and [t.then(f)] for a chain that is returned. *)
Fixpoint bind {A B : Type} (t : Task A) (f : A -> Task B) : Task B :=
  match t with
  | Ret r => f r
  | Throw => Throw
  | Emit e k => Emit e (bind k f)
  | Await k => Await (bind k f)
  | Spawn c k => Spawn c (bind k f)
  end.

(** [t.catch(() => h)]: a floating promise started inside [t] is not covered. *)
Fixpoint catch_ {A : Type} (t : Task A) (h : Task A) : Task A :=
  match t with
  | Ret r => Ret r
  | Throw => h
  | Emit e k => Emit e (catch_ k h)
  | Await k => Await (catch_ k h)
  | Spawn c k => Spawn c (catch_ k h)
  end.

(** A remote call: the request leaves at once, the caller is suspended until
    the promise settles, then goes on with the value or rejects. *)
Definition call {A : Type} (e : Event) (outcome : option A) : Task A :=
  Emit e (Await (match outcome with Some v => Ret v | None => Throw end)).

(** [Promise.all(reqs.map(call))] for single-call promises: every request
    leaves at once; the result is the list of values when all fulfil and a
    rejection when one rejects. *)
Definition sequence {A : Type} (l : list (option A)) : option (list A) :=
  mapM (fun o => o) l.

Fixpoint emitAll {R : Type} (es : list Event) (k : Task R) : Task R :=
  match es with
  | [] => k
  | e :: es' => Emit e (emitAll es' k)
  end.

Definition callAll {A : Type} (reqs : list (Event * option A)) : Task (list A) :=
  emitAll (reqs.*1)
    (Await (match sequence (reqs.*2) with Some vs => Ret vs | None => Throw end)).

(** [l.forEach(body)] *)
Fixpoint forEach {A : Type} (l : list A) (body : A -> Task unit) : Task unit :=
  match l with
  | [] => Ret tt
  | x :: l' => bind (body x) (fun _ => forEach l' body)
  end.

(** Runs a chain until it suspends or settles: the events of this turn, the
    floating promises it started (each already run to its own first
    suspension), and what is left of the chain. *)
Fixpoint run_sync {R : Type} (t : Task R) : list Event * list (Task unit) * Task R :=
  match t with
  | Ret r => ([], [], Ret r)
  | Throw => ([], [], Throw)
  | Emit e k => let '(es, cs, r) := run_sync k in (e :: es, cs, r)
  | Await k => ([], [], Await k)
  | Spawn c k =>
      let '(es1, cs1, r1) := run_sync c in
      let '(es2, cs2, r2) := run_sync k in
      (es1 ++ es2, cs1 ++ r1 :: cs2, r2)
  end.

(** * The component *)

(** [s.split(".").pop()]: the text after the last dot, the whole of [s] when
    it has none. *)
Fixpoint split_pop (acc s : string) : string :=
  match s with
  | EmptyString => acc
  | String c s' =>
      if Ascii.eqb c "."%char then split_pop "" s'
      else split_pop (acc +:+ String c "") s'
  end.

(** The storage path of an item:
    [`${userId}/${postId}/${index}.${file.name.split(".").pop() ?? file.name}`];
    [pop] on the result of [split] is never undefined. *)
Definition mediaFilePath (userId postId : string) (index : nat) (file : File) : string :=
  userId +:+ "/" +:+ postId +:+ "/" +:+ pretty index +:+ "."
         +:+ split_pop "" (name file).

(** [hay.includes(needle)] *)
Definition includes (hay needle : string) : bool :=
  match String.index 0 needle hay with Some _ => true | None => false end.

(** The two state hooks the publishing logic writes. *)
Record ReactState := mkReactState {
  instagramAccountIdToProcessingState : StateMap;
  youtubeChannelIdToProcessingState : StateMap
}.

(** A [useState] setter called with a value: the value becomes the state. *)
Definition setInstagramAccountIdToProcessingState (v : StateMap) (st : ReactState)
  : ReactState :=
  {| instagramAccountIdToProcessingState := v;
     youtubeChannelIdToProcessingState := youtubeChannelIdToProcessingState st |}.

Definition setYoutubeChannelIdToProcessingState (v : StateMap) (st : ReactState)
  : ReactState :=
  {| instagramAccountIdToProcessingState := instagramAccountIdToProcessingState st;
     youtubeChannelIdToProcessingState := v |}.

(** The effect of an event on the hooks. *)
Definition apply_event (st : ReactState) (e : Event) : ReactState :=
  match e with
  | SetInstagramAccountIdToProcessingState v =>
      setInstagramAccountIdToProcessingState v st
  | SetYoutubeChannelIdToProcessingState v =>
      setYoutubeChannelIdToProcessingState v st
  | _ => st
  end.

(** Props and hook values the closures of one render capture. *)
Record Component := mkComponent {
  userId : string;
  files : list FileEntry;
  selectedInstagramAccounts : list InstagramAccounts.Row;
  selectedYoutubeChannels : list YoutubeChannels.Row;
  caption : string;
  youtubeTitle : string
}.

(** An element of [filePaths] in the carousel path. *)
Record Uploaded := mkUploaded {
  filePath : string;
  postType : string
}.

Section Publish.
Context (env : Env) (C : Component).

(** [uploadSocialMediaPostFile]; the logger calls are left out, its awaited
    [flush] stays as a suspension point.  [!bucketName] holds for an undefined
    bucket name and for the empty one. *)
Definition uploadSocialMediaPostFile
    (userId : string) (file : File) (index : nat) (postId : string) : Task string :=
  match bucketName env with
  | None => Await Throw
  | Some bucket =>
      if String.eqb bucket "" then Await Throw
      else
        let filePath := mediaFilePath userId postId index file in
        Emit (StorageUpload bucket filePath file)
          (Await
             match storage_upload env bucket filePath file with
             | UploadError => Throw
             | UploadNoPath => Throw
             | UploadPath path =>
                 if String.eqb path "" then Throw
                 else
                   Emit (MediaFilesInsert path postId userId)
                     (Await
                        (if media_files_insert env path postId userId
                         then Ret path
                         else Await Throw))
             end)
  end.

Definition video_or_image (s : string) : string :=
  if includes s "video" then "video" else "image".

(** The body of [selectedInstagramAccounts.forEach] in
    [processSingleSocialMediaPost]. *)
Definition singleInstagram (socialMediaPostId : string) (file : File)
    (filePath : string) (account : InstagramAccounts.Row) : Task unit :=
  let a := InstagramAccounts.instagram_business_account_id account in
  Emit (SetInstagramAccountIdToProcessingState {[ a := processing ]})
    (Spawn
       (catch_
          (bind
             (call
                (CreateInstagramContainer a filePath (Some (caption C)) (userId C)
                   (video_or_image (type file)) false)
                (createInstagramContainer env a filePath (Some (caption C))
                   (userId C) (video_or_image (type file)) false))
             (fun containerId =>
                bind
                  (call (CheckInstagramContainerStatus [containerId] a (userId C))
                     (checkInstagramContainerStatus env [containerId] a (userId C)))
                  (fun _ =>
                     (* the callback has braces and no return: the publish
                        chain floats *)
                     Spawn
                       (bind
                          (call
                             (PublishInstagramMediaContainer a containerId (userId C))
                             (publishInstagramMediaContainer env a containerId
                                (userId C)))
                          (fun instagramMediaId =>
                             Spawn
                               (call
                                  (SaveInstagramId instagramMediaId socialMediaPostId
                                     (caption C) (userId C))
                                  (saveInstagramId env instagramMediaId
                                     socialMediaPostId (caption C) (userId C)))
                               (Emit
                                  (SetInstagramAccountIdToProcessingState
                                     {[ a := posted ]})
                                  (Ret tt))))
                       (Ret tt))))
          (Emit (SetInstagramAccountIdToProcessingState {[ a := error ]}) (Ret tt)))
       (Ret tt)).

(** The body of [selectedYoutubeChannels.forEach]. *)
Definition singleYoutube (socialMediaPostId : string) (file : File)
    (channel : YoutubeChannels.Row) : Task unit :=
  let c := YoutubeChannels.id channel in
  Emit (SetYoutubeChannelIdToProcessingState {[ c := processing ]})
    (Spawn
       (bind
          (call
             (FetchYoutubePost c file (youtubeTitle C) (userId C) socialMediaPostId)
             (match fetch_youtube_post env c file (youtubeTitle C) (userId C)
                      socialMediaPostId with
              | FetchRejected => None
              | FetchResponse ok => Some ok
              end))
          (fun ok =>
             if ok : bool
             then Emit (SetYoutubeChannelIdToProcessingState {[ c := posted ]}) (Ret tt)
             else Emit (SetYoutubeChannelIdToProcessingState {[ c := error ]}) (Ret tt)))
       (Ret tt)).

(** [processSingleSocialMediaPost] *)
Definition processSingleSocialMediaPost (socialMediaPostId : string) : Task unit :=
  match files C with
  | [] => Throw                       (* files[0].file on an empty array *)
  | entry :: _ =>
      let file := file entry in
      bind (uploadSocialMediaPostFile (userId C) file 0 socialMediaPostId)
        (fun filePath =>
           bind
             (forEach (selectedInstagramAccounts C)
                (singleInstagram socialMediaPostId file filePath))
             (fun _ =>
                forEach (selectedYoutubeChannels C)
                  (singleYoutube socialMediaPostId file)))
  end.

(** The promises handed to the first [Promise.all] of
    [processCarouselSocialMediaPost]. *)
Definition carouselUploads (socialMediaPostId : string) : list (Task Uploaded) :=
  imap
    (fun index entry =>
       bind (uploadSocialMediaPostFile (userId C) (file entry) index socialMediaPostId)
         (fun filePath =>
            Ret {| filePath := filePath;
                   postType := video_or_image (type (file entry)) |}))
    (files C).

(** The body of [selectedInstagramAccounts.forEach] in
    [processCarouselSocialMediaPost]. *)
Definition carouselInstagram (socialMediaPostId : string)
    (filePaths : list Uploaded) (account : InstagramAccounts.Row) : Task unit :=
  let a := InstagramAccounts.instagram_business_account_id account in
  Emit (SetInstagramAccountIdToProcessingState {[ a := processing ]})
    (Spawn
       (catch_
          (bind
             (callAll
                (map
                   (fun fp =>
                      (CreateInstagramContainer a (filePath fp) None (userId C)
                         (video_or_image (postType fp)) true,
                       createInstagramContainer env a (filePath fp) None (userId C)
                         (video_or_image (postType fp)) true))
                   filePaths))
             (fun instagramCarouselMediaContainerIds =>
                bind
                  (call
                     (CheckInstagramContainerStatus
                        instagramCarouselMediaContainerIds a (userId C))
                     (checkInstagramContainerStatus env
                        instagramCarouselMediaContainerIds a (userId C)))
                  (fun _ =>
                     bind
                       (call
                          (CreateInstagramCarouselContainer
                             instagramCarouselMediaContainerIds a (userId C)
                             (caption C))
                          (createInstagramCarouselContainer env
                             instagramCarouselMediaContainerIds a (userId C)
                             (caption C)))
                       (fun instagramMediaContainerId =>
                          bind
                            (call
                               (CheckInstagramContainerStatus
                                  [instagramMediaContainerId] a (userId C))
                               (checkInstagramContainerStatus env
                                  [instagramMediaContainerId] a (userId C)))
                            (fun _ =>
                               bind
                                 (call
                                    (PublishInstagramMediaContainer a
                                       instagramMediaContainerId (userId C))
                                    (publishInstagramMediaContainer env a
                                       instagramMediaContainerId (userId C)))
                                 (fun instagramMediaId =>
                                    Spawn
                                      (call
                                         (SaveInstagramId instagramMediaId
                                            socialMediaPostId (caption C) (userId C))
                                         (saveInstagramId env instagramMediaId
                                            socialMediaPostId (caption C) (userId C)))
                                      (Emit
                                         (SetInstagramAccountIdToProcessingState
                                            {[ a := posted ]})
                                         (Ret tt))))))))
          (Emit (SetInstagramAccountIdToProcessingState {[ a := error ]}) (Ret tt)))
       (Ret tt)).

(** What [processCarouselSocialMediaPost] does once the uploads are in. *)
Definition carouselAfterUploads (socialMediaPostId : string)
    (filePaths : list Uploaded) : Task unit :=
  forEach (selectedInstagramAccounts C)
    (carouselInstagram socialMediaPostId filePaths).

End Publish.

(** * The event loop *)

(** A configuration of the running component: the hooks, everything done so
    far, the promises handed to the pending [Promise.all] with the rest of the
    async function that awaits it, and the floating promises. *)
Record Config := mkConfig {
  react : ReactState;
  trace : list Event;
  uploads : list (Task Uploaded);
  awaiting : option (list Uploaded -> Task unit);
  pool : list (Task unit)
}.

Definition result {R : Type} (t : Task R) : option R :=
  match t with Ret r => Some r | _ => None end.

Definition rejected {R : Type} (t : Task R) : bool :=
  match t with Throw => true | _ => false end.

Definition settled {R : Type} (t : Task R) : bool :=
  match t with Ret _ | Throw => true | _ => false end.

(** Resuming a suspended promise; a settled one stays as it is. *)
Definition resume {R : Type} (t : Task R) : list Event * list (Task unit) * Task R :=
  match t with
  | Await k => run_sync k
  | _ => ([], [], t)
  end.

(** The events of one turn reach the hooks and the trace. *)
Definition absorb (es : list Event) (st : ReactState) (tr : list Event)
  : ReactState * list Event :=
  (foldl apply_event st es, tr ++ es).

(** [Promise.all]: rejects as soon as one input has rejected, fulfils when
    all have fulfilled; the awaiting function then goes on, or rejects with
    nothing to handle it. *)
Definition promise_all (c : Config) : Config :=
  match awaiting c with
  | None => c
  | Some k =>
      if existsb rejected (uploads c)
      then mkConfig (react c) (trace c) (uploads c) None (pool c)
      else
        match mapM result (uploads c) with
        | None => c
        | Some filePaths =>
            let '(es, cs, r) := run_sync (k filePaths) in
            let '(st, tr) := absorb es (react c) (trace c) in
            mkConfig st tr (uploads c) None (pool c ++ cs ++ [r])
        end
  end.

(** What the scheduler may pick: an input of the [Promise.all], or a floating
    promise. *)
Inductive Choice :=
| Upload (i : nat)
| Floating (i : nat).

Definition step (ch : Choice) (c : Config) : Config :=
  match ch with
  | Upload i =>
      match uploads c !! i with
      | None => c
      | Some t =>
          let '(es, cs, r) := resume t in
          let '(st, tr) := absorb es (react c) (trace c) in
          promise_all
            (mkConfig st tr (<[i := r]> (uploads c)) (awaiting c) (pool c ++ cs))
      end
  | Floating i =>
      match pool c !! i with
      | None => c
      | Some t =>
          let '(es, cs, r) := resume t in
          let '(st, tr) := absorb es (react c) (trace c) in
          mkConfig st tr (uploads c) (awaiting c) (<[i := r]> (pool c) ++ cs)
      end
  end.

Definition run (schedule : list Choice) (c : Config) : Config :=
  foldl (fun c ch => step ch c) c schedule.

(** Nothing is left to resume: every promise has settled and no async
    function is suspended. *)
Definition quiescent (c : Config) : bool :=
  forallb settled (uploads c) && forallb settled (pool c)
  && match awaiting c with None => true | Some _ => false end.

(** Starting a promise chain from the current turn. *)
Definition start (st : ReactState) (tr : list Event) (t : Task unit) : Config :=
  let '(es, cs, r) := run_sync t in
  let '(st', tr') := absorb es st tr in
  mkConfig st' tr' [] None (cs ++ [r]).

Section EntryPoint.
Context (env : Env) (C : Component).

(** [processCarouselSocialMediaPost]: the uploads start at once, the rest of
    the function waits for all of them. *)
Definition processCarouselSocialMediaPost (st : ReactState) (tr : list Event)
    (socialMediaPostId : string) : Config :=
  let started := map run_sync (carouselUploads env C socialMediaPostId) in
  let '(st', tr') := absorb (concat (started.*1.*1)) st tr in
  promise_all
    (mkConfig st' tr' (started.*2)
       (Some (carouselAfterUploads env C socialMediaPostId))
       (concat (started.*1.*2))).

(** [processSocialMediaPost], from the turn in which the promise of
    [createSocialMediaPost] settles: until then it is the only thing
    pending.  A rejection is not handled, the callback does not run. *)
Definition processSocialMediaPost (st : ReactState) : Config :=
  let tr := [CreateSocialMediaPost (userId C)] in
  match createSocialMediaPost env (userId C) with
  | None => mkConfig st tr [] None []
  | Some socialMediaPostId =>
      if (length (files C) =? 1)%nat
      then start st tr (processSingleSocialMediaPost env C socialMediaPostId)
      else if (1 <? length (files C))%nat
      then processCarouselSocialMediaPost st tr socialMediaPostId
      else mkConfig st tr [] None []
  end.

(** The [disabled] attribute of the submit button.  [String.length] counts
    the 8-bit characters of the embedding's strings; [youtubeTitle.length] in
    the source counts UTF-16 code units, the same number for a title in
    ASCII. *)
Definition disabled (st : ReactState) : bool :=
  ((length (selectedInstagramAccounts C) =? 0)%nat
     && (length (selectedYoutubeChannels C) =? 0)%nat)
  || (length (files C) =? 0)%nat
  || existsb (fun entry => negb (String.eqb (errorMessage entry) "")) (files C)
  || ((0 <? length (selectedYoutubeChannels C))%nat
        && (String.length (youtubeTitle C) =? 0)%nat)
  || ((0 <? length (selectedYoutubeChannels C))%nat
        && (100 <? String.length (youtubeTitle C))%nat)
  || existsb (fun kv => bool_decide (kv.2 = processing))
       (map_to_list (instagramAccountIdToProcessingState st))
  || existsb (fun kv => bool_decide (kv.2 = processing))
       (map_to_list (youtubeChannelIdToProcessingState st)).

End EntryPoint.

(** The click handler of an Instagram account tile:
    [setSelectedInstagramAccounts((prev) => ...)]. *)
Definition clickInstagramAccount (account : InstagramAccounts.Row)
    (prev : list InstagramAccounts.Row) : list InstagramAccounts.Row :=
  let clicked := InstagramAccounts.instagram_business_account_id account in
  match List.find (fun acc => String.eqb (InstagramAccounts.id acc) clicked) prev with
  | Some _ =>
      List.filter (fun acc => negb (String.eqb (InstagramAccounts.id acc) clicked)) prev
  | None => prev ++ [account]
  end.

(** The click handler of a YouTube channel tile. *)
Definition clickYoutubeChannel (channel : YoutubeChannels.Row)
    (prev : list YoutubeChannels.Row) : list YoutubeChannels.Row :=
  let clicked := YoutubeChannels.id channel in
  match List.find (fun acc => String.eqb (YoutubeChannels.id acc) clicked) prev with
  | Some _ =>
      List.filter (fun acc => negb (String.eqb (YoutubeChannels.id acc) clicked)) prev
  | None => prev ++ [channel]
  end.

(** * The earlier revision of the component

    [src/unnamed/part_000] is an earlier revision of the same component.  It
    is embedded where a claim cites it and it differs: the YouTube workflow,
    which went through the server action [postVideoToYoutube], and the click
    handler of the Instagram tiles, which compared row ids. *)
Module Part000.

Section Publish.
Context (env : Env) (C : Component).

(** The body of [selectedYoutubeChannels.forEach]. *)
Definition singleYoutube (socialMediaPostId : string) (file : File)
    (channel : YoutubeChannels.Row) : Task unit :=
  let c := YoutubeChannels.id channel in
  Emit (SetYoutubeChannelIdToProcessingState {[ c := processing ]})
    (Spawn
       (catch_
          (bind
             (call
                (PostVideoToYoutube c file (youtubeTitle C) (userId C)
                   socialMediaPostId (youtubeTitle C))
                (postVideoToYoutube env c file (youtubeTitle C) (userId C)
                   socialMediaPostId (youtubeTitle C)))
             (fun _ =>
                Emit (SetYoutubeChannelIdToProcessingState {[ c := posted ]}) (Ret tt)))
          (Emit (SetYoutubeChannelIdToProcessingState {[ c := error ]}) (Ret tt)))
       (Ret tt)).

End Publish.

(** The click handler of an Instagram account tile. *)
Definition clickInstagramAccount (account : InstagramAccounts.Row)
    (prev : list InstagramAccounts.Row) : list InstagramAccounts.Row :=
  let clicked := InstagramAccounts.id account in
  match List.find (fun acc => String.eqb (InstagramAccounts.id acc) clicked) prev with
  | Some _ =>
      List.filter (fun acc => negb (String.eqb (InstagramAccounts.id acc) clicked)) prev
  | None => prev ++ [account]
  end.

End Part000.

(** * Observations on chains and configurations *)

(** Every event a chain, and the floating promises it starts, can still
    produce. *)
Fixpoint events {R : Type} (t : Task R) : list Event :=
  match t with
  | Ret _ | Throw => []
  | Emit e k => e :: events k
  | Await k => events k
  | Spawn c k => events c ++ events k
  end.

(** What a chain settles to: [Some r] when it fulfils with [r], [None] when it
    rejects. *)
Fixpoint outcome {R : Type} (t : Task R) : option R :=
  match t with
  | Ret r => Some r
  | Throw => None
  | Emit _ k | Await k | Spawn _ k => outcome k
  end.

(** A chain that starts no floating promise. *)
Fixpoint nospawn {R : Type} (t : Task R) : Prop :=
  match t with
  | Ret _ | Throw => True
  | Emit _ k | Await k => nospawn k
  | Spawn _ _ => False
  end.

(** Number of resumptions a chain and its floating promises still need. *)
Fixpoint awaits {R : Type} (t : Task R) : nat :=
  match t with
  | Ret _ | Throw => 0
  | Emit _ k => awaits k
  | Await k => S (awaits k)
  | Spawn c k => awaits c + awaits k
  end.

(** The rest of the async function suspended on [Promise.all], when the
    inputs are all going to fulfil. *)
Definition joined (c : Config) : list (Task unit) :=
  match awaiting c with
  | None => []
  | Some k =>
      match mapM outcome (uploads c) with
      | Some filePaths => [k filePaths]
      | None => []
      end
  end.

(** Every event a configuration can still produce. *)
Definition future (c : Config) : list Event :=
  flat_map events (uploads c) ++ flat_map events (joined c ++ pool c).

(** Projection of the chains of a list on the events a selector picks. *)
Definition proj (sel : Event -> bool) {R : Type} (t : Task R) : list Event :=
  List.filter sel (events t).

Definition busy (sel : Event -> bool) {R : Type} (t : Task R) : nat :=
  match proj sel t with [] => 0 | _ => 1 end.

Definition load (sel : Event -> bool) (l : list (Task unit)) : nat :=
  sum_list_with (busy sel) l.

Definition projs (sel : Event -> bool) (l : list (Task unit)) : list Event :=
  flat_map (proj sel) l.

(** A chain is linear for a selector when, wherever it starts a floating
    promise, the selected events are all on one side. *)
Fixpoint linear (sel : Event -> bool) {R : Type} (t : Task R) : Prop :=
  match t with
  | Ret _ | Throw => True
  | Emit _ k | Await k => linear sel k
  | Spawn c k =>
      linear sel c /\ linear sel k /\ (proj sel c = [] \/ proj sel k = [])
  end.

(** The floating promises of a configuration, with the suspended async
    function when it is going to resume. *)
Definition threads (c : Config) : list (Task unit) := joined c ++ pool c.

(** The sequence invariant of a configuration for a selector: the selected
    events done so far, followed by those still to come, are [S]; no input of
    the [Promise.all] carries a selected event and at most one thread does. *)
Definition sequenced (sel : Event -> bool) (S : list Event) (c : Config) : Prop :=
  (flat_map (proj sel) (uploads c) = []) /\
  (Forall (linear sel) (threads c)) /\
  (load sel (threads c) <= 1)%nat /\
  (List.filter sel (trace c) ++ projs sel (threads c) = S).

(** Events that belong to one Instagram account: its calls, and the writes of
    the Instagram hook that set its key. *)
Definition touches_instagram (a : string) (e : Event) : bool :=
  match e with
  | CreateInstagramContainer a' _ _ _ _ _
  | CheckInstagramContainerStatus _ a' _
  | CreateInstagramCarouselContainer _ a' _ _
  | PublishInstagramMediaContainer a' _ _ => String.eqb a' a
  | SetInstagramAccountIdToProcessingState v => bool_decide (is_Some (v !! a))
  | _ => false
  end.

(** Events that belong to one YouTube channel. *)
Definition touches_youtube (c : string) (e : Event) : bool :=
  match e with
  | FetchYoutubePost c' _ _ _ _
  | PostVideoToYoutube c' _ _ _ _ _ => String.eqb c' c
  | SetYoutubeChannelIdToProcessingState v => bool_decide (is_Some (v !! c))
  | _ => false
  end.

(** The upload step: storage writes and metadata inserts. *)
Definition is_upload (e : Event) : bool :=
  match e with
  | StorageUpload _ _ _ | MediaFilesInsert _ _ _ => true
  | _ => false
  end.

(** What a destination workflow does: container and publish calls, persist
    calls, YouTube requests, and writes of the two hooks. *)
Definition is_workflow (e : Event) : bool :=
  match e with
  | CreateSocialMediaPost _ | StorageUpload _ _ _ | MediaFilesInsert _ _ _ => false
  | _ => true
  end.

Definition is_write (e : Event) : bool :=
  match e with
  | SetInstagramAccountIdToProcessingState _
  | SetYoutubeChannelIdToProcessingState _ => true
  | _ => false
  end.

Definition is_create_container (e : Event) : bool :=
  match e with
  | CreateInstagramContainer _ _ _ _ _ _ => true
  | _ => false
  end.

Definition is_aggregate (e : Event) : bool :=
  match e with
  | CreateInstagramCarouselContainer _ _ _ _ => true
  | _ => false
  end.

(** An event that belongs to the workflow of Instagram account [a]. *)
Definition of_instagram (a : string) (e : Event) : Prop :=
  match e with
  | CreateInstagramContainer a' _ _ _ _ _
  | CheckInstagramContainerStatus _ a' _
  | CreateInstagramCarouselContainer _ a' _ _
  | PublishInstagramMediaContainer a' _ _ => a' = a
  | SaveInstagramId _ _ _ _ => True
  | SetInstagramAccountIdToProcessingState v => exists s, v = {[ a := s ]}
  | _ => False
  end.

(** An event that belongs to the workflow of YouTube channel [c]. *)
Definition of_youtube (c : string) (e : Event) : Prop :=
  match e with
  | FetchYoutubePost c' _ _ _ _
  | PostVideoToYoutube c' _ _ _ _ _ => c' = c
  | SetYoutubeChannelIdToProcessingState v => exists s, v = {[ c := s ]}
  | _ => False
  end.

(** A selector that never picks a persist call. *)
Definition skips_persist (sel : Event -> bool) : Prop :=
  forall m p c u, sel (SaveInstagramId m p c u) = false.

(** A chain is guarded when its workflow events, and the floating promises it
    starts, come only after its last upload event. *)
Fixpoint guarded {R : Type} (t : Task R) : Prop :=
  match t with
  | Ret _ | Throw => True
  | Emit e k =>
      (is_workflow e = false /\ guarded k)
      \/ Forall (fun e' => is_upload e' = false) (e :: events k)
  | Await k => guarded k
  | Spawn c k => Forall (fun e' => is_upload e' = false) (events c ++ events k)
  end.

(** The upload barrier of a configuration: either no destination workflow has
    done anything yet and the workflows are held back behind the uploads (by
    the pending [Promise.all], or inside the one guarded chain that runs), or
    every input of the [Promise.all] has fulfilled and nothing of any upload is
    left to do. *)
Definition barrier (c : Config) : Prop :=
  (Forall (fun e => is_workflow e = false) (trace c)
   /\ Forall (fun t => Forall (fun e => is_workflow e = false) (events t) /\ nospawn t)
        (uploads c)
   /\ (forall k fps, awaiting c = Some k ->
         Forall (fun e => is_upload e = false) (events (k fps)))
   /\ (pool c = []
       \/ (uploads c = [] /\ awaiting c = None /\ exists t, pool c = [t] /\ guarded t)))
  \/ (awaiting c = None
      /\ Forall (fun t => is_Some (result t)) (uploads c)
      /\ Forall (fun e => is_upload e = false) (future c)).

(** A promise between two turns of the event loop: suspended or settled. *)
Definition normal {R : Type} (t : Task R) : Prop :=
  match t with
  | Emit _ _ | Spawn _ _ => False
  | _ => True
  end.

(** Number of resumptions a configuration still needs. *)
Definition pending (c : Config) : nat :=
  sum_list_with awaits (uploads c) + sum_list_with awaits (threads c).

(** The pending [Promise.all] has nothing to do: no input has rejected and
    not all have fulfilled. *)
Definition stable (c : Config) : Prop :=
  awaiting c = None
  \/ (existsb rejected (uploads c) = false /\ mapM result (uploads c) = None).

(** A configuration as the event loop leaves it between two turns. *)
Definition between_turns (c : Config) : Prop :=
  Forall normal (uploads c) /\ Forall normal (pool c) /\ stable c.

(** Where an event of a run comes from: the creation of the post record, the
    upload step, or the workflow of a selected destination. *)
Definition of_component (C : Component) (e : Event) : Prop :=
  e = CreateSocialMediaPost (userId C)
  \/ is_upload e = true
  \/ (exists acc, acc ∈ selectedInstagramAccounts C
                 /\ of_instagram (InstagramAccounts.instagram_business_account_id acc) e)
  \/ (exists ch, ch ∈ selectedYoutubeChannels C /\ of_youtube (YoutubeChannels.id ch) e).

Definition is_terminal (s : ProcessingState) : Prop := s = posted \/ s = error.

(** What the single-item path may do: a container it creates is not a carousel
    item and carries the caption, and it creates no aggregate container. *)
Definition single_item_event (cap : string) (e : Event) : Prop :=
  match e with
  | CreateInstagramContainer _ _ caption _ _ isCarouselItem =>
      isCarouselItem = false /\ caption = Some cap
  | CreateInstagramCarouselContainer _ _ _ _ => False
  | _ => True
  end.

(** * Concrete inputs

    Collaborators, media and destinations used to run the component. *)
Module Examples.

(** Every remote call succeeds. *)
Definition env_ok : Env :=
  mkEnv (Some "media")
    (fun _ => Some "post1")
    (fun _ path _ => UploadPath path)
    (fun _ _ _ => true)
    (fun a path _ _ _ _ => Some ("c:" +:+ a +:+ ":" +:+ path))
    (fun _ _ _ => Some tt)
    (fun _ a _ _ => Some ("agg:" +:+ a))
    (fun _ cid _ => Some ("m:" +:+ cid))
    (fun _ _ _ _ => Some tt)
    (fun _ _ _ _ _ => FetchResponse true)
    (fun _ _ _ _ _ _ => Some tt).

(** As [env_ok], but persisting the external media id fails. *)
Definition env_persist_fails : Env :=
  mkEnv (bucketName env_ok) (createSocialMediaPost env_ok) (storage_upload env_ok)
    (media_files_insert env_ok) (createInstagramContainer env_ok)
    (checkInstagramContainerStatus env_ok) (createInstagramCarouselContainer env_ok)
    (publishInstagramMediaContainer env_ok)
    (fun _ _ _ _ => None)
    (fetch_youtube_post env_ok) (postVideoToYoutube env_ok).

(** As [env_ok], but the YouTube request rejects. *)
Definition env_youtube_rejects : Env :=
  mkEnv (bucketName env_ok) (createSocialMediaPost env_ok) (storage_upload env_ok)
    (media_files_insert env_ok) (createInstagramContainer env_ok)
    (checkInstagramContainerStatus env_ok) (createInstagramCarouselContainer env_ok)
    (publishInstagramMediaContainer env_ok) (saveInstagramId env_ok)
    (fun _ _ _ _ _ => FetchRejected)
    (fun _ _ _ _ _ _ => None).

(** As [env_ok], but creating a container fails for account "ig1". *)
Definition env_ig1_fails : Env :=
  mkEnv (bucketName env_ok) (createSocialMediaPost env_ok) (storage_upload env_ok)
    (media_files_insert env_ok)
    (fun a path cap u pt ci =>
       if String.eqb a "ig1" then None
       else createInstagramContainer env_ok a path cap u pt ci)
    (checkInstagramContainerStatus env_ok) (createInstagramCarouselContainer env_ok)
    (publishInstagramMediaContainer env_ok) (saveInstagramId env_ok)
    (fetch_youtube_post env_ok) (postVideoToYoutube env_ok).

(** As [env_ok], but the metadata insert fails for the second item. *)
Definition env_insert_fails : Env :=
  mkEnv (bucketName env_ok) (createSocialMediaPost env_ok) (storage_upload env_ok)
    (fun path _ _ => negb (String.eqb path "u1/post1/1.jpg"))
    (createInstagramContainer env_ok)
    (checkInstagramContainerStatus env_ok) (createInstagramCarouselContainer env_ok)
    (publishInstagramMediaContainer env_ok) (saveInstagramId env_ok)
    (fetch_youtube_post env_ok) (postVideoToYoutube env_ok).

Definition clip : File := mkFile "clip.mp4" "video/mp4".
Definition photo1 : File := mkFile "one.jpg" "image/jpeg".
Definition photo2 : File := mkFile "two.jpg" "image/jpeg".
Definition photo3 : File := mkFile "three.jpg" "image/jpeg".

Definition ig1 : InstagramAccounts.Row := InstagramAccounts.mk "row-1" "ig1" "first".
Definition ig2 : InstagramAccounts.Row := InstagramAccounts.mk "row-2" "ig2" "second".
Definition yt1 : YoutubeChannels.Row := YoutubeChannels.mk "yt1" "@one".

Definition st0 : ReactState := mkReactState ∅ ∅.

(** One video to one Instagram account. *)
Definition one_video_one_account : Component :=
  mkComponent "u1" [mkFileEntry clip ""] [ig1] [] "hello" "".

(** One video to two Instagram accounts. *)
Definition one_video_two_accounts : Component :=
  mkComponent "u1" [mkFileEntry clip ""] [ig1; ig2] [] "hello" "".

(** One video to one Instagram account and one YouTube channel. *)
Definition one_video_both : Component :=
  mkComponent "u1" [mkFileEntry clip ""] [ig1] [yt1] "hello" "my title".

(** One video to one YouTube channel. *)
Definition one_video_one_channel : Component :=
  mkComponent "u1" [mkFileEntry clip ""] [] [yt1] "" "my title".

(** Three images to one Instagram account. *)
Definition three_images_one_account : Component :=
  mkComponent "u1"
    [mkFileEntry photo1 ""; mkFileEntry photo2 ""; mkFileEntry photo3 ""]
    [ig1] [] "hello" "".

(** Three images to one Instagram account and one YouTube channel. *)
Definition three_images_both : Component :=
  mkComponent "u1"
    [mkFileEntry photo1 ""; mkFileEntry photo2 ""; mkFileEntry photo3 ""]
    [ig1] [yt1] "hello" "my title".

(** No media, one Instagram account. *)
Definition no_media : Component :=
  mkComponent "u1" [] [ig1] [] "hello" "".

(** A schedule that resumes every promise in turn, [n] times over. *)
Definition round_robin (n : nat) : list Choice :=
  concat (replicate n (map Upload (seq 0 4) ++ map Floating (seq 0 8))).

End Examples.

(** * Proof automation *)

(** Case analysis on every outcome a chain branches on. *)
Ltac break_env :=
  repeat (simpl;
          match goal with
          | |- context [match ?x with _ => _ end] => destruct x eqn:?
          end);
  simpl.

(** Computes the projection of a chain whose outcomes are known. *)
Ltac script :=
  unfold proj;
  repeat (cbn [events List.filter app bind catch_]; autorewrite with touches);
  cbn [events List.filter app bind catch_].

(** * Picking files and selecting destinations *)

(** A file of the file input, with the [size] the validation reads. *)
Module Picked.
Record t := mk {
  file : File;
  size : N
}.
End Picked.

(** [1024 * 1024 * 1024] and [1024 * 1024 * 8] *)
Definition maxVideoSizeInBytes : N := 1024 * 1024 * 1024.
Definition maxImageSizeInBytes : N := 1024 * 1024 * 8.

(** The loop of [handleFileChange] over the picked files.  [prev] is the
    [files] hook as the queued functional updates [(prev) => [...prev, x]]
    leave it; [loading] collects the videos handed to a [video] element, whose
    entry is only added when their metadata has loaded.  A file over its size
    limit gets an entry with a message and ends the handler. *)
Fixpoint handleFileChange (picked : list Picked.t) (prev : list FileEntry)
    (loading : list File) : list FileEntry * list File :=
  match picked with
  | [] => (prev, loading)
  | selectedFile :: rest =>
      let f := Picked.file selectedFile in
      if String.eqb (type f) "video/mp4" || String.eqb (type f) "video/quicktime"
      then
        if (maxVideoSizeInBytes <? Picked.size selectedFile)%N
        then
          (prev ++ [mkFileEntry f "File error: Video file size exceeds 1GB."], loading)
        else handleFileChange rest prev (loading ++ [f])
      else if String.eqb (type f) "image/jpeg"
      then
        if (maxImageSizeInBytes <? Picked.size selectedFile)%N
        then
          (prev ++ [mkFileEntry f "File error: Image file size exceeds 9MB."], loading)
        else handleFileChange rest (prev ++ [mkFileEntry f ""]) loading
      else handleFileChange rest prev loading
  end.

(** What the validation accepts at once, and what it rejects. *)
Definition is_video (x : Picked.t) : bool :=
  String.eqb (type (Picked.file x)) "video/mp4"
  || String.eqb (type (Picked.file x)) "video/quicktime".

Definition is_jpeg (x : Picked.t) : bool :=
  negb (is_video x) && String.eqb (type (Picked.file x)) "image/jpeg".

Definition oversized (x : Picked.t) : bool :=
  (is_video x && (maxVideoSizeInBytes <? Picked.size x)%N)
  || (is_jpeg x && (maxImageSizeInBytes <? Picked.size x)%N).

(** The test that highlights the tile of an Instagram account. *)
Definition instagramHighlighted (account : InstagramAccounts.Row)
    (selected : list InstagramAccounts.Row) : bool :=
  match
    List.find
      (fun acc =>
         String.eqb (InstagramAccounts.instagram_business_account_id acc)
           (InstagramAccounts.instagram_business_account_id account))
      selected
  with
  | Some _ => true
  | None => false
  end.

(** The test that highlights the tile of a YouTube channel. *)
Definition youtubeHighlighted (channel : YoutubeChannels.Row)
    (selected : list YoutubeChannels.Row) : bool :=
  match
    List.find (fun ch => String.eqb (YoutubeChannels.id ch) (YoutubeChannels.id channel))
      selected
  with
  | Some _ => true
  | None => false
  end.

(** A string without a dot. *)
Fixpoint nodot (s : string) : bool :=
  match s with
  | EmptyString => true
  | String c s' => negb (Ascii.eqb c "."%char) && nodot s'
  end.

Definition is_storage_upload (e : Event) : bool :=
  match e with
  | StorageUpload _ _ _ => true
  | _ => false
  end.

Definition is_persist (e : Event) : bool :=
  match e with
  | SaveInstagramId _ _ _ _ => true
  | _ => false
  end.

(** Whom an event is addressed to: a call goes to a selected destination, a
    write sets one key, that of a selected destination. *)
Definition addressed (C : Component) (e : Event) : Prop :=
  match e with
  | CreateSocialMediaPost u => u = userId C
  | StorageUpload _ _ _ | MediaFilesInsert _ _ _ | SaveInstagramId _ _ _ _ => True
  | CreateInstagramContainer a _ _ _ _ _
  | CheckInstagramContainerStatus _ a _
  | CreateInstagramCarouselContainer _ a _ _
  | PublishInstagramMediaContainer a _ _ =>
      a ∈ map InstagramAccounts.instagram_business_account_id
            (selectedInstagramAccounts C)
  | FetchYoutubePost y _ _ _ _ | PostVideoToYoutube y _ _ _ _ _ =>
      y ∈ map YoutubeChannels.id (selectedYoutubeChannels C)
  | SetInstagramAccountIdToProcessingState v =>
      exists a s,
        a ∈ map InstagramAccounts.instagram_business_account_id
              (selectedInstagramAccounts C)
        /\ v = {[ a := s ]}
  | SetYoutubeChannelIdToProcessingState v =>
      exists y s,
        y ∈ map YoutubeChannels.id (selectedYoutubeChannels C) /\ v = {[ y := s ]}
  end.

(** More concrete inputs. *)
Module MoreExamples.

(** Publishing the container fails. *)
Definition env_publish_fails : Env :=
  mkEnv (bucketName Examples.env_ok) (createSocialMediaPost Examples.env_ok)
    (storage_upload Examples.env_ok) (media_files_insert Examples.env_ok)
    (createInstagramContainer Examples.env_ok)
    (checkInstagramContainerStatus Examples.env_ok)
    (createInstagramCarouselContainer Examples.env_ok)
    (fun _ _ _ => None)
    (saveInstagramId Examples.env_ok) (fetch_youtube_post Examples.env_ok)
    (postVideoToYoutube Examples.env_ok).

Definition yt2 : YoutubeChannels.Row := YoutubeChannels.mk "yt2" "@two".

Definition small_photo : Picked.t := Picked.mk Examples.photo1 2048.
Definition big_photo : Picked.t := Picked.mk Examples.photo2 (9 * 1024 * 1024).
Definition small_clip : Picked.t := Picked.mk Examples.clip 4096.
Definition a_document : Picked.t := Picked.mk (mkFile "notes.pdf" "application/pdf") 10.

End MoreExamples.

(** A metadata row of post [p] is for a path the storage answered for one of
    the selected files. *)
Definition recorded (env : Env) (C : Component) (p : string) (e : Event) : Prop :=
  match e with
  | MediaFilesInsert path postId user =>
      postId = p /\ user = userId C
      /\ exists bucket index entry,
           bucketName env = Some bucket
           /\ files C !! index = Some entry
           /\ storage_upload env bucket
                (mediaFilePath (userId C) p index (file entry)) (file entry)
              = UploadPath path
           /\ path <> ""
  | _ => True
  end.

(** * Chains *)

Lemma run_sync_events {R : Type} (t : Task R) es cs r :
  run_sync t = (es, cs, r) ->
  events t ≡ₚ es ++ flat_map events cs ++ events r.
Proof.
  revert es cs r. induction t as [R r0| R | R e k IH | R k IH | R c IHc k IHk];
    intros es cs r Hrun; simpl in Hrun.
  - by inversion Hrun.
  - by inversion Hrun.
  - destruct (run_sync k) as [[es' cs'] r'] eqn:Hk. inversion Hrun; subst.
    simpl. by rewrite (IH _ _ _ eq_refl).
  - by inversion Hrun.
  - destruct (run_sync c) as [[es1 cs1] r1] eqn:Hc.
    destruct (run_sync k) as [[es2 cs2] r2] eqn:Hk. inversion Hrun; subst.
    simpl. rewrite (IHc _ _ _ eq_refl), (IHk _ _ _ eq_refl).
    rewrite flat_map_app. simpl. solve_Permutation.
Qed.

Lemma run_sync_outcome {R : Type} (t : Task R) es cs r :
  run_sync t = (es, cs, r) -> outcome r = outcome t.
Proof.
  revert es cs r. induction t as [R r0| R | R e k IH | R k IH | R c IHc k IHk];
    intros es cs r Hrun; simpl in Hrun.
  - by inversion Hrun.
  - by inversion Hrun.
  - destruct (run_sync k) as [[es' cs'] r'] eqn:Hk. inversion Hrun; subst.
    simpl. by apply (IH _ _ _ eq_refl).
  - by inversion Hrun.
  - destruct (run_sync c) as [[es1 cs1] r1] eqn:Hc.
    destruct (run_sync k) as [[es2 cs2] r2] eqn:Hk. inversion Hrun; subst.
    simpl. by apply (IHk _ _ _ eq_refl).
Qed.

Lemma resume_events {R : Type} (t : Task R) es cs r :
  resume t = (es, cs, r) ->
  events t ≡ₚ es ++ flat_map events cs ++ events r.
Proof.
  destruct t; simpl; intros H; try (by inversion H; subst; simpl; rewrite ?app_nil_r).
  by apply run_sync_events.
Qed.

Lemma resume_outcome {R : Type} (t : Task R) es cs r :
  resume t = (es, cs, r) -> outcome r = outcome t.
Proof.
  destruct t; simpl; intros H; try (by inversion H; subst).
  by apply (run_sync_outcome _ _ _ _ H).
Qed.

Lemma result_outcome {R : Type} (t : Task R) v : result t = Some v -> outcome t = Some v.
Proof. by destruct t. Qed.

Lemma rejected_outcome {R : Type} (t : Task R) : rejected t = true -> outcome t = None.
Proof. by destruct t. Qed.

Lemma result_events {R : Type} (t : Task R) v : result t = Some v -> events t = [].
Proof. by destruct t. Qed.

Lemma settled_events {R : Type} (t : Task R) : settled t = true -> events t = [].
Proof. by destruct t. Qed.

Lemma lookup_split {A : Type} (l : list A) i x :
  l !! i = Some x ->
  exists l1 l2, l = l1 ++ x :: l2 /\ forall y, <[i := y]> l = l1 ++ y :: l2.
Proof.
  intros H. exists (take i l), (drop (S i) l). split.
  - by rewrite take_drop_middle.
  - intros y. apply insert_take_drop. by eapply lookup_lt_Some.
Qed.

Lemma mapM_outcome_insert {R : Type} (l : list (Task R)) i t r :
  l !! i = Some t -> outcome r = outcome t ->
  mapM outcome (<[i := r]> l) = mapM outcome l.
Proof.
  intros Hl Ho. destruct (lookup_split _ _ _ Hl) as (l1 & l2 & -> & Hins).
  rewrite Hins. clear Hins Hl. induction l1 as [|x l1 IH]; simpl.
  - by rewrite Ho.
  - by rewrite IH.
Qed.

Lemma mapM_result_outcome {R : Type} (l : list (Task R)) vs :
  mapM result l = Some vs -> mapM outcome l = Some vs.
Proof.
  rewrite !mapM_Some. induction 1; constructor; auto using result_outcome.
Qed.

Lemma mapM_result_events {R : Type} (l : list (Task R)) vs :
  mapM result l = Some vs -> flat_map events l = [].
Proof.
  rewrite mapM_Some. induction 1 as [|t v l vs Ht _ IH]; simpl; [done|].
  by rewrite (result_events _ _ Ht), IH.
Qed.

Lemma existsb_rejected_outcome {R : Type} (l : list (Task R)) :
  existsb rejected l = true -> mapM outcome l = None.
Proof.
  intros H. apply mapM_None. apply existsb_exists in H as (t & Hin & Ht).
  apply Exists_exists. exists t. split; [by apply list_elem_of_In|].
  by apply rejected_outcome.
Qed.

(** * The event loop: what is done plus what is left is constant *)

Lemma promise_all_cases c :
  promise_all c = c \/
  (exists k, awaiting c = Some k /\ mapM outcome (uploads c) = None /\
     promise_all c = mkConfig (react c) (trace c) (uploads c) None (pool c)) \/
  (exists k filePaths es cs r,
     awaiting c = Some k /\ mapM result (uploads c) = Some filePaths /\
     run_sync (k filePaths) = (es, cs, r) /\
     promise_all c =
       mkConfig (foldl apply_event (react c) es) (trace c ++ es) (uploads c) None
         (pool c ++ cs ++ [r])).
Proof.
  unfold promise_all. destruct (awaiting c) as [k|] eqn:Hk; [|by left].
  destruct (existsb rejected (uploads c)) eqn:Hrej.
  - right; left. exists k. split; [done|]. split; [|done].
    by apply existsb_rejected_outcome.
  - destruct (mapM result (uploads c)) as [filePaths|] eqn:Hres; [|by left].
    destruct (run_sync (k filePaths)) as [[es cs] r] eqn:Hrun.
    right; right. by exists k, filePaths, es, cs, r.
Qed.

Lemma promise_all_perm c :
  trace (promise_all c) ++ future (promise_all c) ≡ₚ trace c ++ future c.
Proof.
  destruct (promise_all_cases c) as
    [-> | [(k & Hk & Hnone & ->) | (k & fps & es & cs & r & Hk & Hres & Hrun & ->)]];
    [done| |].
  - unfold future, joined; simpl. by rewrite Hk, Hnone.
  - unfold future, joined; simpl.
    rewrite Hk, (mapM_result_outcome _ _ Hres). simpl.
    rewrite (run_sync_events _ _ _ _ Hrun). rewrite !flat_map_app. simpl.
    solve_Permutation.
Qed.

Lemma step_perm ch c :
  trace (step ch c) ++ future (step ch c) ≡ₚ trace c ++ future c.
Proof.
  destruct ch as [i|i]; simpl.
  - destruct (uploads c !! i) as [t|] eqn:Hi; [|done].
    destruct (resume t) as [[es cs] r] eqn:Hres. unfold absorb.
    rewrite promise_all_perm. unfold future, joined; simpl.
    rewrite (mapM_outcome_insert _ _ _ _ Hi (resume_outcome _ _ _ _ Hres)).
    destruct (lookup_split _ _ _ Hi) as (l1 & l2 & Hl & Hins).
    rewrite Hins, Hl, !flat_map_app. simpl.
    rewrite (resume_events _ _ _ _ Hres), ?flat_map_app. solve_Permutation.
  - destruct (pool c !! i) as [t|] eqn:Hi; [|done].
    destruct (resume t) as [[es cs] r] eqn:Hres. unfold absorb.
    unfold future, joined; simpl.
    destruct (lookup_split _ _ _ Hi) as (l1 & l2 & Hl & Hins).
    rewrite Hins, Hl, !flat_map_app. simpl.
    rewrite (resume_events _ _ _ _ Hres), ?flat_map_app. simpl. solve_Permutation.
Qed.

Lemma run_perm schedule c :
  trace (run schedule c) ++ future (run schedule c) ≡ₚ trace c ++ future c.
Proof.
  revert c. induction schedule as [|ch s IH]; intros c; simpl; [done|].
  unfold run in *. simpl. by rewrite IH, step_perm.
Qed.

(** Whatever holds of everything a configuration has done and can still do
    holds of everything it will ever have done. *)
Lemma run_Forall (P : Event -> Prop) schedule c :
  Forall P (trace c ++ future c) -> Forall P (trace (run schedule c)).
Proof.
  intros H. rewrite <- (run_perm schedule c) in H.
  by apply Forall_app in H as [H _].
Qed.

(** The trace only grows. *)
Lemma step_trace_prefix ch c : trace c `prefix_of` trace (step ch c).
Proof.
  destruct ch as [i|i]; simpl.
  - destruct (uploads c !! i) as [t|]; [|done].
    destruct (resume t) as [[es cs] r]. unfold absorb.
    match goal with |- _ `prefix_of` trace (promise_all ?c') =>
      destruct (promise_all_cases c') as
        [-> | [(k & _ & _ & ->) | (k & fps & es' & cs' & r' & _ & _ & _ & ->)]]
    end; simpl.
    + by apply prefix_app_r.
    + by apply prefix_app_r.
    + by do 2 apply prefix_app_r.
  - destruct (pool c !! i) as [t|]; [|done].
    destruct (resume t) as [[es cs] r]. unfold absorb. simpl. by apply prefix_app_r.
Qed.

Lemma run_trace_prefix schedule c : trace c `prefix_of` trace (run schedule c).
Proof.
  revert c. induction schedule as [|ch s IH]; intros c; [done|].
  unfold run in *; simpl. etrans; [apply step_trace_prefix | apply IH].
Qed.

(** The hooks hold what the writes of the trace left in them. *)
Lemma step_react st0 ch c :
  react c = foldl apply_event st0 (trace c) ->
  react (step ch c) = foldl apply_event st0 (trace (step ch c)).
Proof.
  intros Hc. destruct ch as [i|i]; simpl.
  - destruct (uploads c !! i) as [t|]; [|done].
    destruct (resume t) as [[es cs] r]. unfold absorb.
    match goal with |- react (promise_all ?c') = _ =>
      destruct (promise_all_cases c') as
        [-> | [(k & _ & _ & ->) | (k & fps & es' & cs' & r' & _ & _ & _ & ->)]]
    end; simpl; rewrite ?foldl_app, Hc; done.
  - destruct (pool c !! i) as [t|]; [|done].
    destruct (resume t) as [[es cs] r]. unfold absorb. simpl.
    by rewrite foldl_app, Hc.
Qed.

Lemma run_react st0 schedule c :
  react c = foldl apply_event st0 (trace c) ->
  react (run schedule c) = foldl apply_event st0 (trace (run schedule c)).
Proof.
  revert c. induction schedule as [|ch s IH]; intros c Hc; [done|].
  unfold run in *; simpl. by apply IH, step_react.
Qed.

Lemma quiescent_awaiting c : quiescent c = true -> awaiting c = None.
Proof.
  unfold quiescent. intros [_ H]%andb_true_iff. by destruct (awaiting c).
Qed.

Lemma quiescent_future c : quiescent c = true -> future c = [].
Proof.
  intros Hq. pose proof (quiescent_awaiting c Hq) as Hnone. revert Hq.
  unfold quiescent, future, joined. rewrite Hnone.
  intros [[Hu Hp]%andb_true_iff _]%andb_true_iff. simpl.
  assert (Hnil : forall R (l : list (Task R)),
             forallb settled l = true -> flat_map events l = []).
  { intros R l. induction l as [|t l IH]; simpl; [done|].
    intros [Ht Hl]%andb_true_iff. by rewrite (settled_events _ Ht), IH. }
  by rewrite (Hnil _ _ Hu), (Hnil _ _ Hp).
Qed.

(** * The event loop: the order of the events of one destination *)

Lemma filter_perm {A : Type} (f : A -> bool) (l l' : list A) :
  l ≡ₚ l' -> List.filter f l ≡ₚ List.filter f l'.
Proof.
  induction 1 as [|x l l' _ IH|x y l|l l' l'' _ IH1 _ IH2]; simpl.
  - done.
  - destruct (f x); by rewrite IH.
  - destruct (f x), (f y); try done. apply perm_swap.
  - by etrans.
Qed.

Section Sequence.
Context (sel : Event -> bool).

Lemma proj_nil_run_sync {R : Type} (t : Task R) es cs r :
  proj sel t = [] -> run_sync t = (es, cs, r) ->
  List.filter sel es = [] /\ projs sel cs = [] /\ proj sel r = [].
Proof.
  unfold proj. intros Hq Hrun.
  pose proof (filter_perm sel _ _ (run_sync_events _ _ _ _ Hrun)) as Hp.
  rewrite Hq in Hp. apply Permutation_nil_l in Hp. symmetry in Hp.
  rewrite !List.filter_app in Hp.
  apply app_eq_nil in Hp as [H1 Hp]. apply app_eq_nil in Hp as [H2 H3].
  split; [done|]. split; [|done].
  clear -H2. unfold projs, proj. induction cs as [|c cs IH]; simpl in *; [done|].
  rewrite List.filter_app in H2. apply app_eq_nil in H2 as [-> H2]. by rewrite IH.
Qed.

Lemma busy_le {R : Type} (t : Task R) : busy sel t <= 1.
Proof. unfold busy. destruct (proj sel t); lia. Qed.

Lemma busy_0 {R : Type} (t : Task R) : proj sel t = [] -> busy sel t = 0.
Proof. unfold busy. by intros ->. Qed.

Lemma busy_0_inv {R : Type} (t : Task R) : busy sel t = 0 -> proj sel t = [].
Proof. unfold busy. by destruct (proj sel t). Qed.

Lemma load_0 l : projs sel l = [] -> load sel l = 0.
Proof.
  unfold projs, load. induction l as [|t l IH]; simpl; [done|].
  intros [Ht Hl]%app_eq_nil. by rewrite (busy_0 _ Ht), IH.
Qed.

Lemma load_app l1 l2 : load sel (l1 ++ l2) = load sel l1 + load sel l2.
Proof. unfold load. apply sum_list_with_app. Qed.

Lemma projs_app l1 l2 : projs sel (l1 ++ l2) = projs sel l1 ++ projs sel l2.
Proof. unfold projs. apply flat_map_app. Qed.

Lemma proj_nil_linear {R : Type} (t : Task R) : proj sel t = [] -> linear sel t.
Proof.
  unfold proj. induction t as [R r0| R | R e k IH | R k IH | R c IHc k IHk]; simpl;
    try done.
  - destruct (sel e); [done|]. apply IH.
  - rewrite List.filter_app. intros [Hc Hk]%app_eq_nil. auto.
Qed.

Lemma projs_nil_linear l : projs sel l = [] -> Forall (linear sel) l.
Proof.
  unfold projs. induction l as [|t l IH]; simpl; [constructor|].
  intros [Ht Hl]%app_eq_nil. constructor; auto using proj_nil_linear.
Qed.

(** One turn of a linear chain: the selected events come out in program
    order, and at most one of the chains left carries the rest. *)
Lemma run_sync_linear {R : Type} (t : Task R) es cs r :
  linear sel t -> run_sync t = (es, cs, r) ->
  proj sel t = List.filter sel es ++ projs sel cs ++ proj sel r /\
  Forall (linear sel) cs /\ linear sel r /\
  load sel cs + busy sel r <= 1.
Proof.
  revert es cs r. induction t as [R r0| R | R e k IH | R k IH | R c IHc k IHk];
    intros es cs r Hlin Hrun; simpl in Hrun.
  - inversion Hrun; subst. repeat split; try done. cbn. lia.
  - inversion Hrun; subst. repeat split; try done. cbn. lia.
  - destruct (run_sync k) as [[es' cs'] r'] eqn:Hk. inversion Hrun; subst.
    destruct (IH _ _ _ Hlin eq_refl) as (Hp & Hcs & Hr & Hload).
    repeat split; try done. unfold proj in *. simpl. rewrite Hp.
    by destruct (sel e).
  - inversion Hrun; subst. repeat split; try done.
    pose proof (busy_le (Await k)). simpl. lia.
  - destruct (run_sync c) as [[es1 cs1] r1] eqn:Hc.
    destruct (run_sync k) as [[es2 cs2] r2] eqn:Hk. inversion Hrun; subst.
    destruct Hlin as (Hlc & Hlk & Hside).
    destruct (IHc _ _ _ Hlc eq_refl) as (Hpc & Hcsc & Hrc & Hloadc).
    destruct (IHk _ _ _ Hlk eq_refl) as (Hpk & Hcsk & Hrk & Hloadk).
    assert (Hproj : proj sel (Spawn c k) = proj sel c ++ proj sel k).
    { unfold proj. simpl. apply List.filter_app. }
    rewrite Hproj, List.filter_app, projs_app, load_app. simpl.
    split; [|split; [|split]].
    + destruct Hside as [Hq|Hq].
      * destruct (proj_nil_run_sync _ _ _ _ Hq Hc) as (-> & -> & ->).
        rewrite Hq, Hpk. done.
      * destruct (proj_nil_run_sync _ _ _ _ Hq Hk) as (-> & -> & ->).
        rewrite Hq, Hpc. by rewrite !app_nil_r.
    + apply Forall_app. split; [done|]. by constructor.
    + done.
    + destruct Hside as [Hq|Hq].
      * destruct (proj_nil_run_sync _ _ _ _ Hq Hc) as (_ & Hcs1 & Hr1).
        rewrite (load_0 _ Hcs1), (busy_0 _ Hr1). unfold load in *. simpl. lia.
      * destruct (proj_nil_run_sync _ _ _ _ Hq Hk) as (_ & Hcs2 & Hr2).
        rewrite (busy_0 _ Hr2). unfold load in *. simpl.
        fold (load sel cs2). rewrite (load_0 _ Hcs2). lia.
Qed.

Lemma run_sync_load {R : Type} (t : Task R) es cs r :
  linear sel t -> run_sync t = (es, cs, r) ->
  load sel cs + busy sel r <= busy sel t.
Proof.
  intros Hlin Hrun. destruct (proj sel t) as [|e l] eqn:Ht.
  - destruct (proj_nil_run_sync _ _ _ _ Ht Hrun) as (_ & Hcs & Hr).
    rewrite (load_0 _ Hcs), (busy_0 _ Hr). lia.
  - destruct (run_sync_linear _ _ _ _ Hlin Hrun) as (_ & _ & _ & H).
    unfold busy at 2. rewrite Ht. done.
Qed.

Lemma resume_linear {R : Type} (t : Task R) es cs r :
  linear sel t -> resume t = (es, cs, r) ->
  proj sel t = List.filter sel es ++ projs sel cs ++ proj sel r /\
  Forall (linear sel) cs /\ linear sel r /\
  load sel cs + busy sel r <= busy sel t.
Proof.
  intros Hlin Hres.
  assert (Hstay : (es, cs, r) = ([], [], t) ->
    proj sel t = List.filter sel es ++ projs sel cs ++ proj sel r /\
    Forall (linear sel) cs /\ linear sel r /\
    load sel cs + busy sel r <= busy sel t).
  { intros [= -> -> ->]. repeat split; try done; unfold load; simpl; lia. }
  destruct t; simpl in Hres; try (by apply Hstay).
  simpl in Hlin.
  destruct (run_sync_linear _ _ _ _ Hlin Hres) as (Hp & Hcs & Hr & _).
  repeat split; try done. apply (run_sync_load _ _ _ _ Hlin Hres).
Qed.

(** With at most one busy thread the order of the threads does not
    matter. *)
Lemma projs_perm l l' : load sel l <= 1 -> l ≡ₚ l' -> projs sel l = projs sel l'.
Proof.
  intros Hload Hperm. revert Hload.
  induction Hperm as [|x l l' _ IH|x y l|l l' l'' H1 IH1 _ IH2]; intros Hload.
  - done.
  - unfold projs, load in *. simpl in *. rewrite IH; [done|lia].
  - unfold projs, load in *. simpl in *.
    destruct (proj sel x) eqn:Hx; [done|].
    destruct (proj sel y) eqn:Hy; [done|].
    unfold busy in Hload. rewrite Hx, Hy in Hload. lia.
  - rewrite IH1 by done. apply IH2. unfold load in *. by rewrite <- H1.
Qed.
End Sequence.

Section SequenceInvariant.
Context (sel : Event -> bool) (S : list Event).

Lemma proj_nil_resume {R : Type} (t : Task R) es cs r :
  proj sel t = [] -> resume t = (es, cs, r) ->
  List.filter sel es = [] /\ projs sel cs = [] /\ proj sel r = [].
Proof.
  intros Hq Hres. destruct t; simpl in Hres;
    try (by inversion Hres; subst).
  by apply (proj_nil_run_sync sel t _ _ _ Hq Hres).
Qed.

Lemma flat_map_proj_nil {R : Type} (l : list (Task R)) t :
  flat_map (proj sel) l = [] -> t ∈ l -> proj sel t = [].
Proof.
  induction l as [|x l IH]; simpl; [by intros _ ?%elem_of_nil|].
  intros [Hx Hl]%app_eq_nil [->|Hin]%elem_of_cons; auto.
Qed.

(** A thread takes a turn: the invariant moves from the threads before to
    the threads after. *)
Lemma sequenced_turn tr (T T' rest : list (Task unit)) t es cs r :
  T ≡ₚ t :: rest -> T' ≡ₚ cs ++ r :: rest ->
  proj sel t = List.filter sel es ++ projs sel cs ++ proj sel r ->
  Forall (linear sel) cs -> linear sel r ->
  load sel cs + busy sel r <= busy sel t ->
  Forall (linear sel) T -> load sel T <= 1 ->
  List.filter sel tr ++ projs sel T = S ->
  Forall (linear sel) T' /\ load sel T' <= 1 /\
  List.filter sel (tr ++ es) ++ projs sel T' = S.
Proof.
  intros HT HT' Hproj Hcs Hr Hle Hlin Hload HS.
  assert (HloadT : load sel T = busy sel t + load sel rest).
  { unfold load. by rewrite HT. }
  assert (HloadT' : load sel T' = load sel cs + (busy sel r + load sel rest)).
  { unfold load. rewrite HT'. by rewrite sum_list_with_app. }
  rewrite HT in Hlin. apply Forall_cons in Hlin as [Ht Hrest].
  split; [|split].
  - rewrite HT'. apply Forall_app. split; [done|]. by constructor.
  - lia.
  - rewrite (projs_perm sel _ _ Hload HT) in HS.
    rewrite (projs_perm sel T' (cs ++ r :: rest)) by (done || lia).
    rewrite List.filter_app, projs_app. unfold projs in *. simpl in *.
    rewrite <- HS, Hproj. by rewrite <- !app_assoc.
Qed.

Lemma promise_all_sequenced c : sequenced sel S c -> sequenced sel S (promise_all c).
Proof.
  intros (Hup & Hlin & Hload & HS).
  destruct (promise_all_cases c) as
    [-> | [(k & Hk & Hnone & ->) | (k & fps & es & cs & r & Hk & Hres & Hrun & ->)]].
  - done.
  - unfold sequenced, threads, joined in *. simpl. by rewrite Hk, Hnone in *.
  - unfold sequenced, threads, joined in *. simpl.
    rewrite Hk, (mapM_result_outcome _ _ Hres) in *.
    split; [done|]. simpl in *.
    apply Forall_cons in Hlin as Hlin'. destruct Hlin' as [Ht _].
    destruct (run_sync_linear sel _ _ _ _ Ht Hrun) as (Hp & Hcs & Hr & _).
    pose proof (run_sync_load sel _ _ _ _ Ht Hrun) as Hle.
    eapply (sequenced_turn (trace c) (k fps :: pool c) _ (pool c)); try done.
    solve_Permutation.
Qed.

Lemma step_sequenced ch c : sequenced sel S c -> sequenced sel S (step ch c).
Proof.
  intros Hseq. destruct ch as [i|i]; simpl.
  - destruct (uploads c !! i) as [t|] eqn:Hi; [|done].
    destruct (resume t) as [[es cs] r] eqn:Hres. unfold absorb.
    apply promise_all_sequenced.
    destruct Hseq as (Hup & Hlin & Hload & HS).
    assert (Ht : proj sel t = []).
    { eapply flat_map_proj_nil; [done|]. by eapply list_elem_of_lookup_2. }
    destruct (proj_nil_resume _ _ _ _ Ht Hres) as (Hes & Hcs & Hr).
    unfold sequenced, threads, joined in *. simpl.
    rewrite (mapM_outcome_insert _ _ _ _ Hi (resume_outcome _ _ _ _ Hres)).
    destruct (lookup_split _ _ _ Hi) as (l1 & l2 & Hl & Hins).
    rewrite Hins. rewrite Hl in Hup.
    rewrite flat_map_app in *. simpl in *. rewrite Ht in Hup. rewrite Hr.
    split; [done|]. rewrite !app_assoc. split; [|split].
    + apply Forall_app. split; [done|]. by apply projs_nil_linear.
    + rewrite load_app, (load_0 _ _ Hcs). lia.
    + rewrite List.filter_app, projs_app, Hes, Hcs, !app_nil_r. done.
  - destruct (pool c !! i) as [t|] eqn:Hi; [|done].
    destruct (resume t) as [[es cs] r] eqn:Hres. unfold absorb.
    destruct Hseq as (Hup & Hlin & Hload & HS).
    unfold sequenced, threads, joined in *. simpl.
    split; [done|].
    destruct (lookup_split _ _ _ Hi) as (l1 & l2 & Hl & Hins).
    rewrite Hins. rewrite Hl in Hlin, Hload, HS.
    set (J := match awaiting c with
              | Some k => match mapM outcome (uploads c) with
                          | Some filePaths => [k filePaths]
                          | None => []
                          end
              | None => []
              end) in *.
    assert (Ht : linear sel t).
    { apply Forall_app in Hlin as [_ Hlin]. apply Forall_app in Hlin as [_ Hlin].
      by apply Forall_cons in Hlin as [? _]. }
    destruct (resume_linear sel _ _ _ _ Ht Hres) as (Hp & Hcs & Hr & Hle).
    eapply (sequenced_turn (trace c) (J ++ l1 ++ t :: l2) _ (J ++ l1 ++ l2));
      try done; solve_Permutation.
Qed.

Lemma run_sequenced schedule c :
  sequenced sel S c -> sequenced sel S (run schedule c).
Proof.
  revert c. induction schedule as [|ch s IH]; intros c Hc; [done|].
  unfold run in *; simpl. by apply IH, step_sequenced.
Qed.

(** The selected events of the trace are always a prefix of [S], and all
    of [S] once nothing is left to resume. *)
Lemma sequenced_prefix c : sequenced sel S c -> List.filter sel (trace c) `prefix_of` S.
Proof. intros (_ & _ & _ & <-). by apply prefix_app_r. Qed.

Lemma sequenced_quiescent c :
  sequenced sel S c -> quiescent c = true -> List.filter sel (trace c) = S.
Proof.
  intros (_ & _ & _ & <-) Hq.
  pose proof (quiescent_future c Hq) as Hfut.
  unfold future in Hfut. apply app_eq_nil in Hfut as [_ Hfut].
  fold (threads c) in Hfut.
  assert (Hnil : projs sel (threads c) = []).
  { unfold projs. revert Hfut. generalize (threads c).
    induction l as [|t l IH]; simpl; [done|].
    intros [Ht Hl]%app_eq_nil. unfold proj at 1. by rewrite Ht, IH. }
  by rewrite Hnil, app_nil_r.
Qed.

(** A chain started in the current turn. *)
Lemma start_sequenced st tr (t : Task unit) :
  linear sel t -> List.filter sel tr ++ proj sel t = S ->
  sequenced sel S (start st tr t).
Proof.
  intros Hlin HS. unfold start.
  destruct (run_sync t) as [[es cs] r] eqn:Hrun. unfold absorb.
  destruct (run_sync_linear sel _ _ _ _ Hlin Hrun) as (Hp & Hcs & Hr & Hle).
  unfold sequenced, threads, joined. simpl. split; [done|]. split; [|split].
  - apply Forall_app. split; [done|]. by constructor.
  - rewrite load_app. unfold load at 2. simpl. lia.
  - rewrite List.filter_app, projs_app. unfold projs at 2. simpl.
    rewrite <- HS, Hp. by rewrite app_nil_r, <- !app_assoc.
Qed.
End SequenceInvariant.

(** * Combinators *)

Lemma events_bind {A B : Type} (t : Task A) (f : A -> Task B) :
  events (bind t f) =
  events t ++ match outcome t with Some r => events (f r) | None => [] end.
Proof.
  induction t as [R r0| R | R e k IH | R k IH | R c _ k IH]; simpl; try done.
  - by rewrite IH.
  - by rewrite IH, app_assoc.
Qed.

Lemma outcome_bind {A B : Type} (t : Task A) (f : A -> Task B) :
  outcome (bind t f) = match outcome t with Some r => outcome (f r) | None => None end.
Proof. induction t; simpl; done. Qed.

Lemma linear_bind sel {A B : Type} (t : Task A) (f : A -> Task B) :
  nospawn t -> (forall r, outcome t = Some r -> linear sel (f r)) ->
  linear sel (bind t f).
Proof.
  induction t as [R r0| R | R e k IH | R k IH | R c _ k IH]; simpl; try done; auto.
Qed.

Lemma events_emitAll {R : Type} es (k : Task R) : events (emitAll es k) = es ++ events k.
Proof. induction es as [|e es IH]; simpl; [done|]. by rewrite IH. Qed.

Lemma outcome_emitAll {R : Type} es (k : Task R) : outcome (emitAll es k) = outcome k.
Proof. induction es as [|e es IH]; simpl; done. Qed.

Lemma bind_emitAll {A B : Type} es (k : Task A) (f : A -> Task B) :
  bind (emitAll es k) f = emitAll es (bind k f).
Proof. induction es as [|e es IH]; simpl; [done|]. by rewrite IH. Qed.

Lemma catch_emitAll {A : Type} es (k h : Task A) :
  catch_ (emitAll es k) h = emitAll es (catch_ k h).
Proof. induction es as [|e es IH]; simpl; [done|]. by rewrite IH. Qed.

Lemma linear_emitAll sel {R : Type} es (k : Task R) :
  linear sel (emitAll es k) <-> linear sel k.
Proof. induction es as [|e es IH]; simpl; done. Qed.

(** * The chains of the component *)

Lemma of_instagram_touches a b e :
  of_instagram a e -> a <> b -> touches_instagram b e = false.
Proof.
  destruct e; simpl; try done.
  - intros -> Hne. by apply String.eqb_neq.
  - intros -> Hne. by apply String.eqb_neq.
  - intros -> Hne. by apply String.eqb_neq.
  - intros -> Hne. by apply String.eqb_neq.
  - intros [s ->] Hne. apply bool_decide_eq_false. rewrite lookup_singleton_ne by done.
    by intros [? ?].
Qed.

Lemma of_instagram_youtube a c e : of_instagram a e -> touches_youtube c e = false.
Proof. destruct e; simpl; done. Qed.

Lemma of_instagram_upload a e : of_instagram a e -> is_upload e = false.
Proof. destruct e; simpl; done. Qed.

Lemma of_youtube_touches c d e :
  of_youtube c e -> c <> d -> touches_youtube d e = false.
Proof.
  destruct e; simpl; try done.
  - intros -> Hne. by apply String.eqb_neq.
  - intros -> Hne. by apply String.eqb_neq.
  - intros [s ->] Hne. apply bool_decide_eq_false. rewrite lookup_singleton_ne by done.
    by intros [? ?].
Qed.

Lemma of_youtube_instagram c a e : of_youtube c e -> touches_instagram a e = false.
Proof. destruct e; simpl; done. Qed.

Lemma of_youtube_upload c e : of_youtube c e -> is_upload e = false.
Proof. destruct e; simpl; done. Qed.

Lemma touches_instagram_set a s :
  touches_instagram a (SetInstagramAccountIdToProcessingState {[ a := s ]}) = true.
Proof. simpl. apply bool_decide_eq_true. rewrite lookup_singleton_eq. by eexists. Qed.

Lemma touches_youtube_set c s :
  touches_youtube c (SetYoutubeChannelIdToProcessingState {[ c := s ]}) = true.
Proof. simpl. apply bool_decide_eq_true. rewrite lookup_singleton_eq. by eexists. Qed.

Lemma filter_none {A : Type} (f : A -> bool) (P : A -> Prop) l :
  (forall x, P x -> f x = false) -> Forall P l -> List.filter f l = [].
Proof.
  intros Hf. induction 1 as [|x l Hx _ IH]; simpl; [done|]. by rewrite (Hf _ Hx).
Qed.


Section ChainFacts.
Context (env : Env) (C : Component).

Lemma uploadSocialMediaPostFile_nospawn u f i p :
  nospawn (uploadSocialMediaPostFile env u f i p).
Proof. unfold uploadSocialMediaPostFile. break_env; done. Qed.

Lemma uploadSocialMediaPostFile_events u f i p :
  Forall (fun e => is_upload e = true) (events (uploadSocialMediaPostFile env u f i p)).
Proof. unfold uploadSocialMediaPostFile. break_env; repeat constructor. Qed.

Lemma singleInstagram_events p f fp acc :
  Forall (of_instagram (InstagramAccounts.instagram_business_account_id acc))
    (events (singleInstagram env C p f fp acc)).
Proof.
  unfold singleInstagram, call. break_env; repeat constructor; simpl; eauto.
Qed.

Lemma singleInstagram_linear sel p f fp acc :
  skips_persist sel -> linear sel (singleInstagram env C p f fp acc).
Proof.
  intros Hsel. unfold singleInstagram, call.
  break_env; unfold proj; simpl; rewrite ?Hsel; simpl; tauto.
Qed.

Lemma singleYoutube_events p f ch :
  Forall (of_youtube (YoutubeChannels.id ch)) (events (singleYoutube env C p f ch)).
Proof.
  unfold singleYoutube, call. break_env; repeat constructor; simpl; eauto.
Qed.

Lemma singleYoutube_linear sel p f ch : linear sel (singleYoutube env C p f ch).
Proof.
  unfold singleYoutube, call. break_env; unfold proj; simpl; tauto.
Qed.

Lemma carouselInstagram_unfold p fps acc :
  carouselInstagram env C p fps acc =
  let a := InstagramAccounts.instagram_business_account_id acc in
  let creates :=
    map (fun fp =>
           CreateInstagramContainer a (filePath fp) None (userId C)
             (video_or_image (postType fp)) true) fps in
  let ids :=
    sequence
      (map (fun fp =>
              createInstagramContainer env a (filePath fp) None (userId C)
                (video_or_image (postType fp)) true) fps) in
  Emit (SetInstagramAccountIdToProcessingState {[ a := processing ]})
    (Spawn
       (emitAll creates
          (Await
             match ids with
             | None =>
                 Emit (SetInstagramAccountIdToProcessingState {[ a := error ]}) (Ret tt)
             | Some ids =>
                 catch_
                   (bind
                      (call (CheckInstagramContainerStatus ids a (userId C))
                         (checkInstagramContainerStatus env ids a (userId C)))
                      (fun _ =>
                         bind
                           (call
                              (CreateInstagramCarouselContainer ids a (userId C)
                                 (caption C))
                              (createInstagramCarouselContainer env ids a (userId C)
                                 (caption C)))
                           (fun agg =>
                              bind
                                (call
                                   (CheckInstagramContainerStatus [agg] a (userId C))
                                   (checkInstagramContainerStatus env [agg] a
                                      (userId C)))
                                (fun _ =>
                                   bind
                                     (call
                                        (PublishInstagramMediaContainer a agg
                                           (userId C))
                                        (publishInstagramMediaContainer env a agg
                                           (userId C)))
                                     (fun mediaId =>
                                        Spawn
                                          (call
                                             (SaveInstagramId mediaId p (caption C)
                                                (userId C))
                                             (saveInstagramId env mediaId p
                                                (caption C) (userId C)))
                                          (Emit
                                             (SetInstagramAccountIdToProcessingState
                                                {[ a := posted ]})
                                             (Ret tt)))))))
                   (Emit (SetInstagramAccountIdToProcessingState {[ a := error ]})
                      (Ret tt))
             end))
       (Ret tt)).
Proof.
  unfold carouselInstagram, callAll. cbv zeta.
  rewrite bind_emitAll, catch_emitAll.
  rewrite <- !list_fmap_compose. unfold compose. simpl.
  do 3 f_equal. fold (@fmap list _). f_equal.
  by destruct (sequence _).
Qed.

Lemma carouselInstagram_events p fps acc :
  Forall (of_instagram (InstagramAccounts.instagram_business_account_id acc))
    (events (carouselInstagram env C p fps acc)).
Proof.
  rewrite carouselInstagram_unfold. cbv zeta. simpl.
  rewrite events_emitAll, app_nil_r. constructor; [simpl; eauto|].
  apply Forall_app. split.
  - apply Forall_forall. intros e (fp & -> & _)%list_elem_of_fmap. done.
  - unfold call. break_env; repeat constructor; simpl; eauto.
Qed.

Lemma carouselInstagram_linear sel p fps acc :
  skips_persist sel -> linear sel (carouselInstagram env C p fps acc).
Proof.
  intros Hsel. rewrite carouselInstagram_unfold. cbv zeta. simpl.
  rewrite linear_emitAll. unfold call.
  break_env; unfold proj; simpl; rewrite ?Hsel; simpl; tauto.
Qed.
End ChainFacts.

(** * Launching one workflow per destination *)

Section ForEach.
Context {A : Type} (body : A -> Task unit).
Context (first : A -> Event) (chain : A -> Task unit).
Hypothesis Hbody : forall x, body x = Emit (first x) (Spawn (chain x) (Ret tt)).

Lemma forEach_cons_bind x l (g : unit -> Task unit) :
  bind (forEach (x :: l) body) g =
  Emit (first x) (Spawn (chain x) (bind (forEach l body) g)).
Proof. simpl. by rewrite Hbody. Qed.

Lemma forEach_bind_ret l : bind (forEach l body) (fun _ => Ret tt) = forEach l body.
Proof.
  induction l as [|x l IH]; [done|].
  rewrite forEach_cons_bind, IH. simpl. by rewrite Hbody.
Qed.

Lemma events_forEach_bind l (g : unit -> Task unit) :
  events (bind (forEach l body) g) = flat_map (fun x => events (body x)) l ++ events (g tt).
Proof.
  induction l as [|x l IH]; [done|].
  rewrite forEach_cons_bind. simpl. rewrite IH, Hbody. simpl.
  by rewrite app_nil_r, <- app_assoc.
Qed.

Lemma events_forEach l : events (forEach l body) = flat_map (fun x => events (body x)) l.
Proof. by rewrite <- forEach_bind_ret, events_forEach_bind, app_nil_r. Qed.

Lemma proj_forEach_bind sel l (g : unit -> Task unit) :
  proj sel (bind (forEach l body) g) =
  flat_map (fun x => proj sel (body x)) l ++ proj sel (g tt).
Proof.
  unfold proj. rewrite events_forEach_bind, List.filter_app. f_equal.
  induction l as [|x l IH]; simpl; [done|]. by rewrite List.filter_app, IH.
Qed.

Lemma proj_chain_nil sel x : proj sel (body x) = [] -> proj sel (chain x) = [].
Proof.
  unfold proj. rewrite Hbody. simpl. rewrite app_nil_r.
  destruct (sel (first x)); done.
Qed.

Lemma linear_forEach_bind sel l (g : unit -> Task unit) :
  (forall x, x ∈ l -> linear sel (body x)) ->
  linear sel (g tt) ->
  sum_list_with (fun x => busy sel (body x)) l + busy sel (g tt) <= 1 ->
  linear sel (bind (forEach l body) g).
Proof.
  induction l as [|x l IH]; intros Hl Hg Hsum; [done|].
  rewrite forEach_cons_bind. simpl. simpl in Hsum.
  assert (Hx : linear sel (body x)) by (apply Hl; left).
  rewrite Hbody in Hx. simpl in Hx. destruct Hx as (Hx & _ & _).
  split; [done|]. split.
  - apply IH; [|done|lia]. intros y Hy. apply Hl. by right.
  - destruct (busy sel (body x)) eqn:Hb.
    + left. by apply proj_chain_nil, busy_0_inv.
    + right. rewrite proj_forEach_bind.
      pose proof (busy_le sel (body x)).
      assert (Hrest : sum_list_with (fun x => busy sel (body x)) l = 0) by lia.
      assert (Hgq : busy sel (g tt) = 0) by lia.
      rewrite (busy_0_inv _ _ Hgq), app_nil_r.
      clear -Hrest. induction l as [|y l IH]; simpl in *; [done|].
      rewrite (busy_0_inv sel (body y)) by lia. apply IH. lia.
Qed.

(** With pairwise distinct keys, at most one body carries the events of a
    selector that picks one key. *)
Lemma forEach_load sel (key : A -> string) (a : string) l :
  (forall x, key x <> a -> proj sel (body x) = []) ->
  NoDup (map key l) ->
  sum_list_with (fun x => busy sel (body x)) l <= 1.
Proof.
  intros Hother. induction l as [|x l IH]; simpl; [lia|].
  intros [Hnotin Hnd]%NoDup_cons. destruct (decide (key x = a)) as [Heq|Hne].
  - assert (sum_list_with (fun x => busy sel (body x)) l = 0); [|pose proof (busy_le sel (body x)); lia].
    clear IH Hnd. induction l as [|y l IH]; simpl in *; [done|].
    apply not_elem_of_cons in Hnotin as [Hy Hnotin].
    rewrite (busy_0 sel (body y)) by (apply Hother; congruence).
    by apply IH.
  - rewrite (busy_0 sel (body x)) by by apply Hother. by apply IH.
Qed.

Lemma forEach_proj_other sel (key : A -> string) (a : string) l :
  (forall x, key x <> a -> proj sel (body x) = []) ->
  a ∉ map key l ->
  flat_map (fun x => proj sel (body x)) l = [].
Proof.
  intros Hother. induction l as [|x l IH]; simpl; [done|].
  intros [Hx Hl]%not_elem_of_cons. rewrite Hother by done. by apply IH.
Qed.

Lemma forEach_proj_own sel (key : A -> string) l x :
  (forall y, key y <> key x -> proj sel (body y) = []) ->
  NoDup (map key l) -> x ∈ l ->
  flat_map (fun y => proj sel (body y)) l = proj sel (body x).
Proof.
  intros Hother. induction l as [|y l IH]; simpl; [by intros _ ?%elem_of_nil|].
  intros [Hnotin Hnd]%NoDup_cons [->|Hin]%elem_of_cons.
  - by rewrite (forEach_proj_other sel key (key y) l), app_nil_r.
  - rewrite Hother, IH; try done. intros Heq. apply Hnotin. rewrite Heq.
    by apply list_elem_of_fmap_2.
Qed.
End ForEach.

Lemma is_upload_touches_instagram a e : is_upload e = true -> touches_instagram a e = false.
Proof. by destruct e. Qed.

Lemma is_upload_touches_youtube c e : is_upload e = true -> touches_youtube c e = false.
Proof. by destruct e. Qed.

Lemma skips_persist_instagram a : skips_persist (touches_instagram a).
Proof. done. Qed.

Lemma skips_persist_youtube c : skips_persist (touches_youtube c).
Proof. done. Qed.

Section SinglePath.
Context (env : Env) (C : Component) (p : string).
Context (entry : FileEntry) (rest : list FileEntry).
Hypothesis Hfiles : files C = entry :: rest.

Local Abbreviation up := (uploadSocialMediaPostFile env (userId C) (file entry) 0 p).
Local Abbreviation ig := (singleInstagram env C p (file entry)).
Local Abbreviation yt := (singleYoutube env C p (file entry)).

Lemma processSingle_eq :
  processSingleSocialMediaPost env C p =
  bind up (fun fp =>
    bind (forEach (selectedInstagramAccounts C) (ig fp))
      (fun _ => forEach (selectedYoutubeChannels C) yt)).
Proof. unfold processSingleSocialMediaPost. by rewrite Hfiles. Qed.

Lemma ig_shape fp :
  exists first chain, forall x, ig fp x = Emit (first x) (Spawn (chain x) (Ret tt)).
Proof. by eexists _, _. Qed.

Lemma yt_shape :
  exists first chain, forall x, yt x = Emit (first x) (Spawn (chain x) (Ret tt)).
Proof. by eexists _, _. Qed.

Lemma up_proj sel :
  (forall e, is_upload e = true -> sel e = false) -> proj sel up = [].
Proof.
  intros Hsel. unfold proj. eapply filter_none; [apply Hsel|].
  apply uploadSocialMediaPostFile_events.
Qed.

Lemma ig_other a fp x :
  InstagramAccounts.instagram_business_account_id x <> a ->
  proj (touches_instagram a) (ig fp x) = [].
Proof.
  intros Hne. unfold proj. eapply filter_none; [|apply singleInstagram_events].
  intros e He. by eapply of_instagram_touches.
Qed.

Lemma ig_youtube c fp x : proj (touches_youtube c) (ig fp x) = [].
Proof.
  unfold proj. eapply filter_none; [|apply singleInstagram_events].
  intros e He. by eapply of_instagram_youtube.
Qed.

Lemma yt_other c x :
  YoutubeChannels.id x <> c -> proj (touches_youtube c) (yt x) = [].
Proof.
  intros Hne. unfold proj. eapply filter_none; [|apply singleYoutube_events].
  intros e He. by eapply of_youtube_touches.
Qed.

Lemma yt_instagram a x : proj (touches_instagram a) (yt x) = [].
Proof.
  unfold proj. eapply filter_none; [|apply singleYoutube_events].
  intros e He. by eapply of_youtube_instagram.
Qed.

Lemma flat_map_nil {A B : Type} (f : A -> list B) l :
  (forall x, f x = []) -> flat_map f l = [].
Proof. intros Hf. induction l as [|x l IH]; simpl; [done|]. by rewrite Hf, IH. Qed.

Lemma sum_list_with_0 {A : Type} (f : A -> nat) l :
  (forall x, f x = 0) -> sum_list_with f l = 0.
Proof. intros Hf. induction l as [|x l IH]; simpl; [done|]. by rewrite Hf, IH. Qed.

Lemma processSingle_proj_instagram a :
  proj (touches_instagram a) (processSingleSocialMediaPost env C p) =
  match outcome up with
  | Some fp =>
      flat_map (fun x => proj (touches_instagram a) (ig fp x))
        (selectedInstagramAccounts C)
  | None => []
  end.
Proof.
  rewrite processSingle_eq. unfold proj at 1. rewrite events_bind, List.filter_app.
  fold (proj (touches_instagram a) up).
  rewrite up_proj by apply is_upload_touches_instagram. simpl.
  destruct (outcome up) as [fp|]; [|done].
  destruct (ig_shape fp) as (first & chain & Hig).
  destruct yt_shape as (first' & chain' & Hyt).
  fold (proj (touches_instagram a)
          (bind (forEach (selectedInstagramAccounts C) (ig fp))
             (fun _ => forEach (selectedYoutubeChannels C) yt))).
  rewrite (proj_forEach_bind _ _ _ Hig).
  rewrite <- (forEach_bind_ret _ _ _ Hyt), (proj_forEach_bind _ _ _ Hyt).
  rewrite (flat_map_nil _ _ (yt_instagram a)). by rewrite !app_nil_r.
Qed.

Lemma processSingle_proj_youtube c :
  proj (touches_youtube c) (processSingleSocialMediaPost env C p) =
  match outcome up with
  | Some fp =>
      flat_map (fun x => proj (touches_youtube c) (yt x)) (selectedYoutubeChannels C)
  | None => []
  end.
Proof.
  rewrite processSingle_eq. unfold proj at 1. rewrite events_bind, List.filter_app.
  fold (proj (touches_youtube c) up).
  rewrite up_proj by apply is_upload_touches_youtube. simpl.
  destruct (outcome up) as [fp|]; [|done].
  destruct (ig_shape fp) as (first & chain & Hig).
  destruct yt_shape as (first' & chain' & Hyt).
  fold (proj (touches_youtube c)
          (bind (forEach (selectedInstagramAccounts C) (ig fp))
             (fun _ => forEach (selectedYoutubeChannels C) yt))).
  rewrite (proj_forEach_bind _ _ _ Hig).
  rewrite <- (forEach_bind_ret _ _ _ Hyt), (proj_forEach_bind _ _ _ Hyt).
  rewrite (flat_map_nil _ _ (ig_youtube c fp)). by rewrite !app_nil_r.
Qed.

Lemma processSingle_linear_instagram a :
  NoDup (map InstagramAccounts.instagram_business_account_id
           (selectedInstagramAccounts C)) ->
  linear (touches_instagram a) (processSingleSocialMediaPost env C p).
Proof.
  intros Hnd. rewrite processSingle_eq.
  apply linear_bind; [apply uploadSocialMediaPostFile_nospawn|].
  intros fp _.
  destruct (ig_shape fp) as (first & chain & Hig).
  destruct yt_shape as (first' & chain' & Hyt).
  assert (Hq : proj (touches_instagram a)
                 (forEach (selectedYoutubeChannels C) yt) = []).
  { rewrite <- (forEach_bind_ret _ _ _ Hyt), (proj_forEach_bind _ _ _ Hyt).
    by rewrite (flat_map_nil _ _ (yt_instagram a)). }
  apply (linear_forEach_bind _ _ _ Hig).
  - intros x _. apply singleInstagram_linear, skips_persist_instagram.
  - by apply proj_nil_linear.
  - rewrite (busy_0 _ _ Hq).
    pose proof (forEach_load (ig fp) (touches_instagram a)
                  InstagramAccounts.instagram_business_account_id a
                  (selectedInstagramAccounts C) (fun x => ig_other a fp x) Hnd).
    lia.
Qed.

Lemma processSingle_linear_youtube c :
  NoDup (map YoutubeChannels.id (selectedYoutubeChannels C)) ->
  linear (touches_youtube c) (processSingleSocialMediaPost env C p).
Proof.
  intros Hnd. rewrite processSingle_eq.
  apply linear_bind; [apply uploadSocialMediaPostFile_nospawn|].
  intros fp _.
  destruct (ig_shape fp) as (first & chain & Hig).
  destruct yt_shape as (first' & chain' & Hyt).
  apply (linear_forEach_bind _ _ _ Hig).
  - intros x _. apply singleInstagram_linear, skips_persist_youtube.
  - rewrite <- (forEach_bind_ret _ _ _ Hyt).
    apply (linear_forEach_bind _ _ _ Hyt).
    + intros x _. apply singleYoutube_linear.
    + done.
    + pose proof (forEach_load yt (touches_youtube c) YoutubeChannels.id c
                    (selectedYoutubeChannels C) (fun x => yt_other c x) Hnd).
      unfold busy at 2. simpl. lia.
  - rewrite (sum_list_with_0 _ _ (fun x => busy_0 _ _ (ig_youtube c fp x))).
    pose proof (busy_le (touches_youtube c)
                  (forEach (selectedYoutubeChannels C) yt)). lia.
Qed.
End SinglePath.

Lemma started_quiet sel {R : Type} (ts : list (Task R)) :
  Forall (fun t => proj sel t = []) ts ->
  List.filter sel (concat ((map run_sync ts).*1.*1)) = [] /\
  projs sel (concat ((map run_sync ts).*1.*2)) = [] /\
  flat_map (proj sel) ((map run_sync ts).*2) = [] /\
  mapM outcome ((map run_sync ts).*2) = mapM outcome ts.
Proof.
  induction 1 as [|t ts Ht _ (IH1 & IH2 & IH3 & IH4)]; [done|].
  change (map run_sync (t :: ts)) with (run_sync t :: map run_sync ts).
  rewrite !fmap_cons.
  destruct (run_sync t) as [[es cs] r] eqn:Hrun.
  destruct (proj_nil_run_sync sel _ _ _ _ Ht Hrun) as (Hes & Hcs & Hr).
  cbn [fst snd concat flat_map].
  rewrite List.filter_app, projs_app, Hes, Hcs, Hr, IH1, IH2, IH3.
  repeat split; try done.
  cbn [mapM]. rewrite (run_sync_outcome _ _ _ _ Hrun), IH4. done.
Qed.

Section CarouselPath.
Context (env : Env) (C : Component) (p : string).

Local Abbreviation ig := (carouselInstagram env C p).

Lemma carousel_shape fps :
  exists first chain, forall x, ig fps x = Emit (first x) (Spawn (chain x) (Ret tt)).
Proof. by eexists _, _. Qed.

Lemma carousel_other a fps x :
  InstagramAccounts.instagram_business_account_id x <> a ->
  proj (touches_instagram a) (ig fps x) = [].
Proof.
  intros Hne. unfold proj. eapply filter_none; [|apply carouselInstagram_events].
  intros e He. by eapply of_instagram_touches.
Qed.

Lemma carousel_youtube c fps x : proj (touches_youtube c) (ig fps x) = [].
Proof.
  unfold proj. eapply filter_none; [|apply carouselInstagram_events].
  intros e He. by eapply of_instagram_youtube.
Qed.

Lemma carouselUploads_events :
  Forall (fun t => Forall (fun e => is_upload e = true) (events t))
    (carouselUploads env C p).
Proof.
  unfold carouselUploads. apply Forall_forall. intros t Ht.
  apply list_elem_of_lookup in Ht as [i Hi].
  rewrite list_lookup_imap in Hi.
  destruct (files C !! i) as [entry|]; [|done]. simpl in Hi. injection Hi as <-.
  rewrite events_bind.
  apply Forall_app. split; [apply uploadSocialMediaPostFile_events|].
  by destruct (outcome _).
Qed.

Lemma carouselUploads_quiet sel :
  (forall e, is_upload e = true -> sel e = false) ->
  Forall (fun t => proj sel t = []) (carouselUploads env C p).
Proof.
  intros Hsel. eapply Forall_impl; [apply carouselUploads_events|].
  intros t Ht. unfold proj.
  by apply (filter_none _ (fun e => is_upload e = true)).
Qed.

Lemma carouselAfterUploads_proj_instagram a fps :
  proj (touches_instagram a) (carouselAfterUploads env C p fps) =
  flat_map (fun x => proj (touches_instagram a) (ig fps x))
    (selectedInstagramAccounts C).
Proof.
  unfold carouselAfterUploads.
  destruct (carousel_shape fps) as (first & chain & Hig).
  
  by rewrite <- (forEach_bind_ret _ _ _ Hig), (proj_forEach_bind _ _ _ Hig), app_nil_r.
Qed.

Lemma carouselAfterUploads_linear_instagram a fps :
  NoDup (map InstagramAccounts.instagram_business_account_id
           (selectedInstagramAccounts C)) ->
  linear (touches_instagram a) (carouselAfterUploads env C p fps).
Proof.
  intros Hnd. unfold carouselAfterUploads.
  destruct (carousel_shape fps) as (first & chain & Hig).
  rewrite <- (forEach_bind_ret _ _ _ Hig).
  apply (linear_forEach_bind _ _ _ Hig).
  - intros x _. apply carouselInstagram_linear, skips_persist_instagram.
  - done.
  - pose proof (forEach_load (ig fps) (touches_instagram a)
                  InstagramAccounts.instagram_business_account_id a
                  (selectedInstagramAccounts C) (fun x => carousel_other a fps x) Hnd).
    unfold busy at 2. simpl. lia.
Qed.

Lemma carouselAfterUploads_proj_youtube c fps :
  proj (touches_youtube c) (carouselAfterUploads env C p fps) = [].
Proof.
  unfold carouselAfterUploads.
  destruct (carousel_shape fps) as (first & chain & Hig).
  
  rewrite <- (forEach_bind_ret _ _ _ Hig), (proj_forEach_bind _ _ _ Hig), app_nil_r.
  apply flat_map_nil. apply carousel_youtube.
Qed.

(** The carousel path starts in a configuration that is sequenced for each
    selector that does not pick upload events and for which the function
    body after the uploads is linear. *)
Lemma processCarousel_sequenced sel st tr :
  (forall e, is_upload e = true -> sel e = false) ->
  (forall fps, linear sel (carouselAfterUploads env C p fps)) ->
  sequenced sel
    (List.filter sel tr ++
     match mapM outcome (carouselUploads env C p) with
     | Some fps => proj sel (carouselAfterUploads env C p fps)
     | None => []
     end)
    (processCarouselSocialMediaPost env C st tr p).
Proof.
  intros Hsel Hlin. unfold processCarouselSocialMediaPost, absorb.
  apply promise_all_sequenced.
  destruct (started_quiet sel _ (carouselUploads_quiet sel Hsel))
    as (Hes & Hcs & Hrs & Hout).
  unfold sequenced, threads, joined. simpl. rewrite Hout. clear Hout.
  split; [done|].
  destruct (mapM outcome (carouselUploads env C p)) as [fps|].
  - split; [|split].
    + apply Forall_app. split; [|by apply projs_nil_linear].
      repeat constructor. apply Hlin.
    + rewrite load_app, (load_0 _ _ Hcs). unfold load. simpl.
      pose proof (busy_le sel (carouselAfterUploads env C p fps)). lia.
    + rewrite List.filter_app, projs_app, Hes, Hcs, !app_nil_r. f_equal.
      unfold projs. simpl. by rewrite app_nil_r.
  - cbn [app]. split; [|split].
    + by apply projs_nil_linear.
    + rewrite (load_0 _ _ Hcs). lia.
    + by rewrite List.filter_app, Hes, Hcs, !app_nil_r.
Qed.
End CarouselPath.

(** * The entry point *)

Lemma processSocialMediaPost_single env C st p :
  createSocialMediaPost env (userId C) = Some p -> length (files C) = 1 ->
  processSocialMediaPost env C st =
  start st [CreateSocialMediaPost (userId C)] (processSingleSocialMediaPost env C p).
Proof. intros Hp Hlen. unfold processSocialMediaPost. by rewrite Hp, Hlen. Qed.

Lemma processSocialMediaPost_carousel env C st p :
  createSocialMediaPost env (userId C) = Some p -> 1 < length (files C) ->
  processSocialMediaPost env C st =
  processCarouselSocialMediaPost env C st [CreateSocialMediaPost (userId C)] p.
Proof.
  intros Hp Hlen. unfold processSocialMediaPost. rewrite Hp.
  destruct (Nat.eqb_spec (length (files C)) 1) as [Heq|_]; [lia|].
  by destruct (Nat.ltb_spec 1 (length (files C))) as [_|?]; [|lia].
Qed.

Lemma processSocialMediaPost_idle env C st :
  files C = [] ->
  processSocialMediaPost env C st =
  mkConfig st [CreateSocialMediaPost (userId C)] [] None [].
Proof.
  intros Hnil. unfold processSocialMediaPost. rewrite Hnil. simpl.
  by destruct (createSocialMediaPost env (userId C)).
Qed.

(** What one Instagram account sees of a run of the single-item path. *)
Lemma single_projection_instagram env C st p entry fp acc schedule :
  createSocialMediaPost env (userId C) = Some p ->
  files C = [entry] ->
  outcome (uploadSocialMediaPostFile env (userId C) (file entry) 0 p) = Some fp ->
  NoDup (map InstagramAccounts.instagram_business_account_id
           (selectedInstagramAccounts C)) ->
  acc ∈ selectedInstagramAccounts C ->
  sequenced (touches_instagram (InstagramAccounts.instagram_business_account_id acc))
    (proj (touches_instagram (InstagramAccounts.instagram_business_account_id acc))
       (singleInstagram env C p (file entry) fp acc))
    (run schedule (processSocialMediaPost env C st)).
Proof.
  intros Hp Hfiles Hup Hnd Hacc. apply run_sequenced.
  rewrite (processSocialMediaPost_single _ _ _ _ Hp) by by rewrite Hfiles.
  apply start_sequenced.
  - by eapply processSingle_linear_instagram.
  - rewrite (processSingle_proj_instagram _ _ _ _ _ Hfiles), Hup. simpl.
    apply (forEach_proj_own _ _
             InstagramAccounts.instagram_business_account_id); try done.
    intros y Hy. by apply ig_other.
Qed.

(** What one YouTube channel sees of a run of the single-item path. *)
Lemma single_projection_youtube env C st p entry fp ch schedule :
  createSocialMediaPost env (userId C) = Some p ->
  files C = [entry] ->
  outcome (uploadSocialMediaPostFile env (userId C) (file entry) 0 p) = Some fp ->
  NoDup (map YoutubeChannels.id (selectedYoutubeChannels C)) ->
  ch ∈ selectedYoutubeChannels C ->
  sequenced (touches_youtube (YoutubeChannels.id ch))
    (proj (touches_youtube (YoutubeChannels.id ch))
       (singleYoutube env C p (file entry) ch))
    (run schedule (processSocialMediaPost env C st)).
Proof.
  intros Hp Hfiles Hup Hnd Hch. apply run_sequenced.
  rewrite (processSocialMediaPost_single _ _ _ _ Hp) by by rewrite Hfiles.
  apply start_sequenced.
  - by eapply processSingle_linear_youtube.
  - rewrite (processSingle_proj_youtube _ _ _ _ _ Hfiles), Hup. simpl.
    apply (forEach_proj_own _ _ YoutubeChannels.id); try done.
    intros y Hy. by apply yt_other.
Qed.

(** What one Instagram account sees of a run of the carousel path. *)
Lemma carousel_projection_instagram env C st p fps acc schedule :
  createSocialMediaPost env (userId C) = Some p ->
  1 < length (files C) ->
  mapM outcome (carouselUploads env C p) = Some fps ->
  NoDup (map InstagramAccounts.instagram_business_account_id
           (selectedInstagramAccounts C)) ->
  acc ∈ selectedInstagramAccounts C ->
  sequenced (touches_instagram (InstagramAccounts.instagram_business_account_id acc))
    (proj (touches_instagram (InstagramAccounts.instagram_business_account_id acc))
       (carouselInstagram env C p fps acc))
    (run schedule (processSocialMediaPost env C st)).
Proof.
  intros Hp Hlen Hup Hnd Hacc. apply run_sequenced.
  rewrite (processSocialMediaPost_carousel _ _ _ _ Hp Hlen).
  pose proof (processCarousel_sequenced env C p
                (touches_instagram (InstagramAccounts.instagram_business_account_id acc))
                st [CreateSocialMediaPost (userId C)]
                (is_upload_touches_instagram _)
                (fun fps => carouselAfterUploads_linear_instagram env C p _ fps Hnd))
    as Hseq.
  rewrite Hup in Hseq. simpl in Hseq.
  rewrite carouselAfterUploads_proj_instagram in Hseq.
  rewrite (forEach_proj_own _ _
             InstagramAccounts.instagram_business_account_id _ acc) in Hseq;
    try done.
  intros y Hy. by apply carousel_other.
Qed.

(** The carousel path does nothing for a YouTube channel. *)
Lemma carousel_projection_youtube env C st p c schedule :
  createSocialMediaPost env (userId C) = Some p ->
  1 < length (files C) ->
  sequenced (touches_youtube c) [] (run schedule (processSocialMediaPost env C st)).
Proof.
  intros Hp Hlen. apply run_sequenced.
  rewrite (processSocialMediaPost_carousel _ _ _ _ Hp Hlen).
  pose proof (processCarousel_sequenced env C p (touches_youtube c)
                st [CreateSocialMediaPost (userId C)]
                (is_upload_touches_youtube _)
                (fun fps => proj_nil_linear _ _
                              (carouselAfterUploads_proj_youtube env C p c fps)))
    as Hseq.
  simpl in Hseq.
  by destruct (mapM outcome (carouselUploads env C p));
    rewrite ?carouselAfterUploads_proj_youtube in Hseq.
Qed.

(** * What the workflow of one destination does *)

Lemma touches_instagram_create a fp cap u pt ci :
  touches_instagram a (CreateInstagramContainer a fp cap u pt ci) = true.
Proof. apply String.eqb_refl. Qed.

Lemma touches_instagram_check a ids u :
  touches_instagram a (CheckInstagramContainerStatus ids a u) = true.
Proof. apply String.eqb_refl. Qed.

Lemma touches_instagram_aggregate a ids u cap :
  touches_instagram a (CreateInstagramCarouselContainer ids a u cap) = true.
Proof. apply String.eqb_refl. Qed.

Lemma touches_instagram_publish a cid u :
  touches_instagram a (PublishInstagramMediaContainer a cid u) = true.
Proof. apply String.eqb_refl. Qed.

Lemma touches_instagram_persist a m p c u :
  touches_instagram a (SaveInstagramId m p c u) = false.
Proof. done. Qed.

Lemma touches_youtube_fetch c f t u p :
  touches_youtube c (FetchYoutubePost c f t u p) = true.
Proof. apply String.eqb_refl. Qed.

Lemma touches_youtube_post c f t u p y :
  touches_youtube c (PostVideoToYoutube c f t u p y) = true.
Proof. apply String.eqb_refl. Qed.

Create Rewrite HintDb touches.

#[global] Hint Rewrite touches_instagram_create touches_instagram_check
  touches_instagram_aggregate touches_instagram_publish touches_instagram_persist
  touches_instagram_set touches_youtube_fetch touches_youtube_post
  touches_youtube_set : touches.

Lemma filter_all {A : Type} (f : A -> bool) l :
  Forall (fun x => f x = true) l -> List.filter f l = l.
Proof. induction 1 as [|x l Hx _ IH]; simpl; [done|]. by rewrite Hx, IH. Qed.


Section CarouselScript.
Context (env : Env) (C : Component) (p : string) (fps : list Uploaded).
Context (acc : InstagramAccounts.Row).

Local Abbreviation a := (InstagramAccounts.instagram_business_account_id acc).
Local Abbreviation u := (userId C).
Local Abbreviation creates := (map (fun fp =>
         CreateInstagramContainer a (filePath fp) None u
           (video_or_image (postType fp)) true) fps).
Local Abbreviation created := (sequence
    (map (fun fp =>
            createInstagramContainer env a (filePath fp) None u
              (video_or_image (postType fp)) true) fps)).
Local Abbreviation setP := (SetInstagramAccountIdToProcessingState {[ a := processing ]}).
Local Abbreviation setE := (SetInstagramAccountIdToProcessingState {[ a := error ]}).
Local Abbreviation setD := (SetInstagramAccountIdToProcessingState {[ a := posted ]}).

Lemma filter_creates : List.filter (touches_instagram a) creates = creates.
Proof.
  apply filter_all, Forall_forall. intros e (fp & -> & _)%list_elem_of_fmap.
  apply touches_instagram_create.
Qed.

Lemma carousel_script_prefix rest :
  proj (touches_instagram a)
    (Emit setP (Spawn (emitAll creates (Await rest)) (Ret tt))) =
  setP :: creates ++ proj (touches_instagram a) rest.
Proof.
  unfold proj. cbn [events]. rewrite events_emitAll, app_nil_r.
  cbn [List.filter events]. rewrite touches_instagram_set.
  by rewrite List.filter_app, filter_creates.
Qed.

Lemma carousel_script_creates_fail :
  created = None ->
  proj (touches_instagram a) (carouselInstagram env C p fps acc) =
  setP :: creates ++ [setE].
Proof.
  intros H. rewrite carouselInstagram_unfold. cbv zeta.
  rewrite H.
  rewrite carousel_script_prefix. do 2 f_equal.  by script.
Qed.

Lemma carousel_script_poll_fails ids :
  created = Some ids ->
  checkInstagramContainerStatus env ids a u = None ->
  proj (touches_instagram a) (carouselInstagram env C p fps acc) =
  setP :: creates ++ [CheckInstagramContainerStatus ids a u; setE].
Proof.
  intros H1 H2. rewrite carouselInstagram_unfold. cbv zeta.
  rewrite H1.
  rewrite carousel_script_prefix. do 2 f_equal. unfold call. rewrite H2.
   by script.
Qed.

Lemma carousel_script_aggregate_fails ids :
  created = Some ids ->
  checkInstagramContainerStatus env ids a u = Some tt ->
  createInstagramCarouselContainer env ids a u (caption C) = None ->
  proj (touches_instagram a) (carouselInstagram env C p fps acc) =
  setP :: creates ++
    [CheckInstagramContainerStatus ids a u;
     CreateInstagramCarouselContainer ids a u (caption C); setE].
Proof.
  intros H1 H2 H3. rewrite carouselInstagram_unfold. cbv zeta.
  rewrite H1.
  rewrite carousel_script_prefix. do 2 f_equal. unfold call. rewrite H2.
  cbn [bind catch_]. rewrite H3.  by script.
Qed.

Lemma carousel_script_aggregate_poll_fails ids agg :
  created = Some ids ->
  checkInstagramContainerStatus env ids a u = Some tt ->
  createInstagramCarouselContainer env ids a u (caption C) = Some agg ->
  checkInstagramContainerStatus env [agg] a u = None ->
  proj (touches_instagram a) (carouselInstagram env C p fps acc) =
  setP :: creates ++
    [CheckInstagramContainerStatus ids a u;
     CreateInstagramCarouselContainer ids a u (caption C);
     CheckInstagramContainerStatus [agg] a u; setE].
Proof.
  intros H1 H2 H3 H4. rewrite carouselInstagram_unfold. cbv zeta.
  rewrite H1.
  rewrite carousel_script_prefix. do 2 f_equal. unfold call. rewrite H2.
  cbn [bind catch_]. rewrite H3. cbn [bind catch_]. rewrite H4.
   by script.
Qed.

Lemma carousel_script_publish_fails ids agg :
  created = Some ids ->
  checkInstagramContainerStatus env ids a u = Some tt ->
  createInstagramCarouselContainer env ids a u (caption C) = Some agg ->
  checkInstagramContainerStatus env [agg] a u = Some tt ->
  publishInstagramMediaContainer env a agg u = None ->
  proj (touches_instagram a) (carouselInstagram env C p fps acc) =
  setP :: creates ++
    [CheckInstagramContainerStatus ids a u;
     CreateInstagramCarouselContainer ids a u (caption C);
     CheckInstagramContainerStatus [agg] a u;
     PublishInstagramMediaContainer a agg u; setE].
Proof.
  intros H1 H2 H3 H4 H5. rewrite carouselInstagram_unfold. cbv zeta.
  rewrite H1.
  rewrite carousel_script_prefix. do 2 f_equal. unfold call. rewrite H2.
  cbn [bind catch_]. rewrite H3. cbn [bind catch_]. rewrite H4.
  cbn [bind catch_]. rewrite H5.  by script.
Qed.

Lemma carousel_script_posted ids agg mediaId :
  created = Some ids ->
  checkInstagramContainerStatus env ids a u = Some tt ->
  createInstagramCarouselContainer env ids a u (caption C) = Some agg ->
  checkInstagramContainerStatus env [agg] a u = Some tt ->
  publishInstagramMediaContainer env a agg u = Some mediaId ->
  proj (touches_instagram a) (carouselInstagram env C p fps acc) =
  setP :: creates ++
    [CheckInstagramContainerStatus ids a u;
     CreateInstagramCarouselContainer ids a u (caption C);
     CheckInstagramContainerStatus [agg] a u;
     PublishInstagramMediaContainer a agg u; setD].
Proof.
  intros H1 H2 H3 H4 H5. rewrite carouselInstagram_unfold. cbv zeta.
  rewrite H1.
  rewrite carousel_script_prefix. do 2 f_equal. unfold call. rewrite H2.
  cbn [bind catch_]. rewrite H3. cbn [bind catch_]. rewrite H4.
  cbn [bind catch_]. rewrite H5. cbn [bind catch_].
  script. by destruct (saveInstagramId _ _ _ _ _); script.
Qed.
End CarouselScript.

Section SingleScript.
Context (env : Env) (C : Component) (p : string) (f : File) (fp : string).
Context (acc : InstagramAccounts.Row).

Local Abbreviation a := (InstagramAccounts.instagram_business_account_id acc).
Local Abbreviation u := (userId C).
Local Abbreviation create := (CreateInstagramContainer a fp (Some (caption C)) u (video_or_image (type f)) false).
Local Abbreviation created := (createInstagramContainer env a fp (Some (caption C)) u (video_or_image (type f))
    false).
Local Abbreviation setP := (SetInstagramAccountIdToProcessingState {[ a := processing ]}).
Local Abbreviation setE := (SetInstagramAccountIdToProcessingState {[ a := error ]}).
Local Abbreviation setD := (SetInstagramAccountIdToProcessingState {[ a := posted ]}).

Lemma single_script_create_fails :
  created = None ->
  proj (touches_instagram a) (singleInstagram env C p f fp acc) =
  [setP; create; setE].
Proof.
  intros H. unfold singleInstagram, call.
  cbv zeta. rewrite H. by script.
Qed.

Lemma single_script_poll_fails cid :
  created = Some cid ->
  checkInstagramContainerStatus env [cid] a u = None ->
  proj (touches_instagram a) (singleInstagram env C p f fp acc) =
  [setP; create; CheckInstagramContainerStatus [cid] a u; setE].
Proof.
  intros H1 H2. unfold singleInstagram, call.
  cbv zeta. rewrite H1. cbn [bind catch_]. rewrite H2. by script.
Qed.

(** The publish call fails: nothing is written after [processing]. *)
Lemma single_script_publish_fails cid :
  created = Some cid ->
  checkInstagramContainerStatus env [cid] a u = Some tt ->
  publishInstagramMediaContainer env a cid u = None ->
  proj (touches_instagram a) (singleInstagram env C p f fp acc) =
  [setP; create; CheckInstagramContainerStatus [cid] a u;
   PublishInstagramMediaContainer a cid u].
Proof.
  intros H1 H2 H3. unfold singleInstagram, call.
  cbv zeta. rewrite H1. cbn [bind catch_]. rewrite H2.
  cbn [bind catch_]. rewrite H3. by script.
Qed.

Lemma single_script_posted cid mediaId :
  created = Some cid ->
  checkInstagramContainerStatus env [cid] a u = Some tt ->
  publishInstagramMediaContainer env a cid u = Some mediaId ->
  proj (touches_instagram a) (singleInstagram env C p f fp acc) =
  [setP; create; CheckInstagramContainerStatus [cid] a u;
   PublishInstagramMediaContainer a cid u; setD].
Proof.
  intros H1 H2 H3. unfold singleInstagram, call.
  cbv zeta. rewrite H1. cbn [bind catch_]. rewrite H2.
  cbn [bind catch_]. rewrite H3. script.
  by destruct (saveInstagramId _ _ _ _ _); script.
Qed.
End SingleScript.

Section YoutubeScript.
Context (env : Env) (C : Component) (p : string) (f : File).
Context (ch : YoutubeChannels.Row).

Local Abbreviation c := (YoutubeChannels.id ch).
Local Abbreviation fetch := (FetchYoutubePost c f (youtubeTitle C) (userId C) p).
Local Abbreviation fetched := (fetch_youtube_post env c f (youtubeTitle C) (userId C) p).
Local Abbreviation setP := (SetYoutubeChannelIdToProcessingState {[ c := processing ]}).
Local Abbreviation setE := (SetYoutubeChannelIdToProcessingState {[ c := error ]}).
Local Abbreviation setD := (SetYoutubeChannelIdToProcessingState {[ c := posted ]}).

Lemma youtube_script_ok :
  fetched = FetchResponse true ->
  proj (touches_youtube c) (singleYoutube env C p f ch) = [setP; fetch; setD].
Proof.
  intros H. unfold singleYoutube, call. cbv zeta. rewrite H. by script.
Qed.

Lemma youtube_script_not_ok :
  fetched = FetchResponse false ->
  proj (touches_youtube c) (singleYoutube env C p f ch) = [setP; fetch; setE].
Proof.
  intros H. unfold singleYoutube, call. cbv zeta. rewrite H. by script.
Qed.

(** The request rejects: nothing is written after [processing]. *)
Lemma youtube_script_rejected :
  fetched = FetchRejected ->
  proj (touches_youtube c) (singleYoutube env C p f ch) = [setP; fetch].
Proof.
  intros H. unfold singleYoutube, call. cbv zeta. rewrite H. by script.
Qed.
End YoutubeScript.

(** * Claims *)

(** C4.  A selection of N > 1 items, published to a selected Instagram
    account whose calls all succeed: once everything has settled, what was
    done for that account is, in this order, the write of [processing], N
    item containers (one per uploaded item, each with [isCarouselItem] set
    and no caption), one poll of all N container ids, one aggregate container
    over the N ids with the caption, one poll of the aggregate, its publish,
    and the write of [posted]. *)
Theorem carousel_order env C st p fps ids agg mediaId acc schedule :
  let a := InstagramAccounts.instagram_business_account_id acc in
  let u := userId C in
  1 < length (files C) ->
  createSocialMediaPost env u = Some p ->
  mapM outcome (carouselUploads env C p) = Some fps ->
  NoDup (map InstagramAccounts.instagram_business_account_id
           (selectedInstagramAccounts C)) ->
  acc ∈ selectedInstagramAccounts C ->
  sequence
    (map (fun fp =>
            createInstagramContainer env a (filePath fp) None u
              (video_or_image (postType fp)) true) fps) = Some ids ->
  checkInstagramContainerStatus env ids a u = Some tt ->
  createInstagramCarouselContainer env ids a u (caption C) = Some agg ->
  checkInstagramContainerStatus env [agg] a u = Some tt ->
  publishInstagramMediaContainer env a agg u = Some mediaId ->
  quiescent (run schedule (processSocialMediaPost env C st)) = true ->
  length fps = length (files C) /\
  length ids = length (files C) /\
  List.filter (touches_instagram a)
    (trace (run schedule (processSocialMediaPost env C st))) =
  SetInstagramAccountIdToProcessingState {[ a := processing ]}
    :: map (fun fp =>
              CreateInstagramContainer a (filePath fp) None u
                (video_or_image (postType fp)) true) fps
    ++ [CheckInstagramContainerStatus ids a u;
        CreateInstagramCarouselContainer ids a u (caption C);
        CheckInstagramContainerStatus [agg] a u;
        PublishInstagramMediaContainer a agg u;
        SetInstagramAccountIdToProcessingState {[ a := posted ]}].
Proof.
  intros a u Hlen Hp Hup Hnd Hacc Hids Hpoll Hagg Hpoll' Hpub Hq. subst a u.
  assert (Hfps : length fps = length (files C)).
  { apply length_mapM in Hup. rewrite <- Hup. unfold carouselUploads.
    by rewrite length_imap. }
  split; [done|]. split.
  - apply length_mapM in Hids. rewrite length_map in Hids. congruence.
  - pose proof (carousel_projection_instagram env C st p fps acc schedule
                  Hp Hlen Hup Hnd Hacc) as Hseq.
    rewrite (sequenced_quiescent _ _ _ Hseq Hq).
    by apply (carousel_script_posted env C p fps acc ids agg mediaId).
Qed.

Lemma carousel_order_witness :
  List.filter (touches_instagram "ig1")
    (trace (run (Examples.round_robin 8)
              (processSocialMediaPost Examples.env_ok
                 Examples.three_images_one_account Examples.st0))) =
  [SetInstagramAccountIdToProcessingState {[ "ig1" := processing ]};
   CreateInstagramContainer "ig1" "u1/post1/0.jpg" None "u1" "image" true;
   CreateInstagramContainer "ig1" "u1/post1/1.jpg" None "u1" "image" true;
   CreateInstagramContainer "ig1" "u1/post1/2.jpg" None "u1" "image" true;
   CheckInstagramContainerStatus
     ["c:ig1:u1/post1/0.jpg"; "c:ig1:u1/post1/1.jpg"; "c:ig1:u1/post1/2.jpg"]
     "ig1" "u1";
   CreateInstagramCarouselContainer
     ["c:ig1:u1/post1/0.jpg"; "c:ig1:u1/post1/1.jpg"; "c:ig1:u1/post1/2.jpg"]
     "ig1" "u1" "hello";
   CheckInstagramContainerStatus ["agg:ig1"] "ig1" "u1";
   PublishInstagramMediaContainer "ig1" "agg:ig1" "u1";
   SetInstagramAccountIdToProcessingState {[ "ig1" := posted ]}].
Proof.
  refine (proj2 (proj2
    (carousel_order Examples.env_ok Examples.three_images_one_account Examples.st0
       "post1"
       [mkUploaded "u1/post1/0.jpg" "image"; mkUploaded "u1/post1/1.jpg" "image";
        mkUploaded "u1/post1/2.jpg" "image"]
       ["c:ig1:u1/post1/0.jpg"; "c:ig1:u1/post1/1.jpg"; "c:ig1:u1/post1/2.jpg"]
       "agg:ig1" "m:agg:ig1" Examples.ig1 (Examples.round_robin 8)
       _ _ _ _ _ _ _ _ _ _ _))).
  - simpl. lia.
  - reflexivity.
  - reflexivity.
  - simpl. apply NoDup_singleton.
  - simpl. apply list_elem_of_here.
  - reflexivity.
  - reflexivity.
  - reflexivity.
  - reflexivity.
  - reflexivity.
  - vm_compute. reflexivity.
Defined.

Lemma start_perm st tr (t : Task unit) :
  trace (start st tr t) ++ future (start st tr t) ≡ₚ tr ++ events t.
Proof.
  unfold start. destruct (run_sync t) as [[es cs] r] eqn:Hrun. unfold absorb.
  unfold future, joined. simpl. rewrite (run_sync_events _ _ _ _ Hrun), flat_map_app.
  simpl. solve_Permutation.
Qed.

Lemma started_perm {R : Type} (ts : list (Task R)) :
  flat_map events ts ≡ₚ
  concat ((map run_sync ts).*1.*1)
    ++ flat_map events (concat ((map run_sync ts).*1.*2))
    ++ flat_map events ((map run_sync ts).*2).
Proof.
  induction ts as [|t ts IH]; [done|].
  change (map run_sync (t :: ts)) with (run_sync t :: map run_sync ts).
  rewrite !fmap_cons. destruct (run_sync t) as [[es cs] r] eqn:Hrun.
  cbn [fst snd concat flat_map]. rewrite flat_map_app.
  rewrite (run_sync_events _ _ _ _ Hrun), IH. solve_Permutation.
Qed.

Lemma started_outcome {R : Type} (ts : list (Task R)) :
  mapM outcome ((map run_sync ts).*2) = mapM outcome ts.
Proof.
  induction ts as [|t ts IH]; [done|].
  change (map run_sync (t :: ts)) with (run_sync t :: map run_sync ts).
  rewrite !fmap_cons. destruct (run_sync t) as [[es cs] r] eqn:Hrun.
  cbn [snd mapM]. by rewrite (run_sync_outcome _ _ _ _ Hrun), IH.
Qed.

Lemma processCarousel_perm env C st tr p :
  trace (processCarouselSocialMediaPost env C st tr p)
    ++ future (processCarouselSocialMediaPost env C st tr p) ≡ₚ
  tr ++ flat_map events (carouselUploads env C p)
     ++ match mapM outcome (carouselUploads env C p) with
        | Some fps => events (carouselAfterUploads env C p fps)
        | None => []
        end.
Proof.
  unfold processCarouselSocialMediaPost, absorb. rewrite promise_all_perm.
  unfold future, joined. simpl. rewrite started_outcome.
  rewrite (started_perm (carouselUploads env C p)), flat_map_app.
  destruct (mapM outcome (carouselUploads env C p)); simpl; solve_Permutation.
Qed.

Lemma trace_quiescent_perm schedule c :
  quiescent (run schedule c) = true -> trace (run schedule c) ≡ₚ trace c ++ future c.
Proof.
  intros Hq. rewrite <- (run_perm schedule c), (quiescent_future _ Hq).
  by rewrite app_nil_r.
Qed.

Lemma processSingle_events env C p entry rest :
  files C = entry :: rest ->
  events (processSingleSocialMediaPost env C p) =
  events (uploadSocialMediaPostFile env (userId C) (file entry) 0 p)
  ++ match outcome (uploadSocialMediaPostFile env (userId C) (file entry) 0 p) with
     | Some fp =>
         flat_map (fun x => events (singleInstagram env C p (file entry) fp x))
           (selectedInstagramAccounts C)
         ++ flat_map (fun x => events (singleYoutube env C p (file entry) x))
              (selectedYoutubeChannels C)
     | None => []
     end.
Proof.
  intros Hfiles. rewrite (processSingle_eq _ _ _ _ _ Hfiles), events_bind. f_equal.
  destruct (outcome _) as [fp|]; [|done].
  destruct (ig_shape env C p entry fp) as (first & chain & Hig).
  destruct (yt_shape env C p entry) as (first' & chain' & Hyt).
  by rewrite (events_forEach_bind _ _ _ Hig), (events_forEach _ _ _ Hyt).
Qed.

Lemma carouselAfterUploads_events env C p fps :
  events (carouselAfterUploads env C p fps) =
  flat_map (fun x => events (carouselInstagram env C p fps x))
    (selectedInstagramAccounts C).
Proof.
  unfold carouselAfterUploads.
  destruct (carousel_shape env C p fps) as (first & chain & Hig).
  by rewrite (events_forEach _ _ _ Hig).
Qed.

Lemma Forall_flat_map {A B : Type} (P : B -> Prop) (f : A -> list B) l :
  (forall x, Forall P (f x)) -> Forall P (flat_map f l).
Proof.
  intros Hf. induction l as [|x l IH]; simpl; [constructor|].
  apply Forall_app. auto.
Qed.

Lemma Forall_flat_map_list {A B : Type} (P : B -> Prop) (f : A -> list B) l :
  Forall (fun x => Forall P (f x)) l -> Forall P (flat_map f l).
Proof.
  induction 1 as [|x l Hx _ IH]; simpl; [constructor|]. by apply Forall_app.
Qed.

Lemma singleInstagram_single_item env C p f fp acc :
  Forall (single_item_event (caption C)) (events (singleInstagram env C p f fp acc)).
Proof. unfold singleInstagram, call. break_env; repeat constructor. Qed.

Lemma singleYoutube_single_item env C p f ch :
  Forall (single_item_event (caption C)) (events (singleYoutube env C p f ch)).
Proof. unfold singleYoutube, call. break_env; repeat constructor. Qed.

Lemma upload_single_item env cap u f i p :
  Forall (single_item_event cap) (events (uploadSocialMediaPostFile env u f i p)).
Proof. unfold uploadSocialMediaPostFile. break_env; repeat constructor. Qed.

Lemma singleInstagram_creates env C p f fp acc :
  List.filter is_create_container (events (singleInstagram env C p f fp acc)) =
  [CreateInstagramContainer (InstagramAccounts.instagram_business_account_id acc) fp
     (Some (caption C)) (userId C) (video_or_image (type f)) false].
Proof. unfold singleInstagram, call. by break_env. Qed.

Lemma singleYoutube_creates env C p f ch :
  List.filter is_create_container (events (singleYoutube env C p f ch)) = [].
Proof. unfold singleYoutube, call. by break_env. Qed.

Lemma upload_creates env u f i p :
  List.filter is_create_container (events (uploadSocialMediaPostFile env u f i p)) = [].
Proof. unfold uploadSocialMediaPostFile. by break_env. Qed.

Lemma filter_flat_map {A B : Type} (sel : B -> bool) (f : A -> list B) l :
  List.filter sel (flat_map f l) = flat_map (fun x => List.filter sel (f x)) l.
Proof. induction l as [|x l IH]; simpl; [done|]. by rewrite List.filter_app, IH. Qed.

Lemma flat_map_singleton {A B : Type} (f : A -> B) l :
  flat_map (fun x => [f x]) l = map f l.
Proof. induction l as [|x l IH]; simpl; [done|]. by rewrite IH. Qed.

(** C5.  A selection of exactly one item takes the single-item path, whatever
    the other inputs are: the entry point starts [processSingleSocialMediaPost]
    (and it starts the carousel path exactly for the selections of more than
    one item, so the choice rests on the item count alone).  On this path no
    run ever creates an aggregate container, every container it creates has
    [isCarouselItem] false and carries the caption, and once the upload has
    succeeded and everything has settled exactly one such container has been
    created per selected Instagram account. *)
Theorem single_item_path env C st schedule :
  length (files C) = 1 ->
  let c := run schedule (processSocialMediaPost env C st) in
  (forall p, createSocialMediaPost env (userId C) = Some p ->
     processSocialMediaPost env C st =
     start st [CreateSocialMediaPost (userId C)] (processSingleSocialMediaPost env C p))
  /\ (forall C' p, createSocialMediaPost env (userId C') = Some p ->
        1 < length (files C') ->
        processSocialMediaPost env C' st =
        processCarouselSocialMediaPost env C' st [CreateSocialMediaPost (userId C')] p)
  /\ Forall (single_item_event (caption C)) (trace c)
  /\ (forall p entry fp,
        createSocialMediaPost env (userId C) = Some p ->
        files C !! 0 = Some entry ->
        outcome (uploadSocialMediaPostFile env (userId C) (file entry) 0 p) = Some fp ->
        quiescent c = true ->
        List.filter is_create_container (trace c) ≡ₚ
        map (fun acc =>
               CreateInstagramContainer
                 (InstagramAccounts.instagram_business_account_id acc) fp
                 (Some (caption C)) (userId C) (video_or_image (type (file entry)))
                 false)
          (selectedInstagramAccounts C)).
Proof.
  intros Hlen c.
  destruct (files C) as [|entry [|? ?]] eqn:Hfiles; try done. clear Hlen.
  assert (Hlen : length (files C) = 1) by by rewrite Hfiles.
  split; [|split; [|split]].
  - intros p Hp. by apply processSocialMediaPost_single.
  - intros C' p Hp Hlen'. by apply processSocialMediaPost_carousel.
  - subst c. apply run_Forall.
    destruct (createSocialMediaPost env (userId C)) as [p|] eqn:Hp.
    + rewrite (processSocialMediaPost_single _ _ _ _ Hp Hlen), start_perm.
      rewrite (processSingle_events _ _ _ _ _ Hfiles).
      constructor; [done|]. apply Forall_app. split; [apply upload_single_item|].
      destruct (outcome _) as [fp|]; [|constructor].
      apply Forall_app. split; apply Forall_flat_map; intros x.
      * apply singleInstagram_single_item.
      * apply singleYoutube_single_item.
    + unfold processSocialMediaPost. rewrite Hp. by repeat constructor.
  - intros p entry' fp Hp [= <-] Hup Hq. subst c.
    rewrite (filter_perm _ _ _ (trace_quiescent_perm _ _ Hq)).
    rewrite (processSocialMediaPost_single _ _ _ _ Hp Hlen).
    rewrite (filter_perm _ _ _ (start_perm _ _ _)).
    rewrite (processSingle_events _ _ _ _ _ Hfiles), Hup.
    cbn [app List.filter is_create_container].
    rewrite !List.filter_app, upload_creates, !filter_flat_map. cbn [app].
    rewrite (flat_map_nil _ _ (singleYoutube_creates env C p (file entry))), app_nil_r.
    erewrite flat_map_ext; [|intros x; apply singleInstagram_creates].
    by rewrite flat_map_singleton.
Qed.

(** * The upload barrier *)

Lemma nonupload_guarded {R : Type} (t : Task R) :
  Forall (fun e => is_upload e = false) (events t) -> guarded t.
Proof.
  induction t as [R r0| R | R e k IH | R k IH | R c _ k _]; simpl; auto.
Qed.

Lemma guarded_bind {A B : Type} (t : Task A) (f : A -> Task B) :
  nospawn t -> Forall (fun e => is_workflow e = false) (events t) ->
  (forall r, Forall (fun e => is_upload e = false) (events (f r))) ->
  guarded (bind t f).
Proof.
  intros Hns Hev Hf.
  induction t as [R r0| R | R e k IH | R k IH | R c _ k _]; simpl in *; try done.
  - by apply nonupload_guarded.
  - apply Forall_cons in Hev as [He Hk]. left. auto.
  - auto.
Qed.

Lemma nospawn_run_sync {R : Type} (t : Task R) es cs r :
  nospawn t -> run_sync t = (es, cs, r) ->
  cs = [] /\ nospawn r /\ events t = es ++ events r.
Proof.
  revert es cs r. induction t as [R r0| R | R e k IH | R k IH | R c _ k _];
    intros es cs r Hns Hrun; simpl in *; try done.
  - by inversion Hrun.
  - by inversion Hrun.
  - destruct (run_sync k) as [[es' cs'] r'] eqn:Hk. inversion Hrun; subst.
    destruct (IH _ _ _ Hns eq_refl) as (-> & Hr & ->). done.
  - by inversion Hrun.
Qed.

Lemma nospawn_resume {R : Type} (t : Task R) es cs r :
  nospawn t -> resume t = (es, cs, r) ->
  cs = [] /\ nospawn r /\ events t = es ++ events r.
Proof.
  intros Hns Hres. destruct t; simpl in Hres; try (by inversion Hres; subst).
  by apply (nospawn_run_sync t).
Qed.

Lemma guarded_run_sync {R : Type} (t : Task R) es cs r :
  guarded t -> run_sync t = (es, cs, r) ->
  (Forall (fun e => is_workflow e = false) es /\ cs = [] /\ guarded r)
  \/ Forall (fun e => is_upload e = false) (flat_map events cs ++ events r).
Proof.
  intros Hg Hrun.
  assert (Hrest : Forall (fun e => is_upload e = false) (events t) ->
                  Forall (fun e => is_upload e = false) (flat_map events cs ++ events r)).
  { rewrite (run_sync_events _ _ _ _ Hrun). by intros [_ ?]%Forall_app. }
  revert es cs r Hg Hrun Hrest.
  induction t as [R r0| R | R e k IH | R k IH | R c _ k _];
    intros es cs r Hg Hrun Hrest; simpl in *.
  - inversion Hrun; subst. by left.
  - inversion Hrun; subst. by left.
  - destruct (run_sync k) as [[es' cs'] r'] eqn:Hk. inversion Hrun; subst.
    destruct Hg as [[He Hg]|Hall]; [|by right; apply Hrest].
    destruct (IH _ _ _ Hg eq_refl) as [(Hes & -> & Hr)|Hr].
    + rewrite (run_sync_events _ _ _ _ Hk). by intros [_ ?]%Forall_app.
    + left. by repeat split; [constructor|..].
    + by right.
  - inversion Hrun; subst. by left.
  - right. by apply Hrest.
Qed.

(** One step takes its events out of what was left to do. *)
Lemma step_future ch c :
  exists es, trace (step ch c) = trace c ++ es /\ future c ≡ₚ es ++ future (step ch c).
Proof.
  destruct (step_trace_prefix ch c) as [es Hes]. exists es. split; [done|].
  pose proof (step_perm ch c) as Hperm. rewrite Hes, <- app_assoc in Hperm.
  by apply Permutation_app_inv_l in Hperm.
Qed.

Lemma promise_all_barrier c :
  pool c = [] ->
  Forall (fun e => is_workflow e = false) (trace c) ->
  Forall (fun t => Forall (fun e => is_workflow e = false) (events t) /\ nospawn t)
    (uploads c) ->
  (forall k fps, awaiting c = Some k ->
     Forall (fun e => is_upload e = false) (events (k fps))) ->
  barrier (promise_all c).
Proof.
  intros Hpool Htr Hup Hk.
  destruct (promise_all_cases c) as
    [-> | [(k & Hk' & Hnone & ->) | (k & fps & es & cs & r & Hk' & Hres & Hrun & ->)]].
  - left. repeat split; auto.
  - left. simpl. repeat split; auto. by intros.
  - right. simpl. split; [done|]. split.
    + apply mapM_Some in Hres. clear -Hres.
      induction Hres as [|t v l vs Ht _ IH]; constructor; [by exists v|done].
    + unfold future, joined. simpl.
      rewrite (mapM_result_events _ _ Hres), Hpool. simpl.
      pose proof (Hk k fps Hk') as Hev.
      rewrite (run_sync_events _ _ _ _ Hrun) in Hev.
      apply Forall_app in Hev as [_ Hev].
      by rewrite flat_map_app; simpl; rewrite app_nil_r.
Qed.

Lemma step_barrier ch c : barrier c -> barrier (step ch c).
Proof.
  intros [(Htr & Hup & Hk & Hpool)|(Hnone & Hful & Hfut)].
  - destruct ch as [i|i]; simpl.
    + destruct (uploads c !! i) as [t|] eqn:Hi; [|by left].
      destruct Hpool as [Hpool|(Hnil & _)]; [|by rewrite Hnil in Hi].
      destruct (resume t) as [[es cs] r] eqn:Hres. unfold absorb.
      pose proof (Forall_lookup_1 _ _ _ _ Hup Hi) as [Hev Hns].
      destruct (nospawn_resume _ _ _ _ Hns Hres) as (-> & Hr & Heq).
      rewrite Heq in Hev. apply Forall_app in Hev as [Hes Hevr].
      apply promise_all_barrier; simpl; auto.
      * by rewrite Hpool.
      * by apply Forall_app.
      * by apply Forall_insert.
    + destruct (pool c !! i) as [t|] eqn:Hi; [|by left].
      destruct Hpool as [Hpool|(Hnil & Hnone & t' & Hpool & Hg)];
        [by rewrite Hpool in Hi|].
      rewrite Hpool in Hi. destruct i as [|i]; [|done]. injection Hi as ->.
      destruct (resume t) as [[es cs] r] eqn:Hres. unfold absorb.
      assert (Hcase : (Forall (fun e => is_workflow e = false) es /\ cs = [] /\ guarded r)
                      \/ Forall (fun e => is_upload e = false)
                           (flat_map events cs ++ events r)).
      { destruct t; simpl in Hres;
          try (by inversion Hres; subst; left).
        simpl in Hg. by apply (guarded_run_sync t). }
      destruct Hcase as [(Hes & -> & Hr)|Hrest].
      * left. simpl. rewrite Hpool. simpl. repeat split; auto.
        -- by apply Forall_app.
        -- right. repeat split; auto. by exists r.
      * right. simpl. split; [done|]. rewrite Hnil. split; [constructor|].
        unfold future, joined. simpl. rewrite Hnone, Hpool. simpl.
        apply Forall_app in Hrest as [Hcs Hr]. by apply Forall_app.
  - right. destruct (step_future ch c) as (es & _ & Hperm).
    rewrite Hperm in Hfut. apply Forall_app in Hfut as [_ Hfut].
    split; [|split; [|done]].
    + destruct ch as [i|i]; simpl.
      * destruct (uploads c !! i) as [t|]; [|done].
        destruct (resume t) as [[es' cs] r]. unfold absorb.
        unfold promise_all. simpl. by rewrite Hnone.
      * destruct (pool c !! i) as [t|]; [|done].
        by destruct (resume t) as [[es' cs] r].
    + destruct ch as [i|i]; simpl.
      * destruct (uploads c !! i) as [t|] eqn:Hi; [|done].
        pose proof (Forall_lookup_1 _ _ _ _ Hful Hi) as [v Hv].
        destruct t; try done. simpl. unfold promise_all. simpl. rewrite Hnone.
        simpl. by rewrite list_insert_id.
      * destruct (pool c !! i) as [t|]; [|done].
        by destruct (resume t) as [[es' cs] r].
Qed.

Lemma run_barrier schedule c : barrier c -> barrier (run schedule c).
Proof.
  revert c. induction schedule as [|ch s IH]; intros c Hc; [done|].
  unfold run in *; simpl. by apply IH, step_barrier.
Qed.

Lemma is_upload_not_workflow e : is_upload e = true -> is_workflow e = false.
Proof. by destruct e. Qed.

Lemma nospawn_bind {A B : Type} (t : Task A) (f : A -> Task B) :
  nospawn t -> (forall r, nospawn (f r)) -> nospawn (bind t f).
Proof.
  induction t as [R r0| R | R e k IH | R k IH | R c _ k _]; simpl; auto.
Qed.

Lemma start_barrier st tr (t : Task unit) :
  Forall (fun e => is_workflow e = false) tr -> guarded t -> barrier (start st tr t).
Proof.
  intros Htr Hg. unfold start. destruct (run_sync t) as [[es cs] r] eqn:Hrun.
  unfold absorb. destruct (guarded_run_sync _ _ _ _ Hg Hrun) as [(Hes & -> & Hr)|Hrest].
  - left. simpl. repeat split; auto.
    + by apply Forall_app.
    + by intros.
    + right. repeat split; auto. by exists r.
  - right. simpl. split; [done|]. split; [constructor|].
    unfold future, joined. simpl. by rewrite flat_map_app; simpl; rewrite app_nil_r.
Qed.

Lemma processSingle_guarded env C p : guarded (processSingleSocialMediaPost env C p).
Proof.
  destruct (files C) as [|entry rest] eqn:Hfiles.
  - unfold processSingleSocialMediaPost. by rewrite Hfiles.
  - rewrite (processSingle_eq _ _ _ _ _ Hfiles). apply guarded_bind.
    + apply uploadSocialMediaPostFile_nospawn.
    + eapply Forall_impl; [apply uploadSocialMediaPostFile_events|].
      apply is_upload_not_workflow.
    + intros fp.
      destruct (ig_shape env C p entry fp) as (first & chain & Hig).
      destruct (yt_shape env C p entry) as (first' & chain' & Hyt).
      rewrite (events_forEach_bind _ _ _ Hig), (events_forEach _ _ _ Hyt).
      apply Forall_app. split; apply Forall_flat_map; intros x.
      * eapply Forall_impl; [apply singleInstagram_events|]. apply of_instagram_upload.
      * eapply Forall_impl; [apply singleYoutube_events|]. apply of_youtube_upload.
Qed.

Lemma started_nospawn {R : Type} (ts : list (Task R)) :
  Forall (fun t => Forall (fun e => is_workflow e = false) (events t) /\ nospawn t) ts ->
  concat ((map run_sync ts).*1.*2) = [] /\
  Forall (fun e => is_workflow e = false) (concat ((map run_sync ts).*1.*1)) /\
  Forall (fun t => Forall (fun e => is_workflow e = false) (events t) /\ nospawn t)
    ((map run_sync ts).*2).
Proof.
  induction 1 as [|t ts [Hev Hns] _ (IH1 & IH2 & IH3)]; [by repeat constructor|].
  change (map run_sync (t :: ts)) with (run_sync t :: map run_sync ts).
  rewrite !fmap_cons. destruct (run_sync t) as [[es cs] r] eqn:Hrun.
  cbn [fst snd concat].
  destruct (nospawn_run_sync _ _ _ _ Hns Hrun) as (-> & Hr & Heq).
  rewrite Heq in Hev. apply Forall_app in Hev as [Hes Hevr].
  rewrite IH1. repeat split; [|by constructor]. by apply Forall_app.
Qed.

Lemma carouselUploads_nospawn env C p :
  Forall (fun t => Forall (fun e => is_workflow e = false) (events t) /\ nospawn t)
    (carouselUploads env C p).
Proof.
  pose proof (carouselUploads_events env C p) as Hev.
  apply Forall_forall. intros t Ht. split.
  - eapply Forall_impl; [by eapply Forall_forall in Hev|]. apply is_upload_not_workflow.
  - unfold carouselUploads in Ht. apply list_elem_of_lookup in Ht as [i Hi].
    rewrite list_lookup_imap in Hi.
    destruct (files C !! i) as [entry|]; [|done]. simpl in Hi. injection Hi as <-.
    apply nospawn_bind; [apply uploadSocialMediaPostFile_nospawn|done].
Qed.

Lemma processCarousel_barrier env C st tr p :
  Forall (fun e => is_workflow e = false) tr ->
  barrier (processCarouselSocialMediaPost env C st tr p).
Proof.
  intros Htr. unfold processCarouselSocialMediaPost, absorb.
  destruct (started_nospawn _ (carouselUploads_nospawn env C p)) as (Hcs & Hes & Hrs).
  apply promise_all_barrier; simpl; auto.
  - by apply Forall_app.
  - intros k fps [= <-]. rewrite carouselAfterUploads_events.
    apply Forall_flat_map. intros x.
    eapply Forall_impl; [apply carouselInstagram_events|]. apply of_instagram_upload.
Qed.

Lemma processSocialMediaPost_barrier env C st : barrier (processSocialMediaPost env C st).
Proof.
  assert (Hidle : barrier (mkConfig st [CreateSocialMediaPost (userId C)] [] None [])).
  { left. simpl. repeat split; auto. by intros. }
  unfold processSocialMediaPost.
  destruct (createSocialMediaPost env (userId C)) as [p|]; [|done].
  destruct (length (files C) =? 1)%nat.
  - apply start_barrier; [by repeat constructor|apply processSingle_guarded].
  - destruct (1 <? length (files C))%nat; [|done].
    apply processCarousel_barrier. by repeat constructor.
Qed.

(** The hooks of every configuration a run reaches hold what the writes of
    its trace left in the hooks the run started from. *)
Lemma promise_all_react st0 c :
  react c = foldl apply_event st0 (trace c) ->
  react (promise_all c) = foldl apply_event st0 (trace (promise_all c)).
Proof.
  intros Hc. destruct (promise_all_cases c) as
    [-> | [(k & _ & _ & ->) | (k & fps & es' & cs' & r' & _ & _ & _ & ->)]];
    simpl; rewrite ?foldl_app, ?Hc; done.
Qed.

Lemma processSocialMediaPost_react env C st schedule :
  react (run schedule (processSocialMediaPost env C st)) =
  foldl apply_event st (trace (run schedule (processSocialMediaPost env C st))).
Proof.
  apply run_react. unfold processSocialMediaPost.
  destruct (createSocialMediaPost env (userId C)) as [p|]; [|done].
  destruct (length (files C) =? 1)%nat.
  - unfold start. by destruct (run_sync _) as [[es cs] r].
  - destruct (1 <? length (files C))%nat; [|done].
    unfold processCarouselSocialMediaPost, absorb.
    by apply promise_all_react.
Qed.

Lemma foldl_no_workflow st tr :
  Forall (fun e => is_workflow e = false) tr -> foldl apply_event st tr = st.
Proof.
  revert st. induction tr as [|e tr IH]; intros st Htr; [done|].
  apply Forall_cons in Htr as [He Htr]. simpl. rewrite IH by done. by destruct e.
Qed.

(** The upload throws when the storage write or the metadata insert fails. *)
Lemma uploadSocialMediaPostFile_fails env u f i p bucket :
  bucketName env = Some bucket ->
  storage_upload env bucket (mediaFilePath u p i f) f = UploadError
  \/ (exists stored,
        storage_upload env bucket (mediaFilePath u p i f) f = UploadPath stored
        /\ media_files_insert env stored p u = false) ->
  outcome (uploadSocialMediaPostFile env u f i p) = None.
Proof.
  intros Hb H. unfold uploadSocialMediaPostFile. rewrite Hb.
  destruct (String.eqb bucket ""); [done|]. simpl.
  destruct H as [->|(stored & -> & Hins)]; [done|].
  destruct (String.eqb stored ""); [done|]. simpl. by rewrite Hins.
Qed.

(** C7.  The upload step and the destination workflows.  (1) The upload of an
    item throws when its storage write or its metadata insert fails.  (2) When
    the upload of any one item throws, no run does anything of any destination
    workflow: no container call, no request, no write of a state hook, and the
    hooks stay as they were.  (3) In every configuration any run reaches,
    either no destination workflow has done anything yet, or every promise
    handed to [Promise.all] has fulfilled and nothing of any upload is left to
    do: no workflow starts before every upload is over. *)
Theorem upload_barrier env C st schedule :
  let c := run schedule (processSocialMediaPost env C st) in
  (forall p i entry bucket,
     bucketName env = Some bucket ->
     storage_upload env bucket (mediaFilePath (userId C) p i (file entry)) (file entry)
       = UploadError
     \/ (exists stored,
           storage_upload env bucket (mediaFilePath (userId C) p i (file entry))
             (file entry) = UploadPath stored
           /\ media_files_insert env stored p (userId C) = false) ->
     outcome (uploadSocialMediaPostFile env (userId C) (file entry) i p) = None)
  /\ (forall p i entry,
        createSocialMediaPost env (userId C) = Some p ->
        files C !! i = Some entry ->
        outcome (uploadSocialMediaPostFile env (userId C) (file entry) i p) = None ->
        Forall (fun e => is_workflow e = false) (trace c) /\ react c = st)
  /\ (Forall (fun e => is_workflow e = false) (trace c)
      \/ (Forall (fun t => is_Some (result t)) (uploads c)
          /\ Forall (fun e => is_upload e = false) (future c))).
Proof.
  intros c. split; [|split].
  - intros p i entry bucket. apply uploadSocialMediaPostFile_fails.
  - intros p i entry Hp Hi Hfail.
    assert (Htr : Forall (fun e => is_workflow e = false) (trace c)).
    { subst c. apply run_Forall.
      destruct (decide (length (files C) = 1)) as [Hlen|Hlen].
      - destruct (files C) as [|entry' [|? ?]] eqn:Hfiles; try done.
        destruct i as [|i]; [|done]. injection Hi as ->.
        assert (Hlen' : length (files C) = 1) by by rewrite Hfiles.
        rewrite (processSocialMediaPost_single _ _ _ _ Hp Hlen'), start_perm.
        rewrite (processSingle_events _ _ _ _ _ Hfiles), Hfail, app_nil_r.
        constructor; [done|].
        eapply Forall_impl; [apply uploadSocialMediaPostFile_events|].
        apply is_upload_not_workflow.
      - assert (Hlen' : 1 < length (files C)).
        { apply lookup_lt_Some in Hi. lia. }
        rewrite (processSocialMediaPost_carousel _ _ _ _ Hp Hlen'), processCarousel_perm.
        assert (Hnone : mapM outcome (carouselUploads env C p) = None).
        { apply mapM_None, Exists_exists.
          exists (bind (uploadSocialMediaPostFile env (userId C) (file entry) i p)
                    (fun filePath =>
                       Ret {| filePath := filePath;
                              postType := video_or_image (type (file entry)) |})).
          split.
          - apply list_elem_of_lookup. exists i. unfold carouselUploads.
            by rewrite list_lookup_imap, Hi.
          - by rewrite outcome_bind, Hfail. }
        rewrite Hnone, app_nil_r. constructor; [done|].
        apply Forall_flat_map_list. eapply Forall_impl; [apply carouselUploads_nospawn|].
        by intros t [? _]. }
    split; [done|]. subst c. rewrite processSocialMediaPost_react.
    by apply foldl_no_workflow.
  - subst c.
    destruct (run_barrier schedule _ (processSocialMediaPost_barrier env C st))
      as [(Htr & _)|(_ & Hful & Hfut)]; auto.
Qed.

(** C10.  With no media selected the entry point, if it is invoked, still
    calls [createSocialMediaPost], and does nothing else: no upload, no
    container, no workflow, no write of a state hook, and nothing is left
    pending, whatever the scheduler does.  The function itself has no guard
    for this case; the [disabled] attribute of the submit button is true for
    an empty selection. *)
Theorem empty_selection env C st schedule :
  files C = [] ->
  let c := run schedule (processSocialMediaPost env C st) in
  trace c = [CreateSocialMediaPost (userId C)]
  /\ react c = st
  /\ uploads c = [] /\ awaiting c = None /\ pool c = []
  /\ future c = []
  /\ (forall st', disabled C st' = true).
Proof.
  intros Hnil c.
  assert (Hc : c = mkConfig st [CreateSocialMediaPost (userId C)] [] None []).
  { subst c. rewrite (processSocialMediaPost_idle _ _ _ Hnil).
    induction schedule as [|[i|i] s IH]; simpl; [done|..]; by rewrite IH. }
  rewrite Hc. simpl. repeat split; try done.
  intros st'. unfold disabled. rewrite Hnil. simpl. by rewrite orb_true_r.
Qed.

Lemma empty_selection_witness :
  trace (run (Examples.round_robin 3)
           (processSocialMediaPost Examples.env_ok Examples.no_media Examples.st0)) =
  [CreateSocialMediaPost "u1"].
Proof.
  exact (proj1 (empty_selection Examples.env_ok Examples.no_media Examples.st0
                  (Examples.round_robin 3) eq_refl)).
Defined.

Lemma single_item_path_witness :
  Forall (single_item_event "hello")
    (trace (run (Examples.round_robin 6)
              (processSocialMediaPost Examples.env_ok Examples.one_video_one_account
                 Examples.st0))).
Proof.
  exact (proj1 (proj2 (proj2
    (single_item_path Examples.env_ok Examples.one_video_one_account Examples.st0
       (Examples.round_robin 6) eq_refl)))).
Defined.

Lemma upload_barrier_witness :
  Forall (fun e => is_workflow e = false)
    (trace (run (Examples.round_robin 8)
              (processSocialMediaPost Examples.env_insert_fails
                 Examples.three_images_one_account Examples.st0)))
  /\ react (run (Examples.round_robin 8)
              (processSocialMediaPost Examples.env_insert_fails
                 Examples.three_images_one_account Examples.st0)) = Examples.st0.
Proof.
  exact (proj1 (proj2
    (upload_barrier Examples.env_insert_fails Examples.three_images_one_account
       Examples.st0 (Examples.round_robin 8)))
    "post1" 1 (mkFileEntry Examples.photo2 "") eq_refl eq_refl eq_refl).
Defined.

(** A write of the Instagram hook leaves no key but its own. *)
Lemma setInstagramAccountIdToProcessingState_other st a b s :
  a <> b ->
  instagramAccountIdToProcessingState
    (setInstagramAccountIdToProcessingState {[ a := s ]} st) !! b = None.
Proof. intros Hne. simpl. by apply lookup_singleton_ne. Qed.

(** C1, at a failing input.  One video, two selected Instagram accounts,
    container creation fails for "ig1".  Right after the launch the mapping
    holds [processing] for "ig2"; the next thing that happens is the write of
    [error] by the workflow of "ig1", and after it the mapping has no entry
    for "ig2" any more: the write replaced the mapping. *)
Theorem state_write_drops_sibling :
  let before :=
    run [Floating 0; Floating 0]
      (processSocialMediaPost Examples.env_ig1_fails Examples.one_video_two_accounts
         Examples.st0) in
  let after := step (Floating 1) before in
  instagramAccountIdToProcessingState (react before) !! "ig2" = Some processing
  /\ trace after =
     trace before ++ [SetInstagramAccountIdToProcessingState {[ "ig1" := error ]}]
  /\ instagramAccountIdToProcessingState (react after) !! "ig2" = None
  /\ instagramAccountIdToProcessingState (react after) = {[ "ig1" := error ]}.
Proof. vm_compute. repeat split; reflexivity. Qed.

(** C3, at a failing input.  Same selection.  The entry of "ig1" reaches
    [error]; "ig2" then goes on to [posted], and once everything has settled
    the entry of "ig1" is gone from the mapping. *)
Theorem terminal_entry_removed :
  let c0 :=
    processSocialMediaPost Examples.env_ig1_fails Examples.one_video_two_accounts
      Examples.st0 in
  let failed := run [Floating 0; Floating 0; Floating 1] c0 in
  let done := run [Floating 2; Floating 2; Floating 3; Floating 4] failed in
  instagramAccountIdToProcessingState (react failed) !! "ig1" = Some error
  /\ quiescent done = true
  /\ instagramAccountIdToProcessingState (react done) !! "ig1" = None
  /\ instagramAccountIdToProcessingState (react done) = {[ "ig2" := posted ]}.
Proof. vm_compute. repeat split; reflexivity. Qed.

(** C8, at a failing input.  One video, one selected YouTube channel, the
    request rejects: everything has settled and the entry of the channel is
    still [processing]. *)
Theorem youtube_rejection_stays_processing :
  let c :=
    run (Examples.round_robin 6)
      (processSocialMediaPost Examples.env_youtube_rejects
         Examples.one_video_one_channel Examples.st0) in
  quiescent c = true
  /\ youtubeChannelIdToProcessingState (react c) = {[ "yt1" := processing ]}
  /\ List.filter (touches_youtube "yt1") (trace c) =
     [SetYoutubeChannelIdToProcessingState {[ "yt1" := processing ]};
      FetchYoutubePost "yt1" Examples.clip "my title" "u1" "post1"].
Proof. vm_compute. repeat split; reflexivity. Qed.


(** With no selected row whose row id is the business account id of the
    clicked account, a click appends the account. *)
Lemma clickInstagramAccount_appends account prev :
  Forall (fun acc =>
            InstagramAccounts.id acc
            <> InstagramAccounts.instagram_business_account_id account) prev ->
  clickInstagramAccount account prev = prev ++ [account].
Proof.
  intros Hprev. unfold clickInstagramAccount.
  destruct (List.find _ prev) as [acc|] eqn:Hfind; [|done].
  apply List.find_some in Hfind as [Hin Heq].
  apply list_elem_of_In in Hin. eapply Forall_forall in Hprev; [|done].
  by apply String.eqb_eq in Heq.
Qed.

(** C9, at a failing input.  Two clicks on the tile of the same account, whose
    row id is not its business account id: the account is in the list twice. *)
Theorem click_twice_duplicates :
  clickInstagramAccount Examples.ig1 (clickInstagramAccount Examples.ig1 []) =
  [Examples.ig1; Examples.ig1]
  /\ ~ NoDup (map InstagramAccounts.instagram_business_account_id
               (clickInstagramAccount Examples.ig1
                  (clickInstagramAccount Examples.ig1 []))).
Proof.
  split; [reflexivity|]. simpl. intros Hnd. apply NoDup_cons in Hnd as [Hnotin _].
  apply Hnotin. constructor.
Qed.

(** X20.  In the earlier revision the handler compared row ids on both
    sides and kept the list free of duplicate rows. *)
Lemma part000_click_NoDup account prev :
  NoDup (map InstagramAccounts.id prev) ->
  NoDup (map InstagramAccounts.id (Part000.clickInstagramAccount account prev)).
Proof.
  intros Hnd. unfold Part000.clickInstagramAccount.
  destruct (List.find _ prev) as [acc|] eqn:Hfind.
  - clear Hfind. induction prev as [|x prev IH]; simpl in *; [constructor|].
    apply NoDup_cons in Hnd as [Hx Hnd].
    destruct (negb _); simpl; [|by apply IH].
    apply NoDup_cons. split; [|by apply IH].
    intros (y & Heq & Hy)%list_elem_of_fmap. apply Hx.
    apply list_elem_of_In, List.filter_In in Hy as [Hy _].
    rewrite Heq. apply list_elem_of_fmap_2. by apply list_elem_of_In.
  - rewrite map_app. simpl. apply NoDup_app. split; [done|]. split; [|apply NoDup_singleton].
    intros x Hx ->%list_elem_of_singleton.
    apply list_elem_of_fmap in Hx as (y & Heq & Hy).
    apply list_elem_of_In in Hy.
    pose proof (List.find_none _ _ Hfind y Hy) as Hne. simpl in Hne.
    apply String.eqb_neq in Hne. congruence.
Qed.

(** * Where the events of a run come from *)

Lemma Forall_flat_map_elem {A B : Type} (P : B -> Prop) (f : A -> list B) l :
  (forall x, x ∈ l -> Forall P (f x)) -> Forall P (flat_map f l).
Proof.
  intros Hf. induction l as [|x l IH]; simpl; [constructor|].
  apply Forall_app. split; [apply Hf; left|]. apply IH. intros y Hy. apply Hf. by right.
Qed.

Lemma processSocialMediaPost_events env C st schedule :
  Forall (of_component C) (trace (run schedule (processSocialMediaPost env C st))).
Proof.
  apply run_Forall. unfold processSocialMediaPost.
  assert (Hpost : of_component C (CreateSocialMediaPost (userId C))) by by left.
  destruct (createSocialMediaPost env (userId C)) as [p|]; [|by repeat constructor].
  destruct (length (files C) =? 1)%nat eqn:Hone.
  - rewrite start_perm. constructor; [done|].
    destruct (files C) as [|entry rest] eqn:Hfiles; [done|].
    rewrite (processSingle_events _ _ _ _ _ Hfiles). apply Forall_app. split.
    + eapply Forall_impl; [apply uploadSocialMediaPostFile_events|].
      intros e He. right. by left.
    + destruct (outcome _) as [fp|]; [|constructor].
      apply Forall_app. split; apply Forall_flat_map_elem; intros x Hx.
      * eapply Forall_impl; [apply singleInstagram_events|].
        intros e He. right. right. left. by exists x.
      * eapply Forall_impl; [apply singleYoutube_events|].
        intros e He. right. right. right. by exists x.
  - destruct (1 <? length (files C))%nat; [|by repeat constructor].
    rewrite processCarousel_perm. constructor; [done|]. apply Forall_app. split.
    + apply Forall_flat_map_list.
      eapply Forall_impl; [apply carouselUploads_events|]. intros t Ht.
      eapply Forall_impl; [apply Ht|]. intros e He. right. by left.
    + destruct (mapM outcome _) as [fps|]; [|constructor].
      rewrite carouselAfterUploads_events. apply Forall_flat_map_elem. intros x Hx.
      eapply Forall_impl; [apply carouselInstagram_events|].
      intros e He. right. right. left. by exists x.
Qed.

(** The Instagram hook holds the value of the last write of the trace, when
    the selector picks every write of that hook. *)
Lemma instagram_last_write sel st tr v :
  Forall (fun e => forall w, e = SetInstagramAccountIdToProcessingState w -> sel e = true)
    tr ->
  last (List.filter sel tr) = Some (SetInstagramAccountIdToProcessingState v) ->
  instagramAccountIdToProcessingState (foldl apply_event st tr) = v.
Proof.
  induction tr as [|e tr IH] using rev_ind; [done|].
  intros [Htr He]%Forall_app. apply Forall_cons in He as [He _].
  rewrite foldl_app, List.filter_app. simpl.
  destruct (sel e) eqn:Hsel.
  - rewrite last_snoc. by intros [= ->].
  - rewrite app_nil_r. intros Hlast. destruct e; simpl; auto.
    specialize (He _ eq_refl). congruence.
Qed.

Lemma youtube_last_write sel st tr v :
  Forall (fun e => forall w, e = SetYoutubeChannelIdToProcessingState w -> sel e = true)
    tr ->
  last (List.filter sel tr) = Some (SetYoutubeChannelIdToProcessingState v) ->
  youtubeChannelIdToProcessingState (foldl apply_event st tr) = v.
Proof.
  induction tr as [|e tr IH] using rev_ind; [done|].
  intros [Htr He]%Forall_app. apply Forall_cons in He as [He _].
  rewrite foldl_app, List.filter_app. simpl.
  destruct (sel e) eqn:Hsel.
  - rewrite last_snoc. by intros [= ->].
  - rewrite app_nil_r. intros Hlast. destruct e; simpl; auto.
    specialize (He _ eq_refl). congruence.
Qed.

(** With one selected Instagram account, the Instagram mapping is what the
    last write of its workflow left. *)
Lemma sole_instagram_state env C st schedule acc v :
  selectedInstagramAccounts C = [acc] ->
  last (List.filter
          (touches_instagram (InstagramAccounts.instagram_business_account_id acc))
          (trace (run schedule (processSocialMediaPost env C st)))) =
    Some (SetInstagramAccountIdToProcessingState v) ->
  instagramAccountIdToProcessingState
    (react (run schedule (processSocialMediaPost env C st))) = v.
Proof.
  intros Hsel Hlast. rewrite processSocialMediaPost_react.
  eapply instagram_last_write; [|done].
  eapply Forall_impl; [apply processSocialMediaPost_events|].
  intros e He w ->.
  destruct He as [He|[He|[(x & Hx & He)|(x & Hx & He)]]]; try done.
  rewrite Hsel in Hx. apply list_elem_of_singleton in Hx as ->.
  destruct He as [s ->]. apply touches_instagram_set.
Qed.

(** With one selected YouTube channel, the YouTube mapping is what the last
    write of its workflow left. *)
Lemma sole_youtube_state env C st schedule ch v :
  selectedYoutubeChannels C = [ch] ->
  last (List.filter (touches_youtube (YoutubeChannels.id ch))
          (trace (run schedule (processSocialMediaPost env C st)))) =
    Some (SetYoutubeChannelIdToProcessingState v) ->
  youtubeChannelIdToProcessingState
    (react (run schedule (processSocialMediaPost env C st))) = v.
Proof.
  intros Hsel Hlast. rewrite processSocialMediaPost_react.
  eapply youtube_last_write; [|done].
  eapply Forall_impl; [apply processSocialMediaPost_events|].
  intros e He w ->.
  destruct He as [He|[He|[(x & Hx & He)|(x & Hx & He)]]]; try done.
  rewrite Hsel in Hx. apply list_elem_of_singleton in Hx as ->.
  destruct He as [s ->]. apply touches_youtube_set.
Qed.

(** C6, counterexample.  One video, one selected account, every call
    succeeds but the persist of the external media id: the persist call was
    made and failed, and the account is marked [posted], not [error]. *)
Lemma persist_failure_still_posted :
  let c :=
    run (Examples.round_robin 6)
      (processSocialMediaPost Examples.env_persist_fails
         Examples.one_video_one_account Examples.st0) in
  ~ (quiescent c = true ->
     forall m,
       In (SaveInstagramId m "post1" "hello" "u1") (trace c) ->
       saveInstagramId Examples.env_persist_fails m "post1" "hello" "u1" = None ->
       instagramAccountIdToProcessingState (react c) !! "ig1" = Some error).
Proof.
  intros c H.
  assert (Hq : quiescent c = true) by (vm_compute; reflexivity).
  assert (Hin : In (SaveInstagramId "m:c:ig1:u1/post1/0.mp4" "post1" "hello" "u1")
                  (trace c)).
  { vm_compute. do 7 right. left. reflexivity. }
  specialize (H Hq _ Hin eq_refl). vm_compute in H. discriminate H.
Qed.

(** C6, amended.  A selected Instagram account (the selected accounts have
    pairwise distinct ids) in a publish whose post record and uploads
    succeeded, once everything has settled.  If its container create or its
    status poll fails, or on the carousel path the aggregate create, the
    aggregate poll or the publish, then what was done for that account ends
    with the failing call followed by the write of [error]: no later step of
    its workflow ran and [posted] was not written.  After a successful publish
    [posted] is written, whatever the persist call answers: its outcome is not
    awaited.  When the account is the only selected one, the mapping is what
    that last write left. *)
Theorem instagram_failure_is_error env C st p acc schedule :
  let a := InstagramAccounts.instagram_business_account_id acc in
  let u := userId C in
  let c := run schedule (processSocialMediaPost env C st) in
  let setP := SetInstagramAccountIdToProcessingState {[ a := processing ]} in
  let setE := SetInstagramAccountIdToProcessingState {[ a := error ]} in
  let setD := SetInstagramAccountIdToProcessingState {[ a := posted ]} in
  createSocialMediaPost env u = Some p ->
  NoDup (map InstagramAccounts.instagram_business_account_id
           (selectedInstagramAccounts C)) ->
  acc ∈ selectedInstagramAccounts C ->
  quiescent c = true ->
  (forall entry fp,
     files C = [entry] ->
     outcome (uploadSocialMediaPostFile env u (file entry) 0 p) = Some fp ->
     let create :=
       CreateInstagramContainer a fp (Some (caption C)) u
         (video_or_image (type (file entry))) false in
     let created :=
       createInstagramContainer env a fp (Some (caption C)) u
         (video_or_image (type (file entry))) false in
     (created = None ->
      List.filter (touches_instagram a) (trace c) = [setP; create; setE])
     /\ (forall cid,
           created = Some cid ->
           checkInstagramContainerStatus env [cid] a u = None ->
           List.filter (touches_instagram a) (trace c) =
           [setP; create; CheckInstagramContainerStatus [cid] a u; setE])
     /\ (forall cid mediaId,
           created = Some cid ->
           checkInstagramContainerStatus env [cid] a u = Some tt ->
           publishInstagramMediaContainer env a cid u = Some mediaId ->
           List.filter (touches_instagram a) (trace c) =
           [setP; create; CheckInstagramContainerStatus [cid] a u;
            PublishInstagramMediaContainer a cid u; setD]))
  /\ (forall fps,
        1 < length (files C) ->
        mapM outcome (carouselUploads env C p) = Some fps ->
        let creates :=
          map (fun fp =>
                 CreateInstagramContainer a (filePath fp) None u
                   (video_or_image (postType fp)) true) fps in
        let created :=
          sequence
            (map (fun fp =>
                    createInstagramContainer env a (filePath fp) None u
                      (video_or_image (postType fp)) true) fps) in
        (created = None ->
         List.filter (touches_instagram a) (trace c) = setP :: creates ++ [setE])
        /\ (forall ids,
              created = Some ids ->
              checkInstagramContainerStatus env ids a u = None ->
              List.filter (touches_instagram a) (trace c) =
              setP :: creates ++ [CheckInstagramContainerStatus ids a u; setE])
        /\ (forall ids,
              created = Some ids ->
              checkInstagramContainerStatus env ids a u = Some tt ->
              createInstagramCarouselContainer env ids a u (caption C) = None ->
              List.filter (touches_instagram a) (trace c) =
              setP :: creates ++
                [CheckInstagramContainerStatus ids a u;
                 CreateInstagramCarouselContainer ids a u (caption C); setE])
        /\ (forall ids agg,
              created = Some ids ->
              checkInstagramContainerStatus env ids a u = Some tt ->
              createInstagramCarouselContainer env ids a u (caption C) = Some agg ->
              checkInstagramContainerStatus env [agg] a u = None ->
              List.filter (touches_instagram a) (trace c) =
              setP :: creates ++
                [CheckInstagramContainerStatus ids a u;
                 CreateInstagramCarouselContainer ids a u (caption C);
                 CheckInstagramContainerStatus [agg] a u; setE])
        /\ (forall ids agg,
              created = Some ids ->
              checkInstagramContainerStatus env ids a u = Some tt ->
              createInstagramCarouselContainer env ids a u (caption C) = Some agg ->
              checkInstagramContainerStatus env [agg] a u = Some tt ->
              publishInstagramMediaContainer env a agg u = None ->
              List.filter (touches_instagram a) (trace c) =
              setP :: creates ++
                [CheckInstagramContainerStatus ids a u;
                 CreateInstagramCarouselContainer ids a u (caption C);
                 CheckInstagramContainerStatus [agg] a u;
                 PublishInstagramMediaContainer a agg u; setE])
        /\ (forall ids agg mediaId,
              created = Some ids ->
              checkInstagramContainerStatus env ids a u = Some tt ->
              createInstagramCarouselContainer env ids a u (caption C) = Some agg ->
              checkInstagramContainerStatus env [agg] a u = Some tt ->
              publishInstagramMediaContainer env a agg u = Some mediaId ->
              List.filter (touches_instagram a) (trace c) =
              setP :: creates ++
                [CheckInstagramContainerStatus ids a u;
                 CreateInstagramCarouselContainer ids a u (caption C);
                 CheckInstagramContainerStatus [agg] a u;
                 PublishInstagramMediaContainer a agg u; setD]))
  /\ (forall s,
        selectedInstagramAccounts C = [acc] ->
        last (List.filter (touches_instagram a) (trace c)) =
          Some (SetInstagramAccountIdToProcessingState {[ a := s ]}) ->
        instagramAccountIdToProcessingState (react c) = {[ a := s ]}).
Proof.
  intros a u c setP setE setD Hp Hnd Hacc Hq. subst a u c setP setE setD.
  split; [|split].
  - intros entry fp Hfiles Hup. cbv zeta.
    pose proof (single_projection_instagram env C st p entry fp acc schedule
                  Hp Hfiles Hup Hnd Hacc) as Hseq.
    rewrite (sequenced_quiescent _ _ _ Hseq Hq).
    split; [|split].
    + apply (single_script_create_fails env C p (file entry) fp acc).
    + apply (single_script_poll_fails env C p (file entry) fp acc).
    + apply (single_script_posted env C p (file entry) fp acc).
  - intros fps Hlen Hup. cbv zeta.
    pose proof (carousel_projection_instagram env C st p fps acc schedule
                  Hp Hlen Hup Hnd Hacc) as Hseq.
    rewrite (sequenced_quiescent _ _ _ Hseq Hq).
    split; [|split; [|split; [|split; [|split]]]].
    + apply (carousel_script_creates_fail env C p fps acc).
    + apply (carousel_script_poll_fails env C p fps acc).
    + apply (carousel_script_aggregate_fails env C p fps acc).
    + apply (carousel_script_aggregate_poll_fails env C p fps acc).
    + apply (carousel_script_publish_fails env C p fps acc).
    + apply (carousel_script_posted env C p fps acc).
  - intros s Hsole Hlast.
    exact (sole_instagram_state env C st schedule acc _ Hsole Hlast).
Qed.

Lemma instagram_failure_is_error_witness :
  List.filter (touches_instagram "ig1")
    (trace (run (Examples.round_robin 6)
              (processSocialMediaPost Examples.env_ig1_fails
                 Examples.one_video_one_account Examples.st0))) =
  [SetInstagramAccountIdToProcessingState {[ "ig1" := processing ]};
   CreateInstagramContainer "ig1" "u1/post1/0.mp4" (Some "hello") "u1" "video" false;
   SetInstagramAccountIdToProcessingState {[ "ig1" := error ]}].
Proof.
  refine (proj1 (proj1
    (instagram_failure_is_error Examples.env_ig1_fails Examples.one_video_one_account
       Examples.st0 "post1" Examples.ig1 (Examples.round_robin 6) _ _ _ _)
    (mkFileEntry Examples.clip "") "u1/post1/0.mp4" eq_refl eq_refl) eq_refl).
  - reflexivity.
  - simpl. apply NoDup_singleton.
  - simpl. apply list_elem_of_here.
  - vm_compute. reflexivity.
Defined.

(** * Every run can be driven to the end *)

Lemma run_sync_awaits {R : Type} (t : Task R) es cs r :
  run_sync t = (es, cs, r) -> awaits t = sum_list_with awaits cs + awaits r.
Proof.
  revert es cs r. induction t as [R r0| R | R e k IH | R k IH | R c IHc k IHk];
    intros es cs r Hrun; simpl in Hrun.
  - by inversion Hrun.
  - by inversion Hrun.
  - destruct (run_sync k) as [[es' cs'] r'] eqn:Hk. inversion Hrun; subst.
    simpl. by apply (IH _ _ _ eq_refl).
  - by inversion Hrun.
  - destruct (run_sync c) as [[es1 cs1] r1] eqn:Hc.
    destruct (run_sync k) as [[es2 cs2] r2] eqn:Hk. inversion Hrun; subst.
    simpl. rewrite (IHc _ _ _ eq_refl), (IHk _ _ _ eq_refl), sum_list_with_app.
    simpl. lia.
Qed.

Lemma run_sync_normal {R : Type} (t : Task R) es cs r :
  run_sync t = (es, cs, r) -> Forall normal cs /\ normal r.
Proof.
  revert es cs r. induction t as [R r0| R | R e k IH | R k IH | R c IHc k IHk];
    intros es cs r Hrun; simpl in Hrun.
  - by inversion Hrun.
  - by inversion Hrun.
  - destruct (run_sync k) as [[es' cs'] r'] eqn:Hk. inversion Hrun; subst.
    by apply (IH _ _ _ eq_refl).
  - by inversion Hrun.
  - destruct (run_sync c) as [[es1 cs1] r1] eqn:Hc.
    destruct (run_sync k) as [[es2 cs2] r2] eqn:Hk. inversion Hrun; subst.
    destruct (IHc _ _ _ eq_refl) as [Hcs1 Hr1].
    destruct (IHk _ _ _ eq_refl) as [Hcs2 Hr2].
    split; [|done]. apply Forall_app. split; [done|]. by constructor.
Qed.

Lemma find_suspended {R : Type} (l : list (Task R)) :
  Forall normal l -> forallb settled l = false ->
  exists i k, l !! i = Some (Await k).
Proof.
  induction 1 as [|t l Ht _ IH]; simpl; [done|].
  destruct t as [r| |e k|k|c k]; simpl in *; try done.
  - intros H. destruct (IH H) as (i & k & Hi). by exists (S i), k.
  - intros H. destruct (IH H) as (i & k & Hi). by exists (S i), k.
  - intros _. by exists 0, k.
Qed.

Lemma all_settled_cases {R : Type} (l : list (Task R)) :
  forallb settled l = true ->
  existsb rejected l = true \/ is_Some (mapM result l).
Proof.
  induction l as [|t l IH]; simpl; [by right; eexists|].
  intros [Ht Hl]%andb_true_iff. destruct t as [r| |e k|k|c k]; simpl in *; try done.
  - destruct (IH Hl) as [H|[vs H]]; [by left|right]. rewrite H. by eexists.
  - by left.
Qed.

Lemma promise_all_stable c : stable (promise_all c).
Proof.
  destruct (promise_all_cases c) as
    [Heq | [(k & _ & _ & ->) | (k & fps & es & cs & r & _ & _ & _ & ->)]];
    [|by left|by left].
  rewrite Heq. unfold promise_all in Heq. unfold stable.
  destruct (awaiting c) as [k|] eqn:Hk; [|by left]. right.
  destruct (existsb rejected (uploads c)).
  - destruct c. simpl in *. by inversion Heq; subst.
  - split; [done|]. destruct (mapM result (uploads c)) as [fps|]; [|done].
    destruct (run_sync (k fps)) as [[es cs] r]. destruct c. simpl in *.
    by inversion Heq; subst.
Qed.

Lemma promise_all_normal c :
  Forall normal (uploads c) -> Forall normal (pool c) ->
  Forall normal (uploads (promise_all c)) /\ Forall normal (pool (promise_all c)).
Proof.
  intros Hu Hp. destruct (promise_all_cases c) as
    [-> | [(k & _ & _ & ->) | (k & fps & es & cs & r & _ & _ & Hrun & ->)]];
    simpl; try done.
  split; [done|]. destruct (run_sync_normal _ _ _ _ Hrun) as [Hcs Hr].
  apply Forall_app. split; [done|]. apply Forall_app. split; [done|]. by constructor.
Qed.

Lemma promise_all_pending c : pending (promise_all c) = pending c.
Proof.
  destruct (promise_all_cases c) as
    [-> | [(k & Hk & Hnone & ->) | (k & fps & es & cs & r & Hk & Hres & Hrun & ->)]];
    [done| |].
  - unfold pending, threads, joined. simpl. by rewrite Hk, Hnone.
  - unfold pending, threads, joined. simpl.
    rewrite Hk, (mapM_result_outcome _ _ Hres). simpl.
    rewrite (run_sync_awaits _ _ _ _ Hrun), !sum_list_with_app. simpl. lia.
Qed.

Lemma stable_floating c st tr pl :
  stable c -> stable (mkConfig st tr (uploads c) (awaiting c) pl).
Proof. done. Qed.

(** A configuration that is not quiescent has a promise whose resumption
    takes one off what is pending. *)
Lemma progress c :
  between_turns c -> quiescent c = false ->
  exists ch, pending (step ch c) < pending c /\ between_turns (step ch c).
Proof.
  intros (Hu & Hp & Hst) Hq.
  destruct (forallb settled (uploads c)) eqn:Hus.
  - destruct (forallb settled (pool c)) eqn:Hps.
    + exfalso. unfold quiescent in Hq. rewrite Hus, Hps in Hq. simpl in Hq.
      destruct Hst as [Hnone|[Hrej Hres]]; [by rewrite Hnone in Hq|].
      destruct (all_settled_cases _ Hus) as [H|[vs H]]; congruence.
    + destruct (find_suspended _ Hp Hps) as (i & k & Hi). exists (Floating i).
      simpl. rewrite Hi. simpl.
      destruct (run_sync k) as [[es cs] r] eqn:Hrun. unfold absorb.
      destruct (run_sync_normal _ _ _ _ Hrun) as [Hcs Hr].
      destruct (lookup_split _ _ _ Hi) as (l1 & l2 & Hl & Hins).
      split.
      * unfold pending, threads, joined. simpl. rewrite Hins, Hl.
        rewrite ?sum_list_with_app. simpl. rewrite ?sum_list_with_app. simpl.
        rewrite (run_sync_awaits _ _ _ _ Hrun). lia.
      * split; [done|]. split; [|done]. simpl. apply Forall_app. split; [|done].
        by apply Forall_insert.
  - destruct (find_suspended _ Hu Hus) as (i & k & Hi). exists (Upload i).
    simpl. rewrite Hi. simpl.
    destruct (run_sync k) as [[es cs] r] eqn:Hrun. unfold absorb.
    destruct (run_sync_normal _ _ _ _ Hrun) as [Hcs Hr].
    destruct (lookup_split _ _ _ Hi) as (l1 & l2 & Hl & Hins).
    split.
    + rewrite promise_all_pending. unfold pending, threads, joined. simpl.
      assert (Hout : outcome r = outcome (Await k))
        by apply (run_sync_outcome _ _ _ _ Hrun).
      rewrite (mapM_outcome_insert _ _ _ _ Hi Hout).
      rewrite Hins, Hl. rewrite ?sum_list_with_app. simpl.
      rewrite ?sum_list_with_app. simpl. rewrite (run_sync_awaits _ _ _ _ Hrun). lia.
    + match goal with |- between_turns (promise_all ?c') =>
        destruct (promise_all_normal c') as [Hu' Hp']
      end; simpl.
      * by apply Forall_insert.
      * by apply Forall_app.
      * split; [done|]. split; [done|]. apply promise_all_stable.
Qed.

Lemma settles_from c :
  between_turns c -> exists schedule, quiescent (run schedule c) = true.
Proof.
  remember (pending c) as n eqn:Hn. revert c Hn.
  induction n as [n IH] using lt_wf_ind. intros c -> Hc.
  destruct (quiescent c) eqn:Hq; [by exists []|].
  destruct (progress c Hc Hq) as (ch & Hlt & Hc').
  destruct (IH _ Hlt _ eq_refl Hc') as [s Hs].
  by exists (ch :: s).
Qed.

Lemma start_between_turns st tr (t : Task unit) : between_turns (start st tr t).
Proof.
  unfold start. destruct (run_sync t) as [[es cs] r] eqn:Hrun. unfold absorb.
  destruct (run_sync_normal _ _ _ _ Hrun) as [Hcs Hr].
  split; [constructor|]. split; [|by left]. simpl.
  apply Forall_app. split; [done|]. by constructor.
Qed.

Lemma started_normal {R : Type} (ts : list (Task R)) :
  Forall normal (concat ((map run_sync ts).*1.*2)) /\
  Forall normal ((map run_sync ts).*2).
Proof.
  induction ts as [|t ts [IH1 IH2]]; [by split; constructor|].
  change (map run_sync (t :: ts)) with (run_sync t :: map run_sync ts).
  rewrite !fmap_cons. destruct (run_sync t) as [[es cs] r] eqn:Hrun.
  cbn [fst snd concat]. destruct (run_sync_normal _ _ _ _ Hrun) as [Hcs Hr].
  split; [by apply Forall_app|by constructor].
Qed.

(** Whatever the collaborators answer, some schedule settles everything the
    entry point started. *)
Lemma settles env C st :
  exists schedule, quiescent (run schedule (processSocialMediaPost env C st)) = true.
Proof.
  apply settles_from. unfold processSocialMediaPost.
  assert (Hidle : between_turns
                    (mkConfig st [CreateSocialMediaPost (userId C)] [] None [])).
  { split; [constructor|]. split; [constructor|by left]. }
  destruct (createSocialMediaPost env (userId C)) as [p|]; [|done].
  destruct (length (files C) =? 1)%nat; [apply start_between_turns|].
  destruct (1 <? length (files C))%nat; [|done].
  unfold processCarouselSocialMediaPost, absorb.
  destruct (started_normal (carouselUploads env C p)) as [Hcs Hrs].
  match goal with |- between_turns (promise_all ?c') =>
    destruct (promise_all_normal c') as [Hu' Hp']
  end; simpl; try done.
  split; [done|]. split; [done|]. apply promise_all_stable.
Qed.


Lemma instagram_writes_single env C p f fp acc :
  (forall cid,
     createInstagramContainer env
       (InstagramAccounts.instagram_business_account_id acc) fp (Some (caption C))
       (userId C) (video_or_image (type f)) false = Some cid ->
     checkInstagramContainerStatus env [cid]
       (InstagramAccounts.instagram_business_account_id acc) (userId C) = Some tt ->
     publishInstagramMediaContainer env
       (InstagramAccounts.instagram_business_account_id acc) cid (userId C) <> None) ->
  exists s tr,
    is_terminal s
    /\ proj (touches_instagram (InstagramAccounts.instagram_business_account_id acc))
         (singleInstagram env C p f fp acc) =
       tr ++ [SetInstagramAccountIdToProcessingState
                {[ InstagramAccounts.instagram_business_account_id acc := s ]}]
    /\ List.filter is_write tr =
       [SetInstagramAccountIdToProcessingState
          {[ InstagramAccounts.instagram_business_account_id acc := processing ]}].
Proof.
  intros Hpub.
  set (a := InstagramAccounts.instagram_business_account_id acc) in *.
  set (u := userId C) in *.
  set (setP := SetInstagramAccountIdToProcessingState {[ a := processing ]}).
  set (create :=
         CreateInstagramContainer a fp (Some (caption C)) u (video_or_image (type f))
           false).
  destruct (createInstagramContainer env a fp (Some (caption C)) u
              (video_or_image (type f)) false) as [cid|] eqn:Hc.
  - destruct (checkInstagramContainerStatus env [cid] a u) as [[]|] eqn:Hk.
    + destruct (publishInstagramMediaContainer env a cid u) as [m|] eqn:Hm;
        [|exfalso; exact (Hpub cid eq_refl Hk Hm)].
      exists posted,
        [setP; create; CheckInstagramContainerStatus [cid] a u;
         PublishInstagramMediaContainer a cid u].
      split; [by left|]. subst setP create a u.
      by rewrite (single_script_posted env C p f fp acc cid m Hc Hk Hm).
    + exists error, [setP; create; CheckInstagramContainerStatus [cid] a u].
      split; [by right|]. subst setP create a u.
      by rewrite (single_script_poll_fails env C p f fp acc cid Hc Hk).
  - exists error, [setP; create]. split; [by right|]. subst setP create a u.
    by rewrite (single_script_create_fails env C p f fp acc Hc).
Qed.

Lemma instagram_writes_carousel env C p fps acc :
  exists s tr,
    is_terminal s
    /\ proj (touches_instagram (InstagramAccounts.instagram_business_account_id acc))
         (carouselInstagram env C p fps acc) =
       tr ++ [SetInstagramAccountIdToProcessingState
                {[ InstagramAccounts.instagram_business_account_id acc := s ]}]
    /\ List.filter is_write tr =
       [SetInstagramAccountIdToProcessingState
          {[ InstagramAccounts.instagram_business_account_id acc := processing ]}].
Proof.
  set (a := InstagramAccounts.instagram_business_account_id acc).
  set (u := userId C).
  set (creates :=
         map (fun fp =>
                CreateInstagramContainer a (filePath fp) None u
                  (video_or_image (postType fp)) true) fps).
  assert (Hshape : forall l x,
            SetInstagramAccountIdToProcessingState {[ a := processing ]}
              :: creates ++ l ++ [x] =
            (SetInstagramAccountIdToProcessingState {[ a := processing ]}
               :: creates ++ l) ++ [x]).
  { intros l x. by rewrite app_comm_cons, app_assoc. }
  assert (Hwrites : forall l,
            List.filter is_write l = [] ->
            List.filter is_write
              (SetInstagramAccountIdToProcessingState {[ a := processing ]}
                 :: creates ++ l) =
            [SetInstagramAccountIdToProcessingState {[ a := processing ]}]).
  { intros l Hl. cbn [List.filter is_write]. rewrite List.filter_app, Hl, app_nil_r.
    f_equal. apply (filter_none _ (fun e => is_create_container e = true)).
    - by intros [].
    - apply Forall_forall. intros e (fp & -> & _)%list_elem_of_fmap. done. }
  destruct (sequence
              (map (fun fp =>
                      createInstagramContainer env a (filePath fp) None u
                        (video_or_image (postType fp)) true) fps))
    as [ids|] eqn:Hids.
  - destruct (checkInstagramContainerStatus env ids a u) as [[]|] eqn:Hk1.
    + destruct (createInstagramCarouselContainer env ids a u (caption C))
        as [agg|] eqn:Hagg.
      * destruct (checkInstagramContainerStatus env [agg] a u) as [[]|] eqn:Hk2.
        -- destruct (publishInstagramMediaContainer env a agg u) as [m|] eqn:Hm.
           ++ exists posted. eexists. split; [by left|].
              subst creates a u.
              rewrite (carousel_script_posted env C p fps acc ids agg m
                         Hids Hk1 Hagg Hk2 Hm).
              split; [apply (Hshape [_; _; _; _])|]. by apply Hwrites.
           ++ exists error. eexists. split; [by right|].
              subst creates a u.
              rewrite (carousel_script_publish_fails env C p fps acc ids agg
                         Hids Hk1 Hagg Hk2 Hm).
              split; [apply (Hshape [_; _; _; _])|]. by apply Hwrites.
        -- exists error. eexists. split; [by right|].
           subst creates a u.
              rewrite (carousel_script_aggregate_poll_fails env C p fps acc ids agg
                      Hids Hk1 Hagg Hk2).
           split; [apply (Hshape [_; _; _])|]. by apply Hwrites.
      * exists error. eexists. split; [by right|].
        subst creates a u.
              rewrite (carousel_script_aggregate_fails env C p fps acc ids Hids Hk1 Hagg).
        split; [apply (Hshape [_; _])|]. by apply Hwrites.
    + exists error. eexists. split; [by right|].
      subst creates a u.
              rewrite (carousel_script_poll_fails env C p fps acc ids Hids Hk1).
      split; [apply (Hshape [_])|]. by apply Hwrites.
  - exists error. eexists. split; [by right|].
    subst creates a u.
              rewrite (carousel_script_creates_fail env C p fps acc Hids).
    split; [apply (Hshape [])|]. by apply Hwrites.
Qed.

Lemma youtube_writes env C p f ch :
  fetch_youtube_post env (YoutubeChannels.id ch) f (youtubeTitle C) (userId C) p
    <> FetchRejected ->
  exists s tr,
    is_terminal s
    /\ proj (touches_youtube (YoutubeChannels.id ch)) (singleYoutube env C p f ch) =
       tr ++ [SetYoutubeChannelIdToProcessingState {[ YoutubeChannels.id ch := s ]}]
    /\ List.filter is_write tr =
       [SetYoutubeChannelIdToProcessingState
          {[ YoutubeChannels.id ch := processing ]}].
Proof.
  intros Hrej.
  destruct (fetch_youtube_post env (YoutubeChannels.id ch) f (youtubeTitle C)
              (userId C) p) as [|[]] eqn:Hf; [done|..].
  - exists posted. exists [SetYoutubeChannelIdToProcessingState
                             {[ YoutubeChannels.id ch := processing ]};
                           FetchYoutubePost (YoutubeChannels.id ch) f (youtubeTitle C)
                             (userId C) p].
    split; [by left|]. by rewrite (youtube_script_ok env C p f ch Hf).
  - exists error. exists [SetYoutubeChannelIdToProcessingState
                            {[ YoutubeChannels.id ch := processing ]};
                          FetchYoutubePost (YoutubeChannels.id ch) f (youtubeTitle C)
                            (userId C) p].
    split; [by right|]. by rewrite (youtube_script_not_ok env C p f ch Hf).
Qed.



(** * Picking files *)

(** The message an oversized file gets. *)
Lemma handleFileChange_oversized x rest prev loading :
  oversized x = true ->
  handleFileChange (x :: rest) prev loading =
  (prev ++ [mkFileEntry (Picked.file x)
              (if is_video x then "File error: Video file size exceeds 1GB."
               else "File error: Image file size exceeds 9MB.")],
   loading).
Proof.
  unfold oversized, is_jpeg, is_video. simpl.
  destruct (String.eqb (type (Picked.file x)) "video/mp4"
            || String.eqb (type (Picked.file x)) "video/quicktime") eqn:Hv; simpl.
  - rewrite orb_false_r. by intros ->.
  - destruct (String.eqb (type (Picked.file x)) "image/jpeg"); simpl; [|done].
    by intros ->.
Qed.

Lemma handleFileChange_app before after prev loading :
  Forall (fun x => oversized x = false) before ->
  handleFileChange (before ++ after) prev loading =
  handleFileChange after
    (prev ++ map (fun x => mkFileEntry (Picked.file x) "") (List.filter is_jpeg before))
    (loading ++ map Picked.file (List.filter is_video before)).
Proof.
  revert prev loading. induction before as [|x before IH]; intros prev loading Hok.
  - simpl. by rewrite !app_nil_r.
  - apply Forall_cons in Hok as [Hx Hok].
    change ((x :: before) ++ after) with (x :: (before ++ after)).
    cbn [handleFileChange]. unfold oversized, is_jpeg, is_video in *. simpl.
    destruct (String.eqb (type (Picked.file x)) "video/mp4"
              || String.eqb (type (Picked.file x)) "video/quicktime") eqn:Hv; simpl in *.
    + rewrite orb_false_r in Hx. rewrite Hx. rewrite IH by done.
      by rewrite <- app_assoc.
    + destruct (String.eqb (type (Picked.file x)) "image/jpeg") eqn:Hj; simpl in *.
      * rewrite Hx. rewrite IH by done. by rewrite <- app_assoc.
      * by rewrite IH.
Qed.

Lemma first_oversized picked :
  existsb oversized picked = true ->
  exists before x after,
    picked = before ++ x :: after
    /\ Forall (fun y => oversized y = false) before /\ oversized x = true.
Proof.
  induction picked as [|y picked IH]; [done|]. simpl.
  destruct (oversized y) eqn:Hy; simpl.
  - intros _. by exists [], y, picked.
  - intros (before & x & after & -> & Hb & Hx)%IH.
    exists (y :: before), x, after. repeat split; [|done]. by constructor.
Qed.

(** X1.  When no picked file is over its size limit, [handleFileChange] keeps
    the entries there were and appends, in the order of the pick, one entry
    without message for each JPEG; each video is handed to the metadata
    check and gets no entry yet; a file of any other type is dropped. *)
Theorem pick_within_limits picked prev loading :
  Forall (fun x => oversized x = false) picked ->
  handleFileChange picked prev loading =
  (prev ++ map (fun x => mkFileEntry (Picked.file x) "") (List.filter is_jpeg picked),
   loading ++ map Picked.file (List.filter is_video picked)).
Proof.
  intros Hok. rewrite <- (app_nil_r picked) at 1.
  by rewrite handleFileChange_app.
Qed.

Lemma pick_within_limits_witness :
  handleFileChange
    [MoreExamples.small_photo; MoreExamples.a_document; MoreExamples.small_clip]
    [] [] =
  ([mkFileEntry Examples.photo1 ""], [Examples.clip]).
Proof.
  apply (pick_within_limits
           [MoreExamples.small_photo; MoreExamples.a_document; MoreExamples.small_clip]
           [] []).
  repeat constructor.
Defined.

(** X2.  The first picked file over its size limit (1 GiB for a video,
    8 MiB for a JPEG, whose message says 9MB) gets an entry with the message
    and ends the handler: the files picked after it are not looked at,
    whatever they are. *)
Theorem pick_stops_at_oversized before x after prev loading :
  Forall (fun y => oversized y = false) before ->
  oversized x = true ->
  handleFileChange (before ++ x :: after) prev loading =
  (prev ++ map (fun y => mkFileEntry (Picked.file y) "") (List.filter is_jpeg before)
        ++ [mkFileEntry (Picked.file x)
              (if is_video x then "File error: Video file size exceeds 1GB."
               else "File error: Image file size exceeds 9MB.")],
   loading ++ map Picked.file (List.filter is_video before)).
Proof.
  intros Hb Hx. rewrite handleFileChange_app by done.
  rewrite handleFileChange_oversized by done. by rewrite <- app_assoc.
Qed.

Lemma pick_stops_at_oversized_witness :
  handleFileChange
    ([MoreExamples.small_photo] ++ MoreExamples.big_photo :: [MoreExamples.small_clip])
    [] [] =
  ([mkFileEntry Examples.photo1 "";
    mkFileEntry Examples.photo2 "File error: Image file size exceeds 9MB."], []).
Proof.
  apply (pick_stops_at_oversized [MoreExamples.small_photo] MoreExamples.big_photo
           [MoreExamples.small_clip] [] []).
  - repeat constructor.
  - reflexivity.
Defined.

(** X3.  After a pick with a file over its size limit the submit button is
    disabled, whatever else is selected or typed. *)
Theorem oversized_pick_disables picked prev loading C st :
  existsb oversized picked = true ->
  files C = (handleFileChange picked prev loading).1 ->
  disabled C st = true.
Proof.
  intros (before & x & after & -> & Hb & Hx)%first_oversized Hfiles.
  rewrite handleFileChange_app, handleFileChange_oversized in Hfiles by done.
  simpl in Hfiles. unfold disabled. rewrite Hfiles.
  rewrite !existsb_app. simpl.
  replace (negb (String.eqb _ "")) with true by by destruct (is_video x).
  rewrite !orb_true_r. by rewrite ?orb_true_r.
Qed.

Lemma oversized_pick_disables_witness :
  disabled
    (mkComponent "u1"
       (handleFileChange [MoreExamples.small_photo; MoreExamples.big_photo] [] []).1
       [Examples.ig1] [] "caption" "")
    Examples.st0 = true.
Proof.
  apply (oversized_pick_disables [MoreExamples.small_photo; MoreExamples.big_photo]
           [] []); reflexivity.
Defined.

(** * Selecting destinations *)

Lemma find_youtube_highlighted channel prev :
  youtubeHighlighted channel prev =
  bool_decide (YoutubeChannels.id channel ∈ map YoutubeChannels.id prev).
Proof.
  unfold youtubeHighlighted. induction prev as [|x prev IH]; simpl; [done|].
  destruct (String.eqb (YoutubeChannels.id x) (YoutubeChannels.id channel)) eqn:Heq.
  - apply String.eqb_eq in Heq. rewrite Heq.
    symmetry. apply bool_decide_eq_true. left.
  - apply String.eqb_neq in Heq. rewrite IH.
    apply bool_decide_ext. rewrite elem_of_cons.
    split; [by right|]. intros [Hx|Hx]; [congruence|done].
Qed.

Lemma find_youtube_none channel prev :
  List.find (fun acc => String.eqb (YoutubeChannels.id acc) (YoutubeChannels.id channel))
    prev = None <->
  YoutubeChannels.id channel ∉ map YoutubeChannels.id prev.
Proof.
  induction prev as [|x prev IH]; simpl.
  - split; [intros _; apply not_elem_of_nil|done].
  - destruct (String.eqb (YoutubeChannels.id x) (YoutubeChannels.id channel)) eqn:Heq.
    + apply String.eqb_eq in Heq. rewrite Heq. split; [done|].
      intros []. left.
    + apply String.eqb_neq in Heq. rewrite IH, not_elem_of_cons.
      split; [|by intros [_ Hx]]. intros Hx. split; [congruence|done].
Qed.

Lemma ids_filter_youtube (c : string) prev :
  map YoutubeChannels.id
    (List.filter (fun acc => negb (String.eqb (YoutubeChannels.id acc) c)) prev) =
  List.filter (fun y => negb (String.eqb y c)) (map YoutubeChannels.id prev).
Proof.
  induction prev as [|x prev IH]; simpl; [done|].
  destruct (negb _); simpl; by rewrite IH.
Qed.

Lemma elem_of_filter_ids (c y : string) l :
  y ∈ List.filter (fun z => negb (String.eqb z c)) l <-> y ∈ l /\ y <> c.
Proof.
  rewrite list_elem_of_In, List.filter_In, <- list_elem_of_In.
  rewrite negb_true_iff, String.eqb_neq. done.
Qed.

Lemma NoDup_filter_ids (c : string) l :
  NoDup l -> NoDup (List.filter (fun z => negb (String.eqb z c)) l).
Proof.
  induction 1 as [|x l Hx Hnd IH]; simpl; [constructor|].
  destruct (negb _); [|done]. constructor; [|done].
  rewrite elem_of_filter_ids. by intros [Hin _].
Qed.

(** The channel ids selected after a click on a tile: the id of the clicked
    channel is taken out when it is there, and put last when it is not. *)
Lemma clickYoutubeChannel_ids channel prev :
  map YoutubeChannels.id (clickYoutubeChannel channel prev) =
  if bool_decide (YoutubeChannels.id channel ∈ map YoutubeChannels.id prev)
  then List.filter (fun y => negb (String.eqb y (YoutubeChannels.id channel)))
         (map YoutubeChannels.id prev)
  else map YoutubeChannels.id prev ++ [YoutubeChannels.id channel].
Proof.
  unfold clickYoutubeChannel. cbv zeta.
  destruct (List.find _ prev) as [x|] eqn:Hfind.
  - rewrite bool_decide_true; [apply ids_filter_youtube|].
    destruct (decide (YoutubeChannels.id channel ∈ map YoutubeChannels.id prev)) as [|Hn];
      [done|].
    apply find_youtube_none in Hn. congruence.
  - apply find_youtube_none in Hfind. rewrite bool_decide_false by done.
    by rewrite map_app.
Qed.

(** X4.  A click on a YouTube tile toggles that channel and nothing else: the
    tile is highlighted afterwards exactly when it was not before, and the
    tile of a channel with another id keeps its highlight. *)
Theorem youtube_click_toggles channel prev :
  youtubeHighlighted channel (clickYoutubeChannel channel prev) =
  negb (youtubeHighlighted channel prev)
  /\ forall other,
       YoutubeChannels.id other <> YoutubeChannels.id channel ->
       youtubeHighlighted other (clickYoutubeChannel channel prev) =
       youtubeHighlighted other prev.
Proof.
  split.
  - rewrite !find_youtube_highlighted, clickYoutubeChannel_ids.
    destruct (bool_decide_reflect
                (YoutubeChannels.id channel ∈ map YoutubeChannels.id prev)) as [Hin|Hn];
      simpl.
    + apply bool_decide_eq_false. rewrite elem_of_filter_ids. by intros [_ Hne].
    + apply bool_decide_eq_true. rewrite elem_of_app. right. left.
  - intros other Hne. rewrite !find_youtube_highlighted, clickYoutubeChannel_ids.
    apply bool_decide_ext.
    destruct (bool_decide (YoutubeChannels.id channel ∈ map YoutubeChannels.id prev)).
    + rewrite elem_of_filter_ids. split; [by intros [Hin _]|done].
    + rewrite elem_of_app, list_elem_of_singleton.
      split; [|by left]. intros [Hin|Heq]; [done|congruence].
Qed.

(** X5.  The YouTube click handler keeps the selection free of duplicate
    channel ids. *)
Theorem youtube_click_NoDup channel prev :
  NoDup (map YoutubeChannels.id prev) ->
  NoDup (map YoutubeChannels.id (clickYoutubeChannel channel prev)).
Proof.
  intros Hnd. rewrite clickYoutubeChannel_ids.
  destruct (bool_decide_reflect
              (YoutubeChannels.id channel ∈ map YoutubeChannels.id prev)) as [Hin|Hn].
  - by apply NoDup_filter_ids.
  - apply NoDup_app. split; [done|]. split; [|apply NoDup_singleton].
    by intros y Hy ->%list_elem_of_singleton.
Qed.

Lemma youtube_click_NoDup_witness :
  NoDup (map YoutubeChannels.id
           (clickYoutubeChannel Examples.yt1 [Examples.yt1; MoreExamples.yt2])).
Proof.
  apply (youtube_click_NoDup Examples.yt1 [Examples.yt1; MoreExamples.yt2]).
  apply (bool_decide_unpack _). vm_compute. exact I.
Defined.

(** X6.  The Instagram click handler looks for a row whose row id is the
    business account id of the clicked account.  When no row id of the
    accounts involved is such a business account id, every click appends the
    clicked account: a series of clicks never takes an account out of the
    selection, and each clicked tile is highlighted afterwards. *)
Theorem instagram_clicks_only_add clicks prev :
  (forall acc acc', acc ∈ prev ++ clicks -> acc' ∈ clicks ->
     InstagramAccounts.id acc
     <> InstagramAccounts.instagram_business_account_id acc') ->
  foldl (fun selected account => clickInstagramAccount account selected) prev clicks =
  prev ++ clicks
  /\ Forall (fun account => instagramHighlighted account (prev ++ clicks) = true) clicks.
Proof.
  intros Hids. split.
  - revert prev Hids. induction clicks as [|account clicks IH]; intros prev Hids; simpl.
    + by rewrite app_nil_r.
    + assert (Hstep : clickInstagramAccount account prev = prev ++ [account]).
      { unfold clickInstagramAccount. cbv zeta.
        destruct (List.find _ prev) as [acc|] eqn:Hfind; [|done].
        apply List.find_some in Hfind as [Hin Heq].
        apply list_elem_of_In in Hin. apply String.eqb_eq in Heq.
        exfalso. apply (Hids acc account); [|left|done].
        apply elem_of_app. by left. }
      rewrite Hstep, IH.
      * by rewrite <- app_assoc.
      * intros acc acc' Hacc Hacc'. apply Hids; [|by right].
        rewrite <- app_assoc in Hacc. done.
  - apply Forall_forall. intros account Hin. unfold instagramHighlighted.
    destruct (List.find _ (prev ++ clicks)) as [x|] eqn:Hfind; [done|].
    assert (Hin' : In account (prev ++ clicks)).
    { apply list_elem_of_In, elem_of_app. by right. }
    pose proof (List.find_none _ _ Hfind account Hin') as Hne. simpl in Hne.
    by rewrite String.eqb_refl in Hne.
Qed.

Lemma instagram_clicks_only_add_witness :
  foldl (fun selected account => clickInstagramAccount account selected) [Examples.ig2]
    [Examples.ig1; Examples.ig2; Examples.ig1] =
  [Examples.ig2] ++ [Examples.ig1; Examples.ig2; Examples.ig1]
  /\ Forall (fun account =>
               instagramHighlighted account
                 ([Examples.ig2] ++ [Examples.ig1; Examples.ig2; Examples.ig1]) = true)
       [Examples.ig1; Examples.ig2; Examples.ig1].
Proof.
  apply (instagram_clicks_only_add [Examples.ig1; Examples.ig2; Examples.ig1]
           [Examples.ig2]).
  intros acc acc' Hacc Hacc'.
  apply list_elem_of_In in Hacc, Hacc'. simpl in Hacc, Hacc'.
  destruct Hacc as [<-|[<-|[<-|[<-|[]]]]], Hacc' as [<-|[<-|[<-|[]]]]; discriminate.
Defined.

(** The earlier revision's handler on an example. *)
Lemma part000_click_NoDup_witness :
  NoDup (map InstagramAccounts.id
           (Part000.clickInstagramAccount Examples.ig1 [Examples.ig1; Examples.ig2])).
Proof.
  apply (part000_click_NoDup Examples.ig1 [Examples.ig1; Examples.ig2]).
  apply (bool_decide_unpack _). vm_compute. exact I.
Defined.

(** * Whom a run addresses *)

Lemma of_component_addressed C e : of_component C e -> addressed C e.
Proof.
  intros [->|[He|[(acc & Hacc & He)|(ch & Hch & He)]]].
  - done.
  - by destruct e.
  - assert (Hin : InstagramAccounts.instagram_business_account_id acc
                  ∈ map InstagramAccounts.instagram_business_account_id
                      (selectedInstagramAccounts C)).
    { by apply list_elem_of_fmap_2. }
    destruct e; simpl in *; try done; try by subst.
    destruct He as [s ->]. by eexists _, _.
  - assert (Hin : YoutubeChannels.id ch
                  ∈ map YoutubeChannels.id (selectedYoutubeChannels C)).
    { by apply list_elem_of_fmap_2. }
    destruct e; simpl in *; try done; try by subst.
    destruct He as [s ->]. by eexists _, _.
Qed.

(** What the hooks hold after a series of addressed events. *)
Lemma hooks_after C st tr :
  Forall (addressed C) tr ->
  (instagramAccountIdToProcessingState (foldl apply_event st tr)
   = instagramAccountIdToProcessingState st
   \/ exists a s,
        a ∈ map InstagramAccounts.instagram_business_account_id
              (selectedInstagramAccounts C)
        /\ instagramAccountIdToProcessingState (foldl apply_event st tr) = {[ a := s ]})
  /\ (youtubeChannelIdToProcessingState (foldl apply_event st tr)
      = youtubeChannelIdToProcessingState st
      \/ exists y s,
           y ∈ map YoutubeChannels.id (selectedYoutubeChannels C)
           /\ youtubeChannelIdToProcessingState (foldl apply_event st tr) = {[ y := s ]}).
Proof.
  induction tr as [|e tr IH] using rev_ind; [by split; left|].
  intros [Htr He]%Forall_app. apply Forall_cons in He as [He _].
  destruct (IH Htr) as [IHi IHy]. rewrite foldl_app. simpl.
  destruct e; simpl in *; try by split.
  - split; [|done]. right. destruct He as (a & s & Ha & ->). by exists a, s.
  - split; [done|]. right. destruct He as (y & s & Hy & ->). by exists y, s.
Qed.

(** X8.  At every point of every run, each call of a destination workflow is
    addressed to a selected Instagram account or YouTube channel, and each
    write of a hook sets the hook to a mapping with exactly one key, that of
    a selected destination. *)
Theorem only_selected_destinations env C st schedule :
  Forall (addressed C) (trace (run schedule (processSocialMediaPost env C st))).
Proof.
  eapply Forall_impl; [apply processSocialMediaPost_events|].
  apply of_component_addressed.
Qed.

(** X9.  At every point of every run, each of the two mappings is either
    what it was when the form was submitted or holds exactly one entry, for a
    selected destination. *)
Theorem mapping_single_entry env C st schedule :
  (instagramAccountIdToProcessingState
     (react (run schedule (processSocialMediaPost env C st)))
   = instagramAccountIdToProcessingState st
   \/ exists a s,
        a ∈ map InstagramAccounts.instagram_business_account_id
              (selectedInstagramAccounts C)
        /\ instagramAccountIdToProcessingState
             (react (run schedule (processSocialMediaPost env C st))) = {[ a := s ]})
  /\ (youtubeChannelIdToProcessingState
        (react (run schedule (processSocialMediaPost env C st)))
      = youtubeChannelIdToProcessingState st
      \/ exists y s,
           y ∈ map YoutubeChannels.id (selectedYoutubeChannels C)
           /\ youtubeChannelIdToProcessingState
                (react (run schedule (processSocialMediaPost env C st))) = {[ y := s ]}).
Proof.
  rewrite processSocialMediaPost_react. apply hooks_after.
  eapply Forall_impl; [apply processSocialMediaPost_events|].
  apply of_component_addressed.
Qed.

(** * The storage uploads *)

(** Events a selector picks and that no pending promise can produce any more
    are in the trace for good. *)
Lemma frozen_filter sel schedule c :
  List.filter sel (future c) = [] ->
  List.filter sel (trace (run schedule c)) = List.filter sel (trace c).
Proof.
  intros Hfut. destruct (run_trace_prefix schedule c) as [X HX].
  pose proof (filter_perm sel _ _ (run_perm schedule c)) as Hperm.
  rewrite HX in Hperm. rewrite HX. rewrite !List.filter_app in Hperm.
  rewrite Hfut, app_nil_r in Hperm.
  apply Permutation_length in Hperm. rewrite !length_app in Hperm.
  rewrite List.filter_app.
  assert (HXn : List.filter sel X = []) by (apply nil_length_inv; lia).
  by rewrite HXn, app_nil_r.
Qed.

Lemma future_none sel c all :
  trace c ++ future c ≡ₚ all ->
  length (List.filter sel all) = length (List.filter sel (trace c)) ->
  List.filter sel (future c) = [].
Proof.
  intros Hperm Hlen. apply (filter_perm sel) in Hperm.
  apply Permutation_length in Hperm. rewrite List.filter_app, length_app in Hperm.
  apply nil_length_inv. lia.
Qed.

Lemma upload_bind_started env u f i p b {B : Type} (g : string -> Task B) :
  bucketName env = Some b -> b <> "" ->
  exists k, bind (uploadSocialMediaPostFile env u f i p) g =
            Emit (StorageUpload b (mediaFilePath u p i f) f) (Await k).
Proof.
  intros Hb Hne%String.eqb_neq. unfold uploadSocialMediaPostFile.
  rewrite Hb, Hne. simpl. eauto.
Qed.

Lemma upload_storage_events env u f i p b :
  bucketName env = Some b -> b <> "" ->
  List.filter is_storage_upload (events (uploadSocialMediaPostFile env u f i p)) =
  [StorageUpload b (mediaFilePath u p i f) f].
Proof.
  intros Hb Hne%String.eqb_neq. unfold uploadSocialMediaPostFile.
  rewrite Hb, Hne. cbv zeta. by break_env.
Qed.

Lemma of_instagram_not_storage a e : of_instagram a e -> is_storage_upload e = false.
Proof. by destruct e. Qed.

Lemma of_youtube_not_storage c e : of_youtube c e -> is_storage_upload e = false.
Proof. by destruct e. Qed.

(** Promises that each do one thing at once and then suspend. *)
Lemma started_emit {R : Type} (g : nat -> FileEntry -> Task R)
    (ev : nat -> FileEntry -> Event) l :
  (forall i e, exists k, g i e = Emit (ev i e) (Await k)) ->
  concat ((map run_sync (imap g l)).*1.*1) = imap ev l
  /\ concat ((map run_sync (imap g l)).*1.*2) = []
  /\ Forall (fun t => exists k, t = Await k) ((map run_sync (imap g l)).*2).
Proof.
  revert g ev. induction l as [|x l IH]; intros g ev Hg; [by repeat split|].
  rewrite !imap_cons.
  change (map run_sync (g 0 x :: imap (g ∘ S) l))
    with (run_sync (g 0 x) :: map run_sync (imap (g ∘ S) l)).
  rewrite !fmap_cons.
  destruct (Hg 0 x) as [k Hk]. rewrite Hk. cbn [run_sync fst snd concat app].
  destruct (IH (g ∘ S) (ev ∘ S)) as (IH1 & IH2 & IH3).
  { intros i e. apply Hg. }
  rewrite IH1, IH2. split; [done|]. split; [done|]. constructor; [by eexists|done].
Qed.

Lemma promise_all_suspended st tr k us ks pl :
  promise_all (mkConfig st tr (Await k :: us) (Some ks) pl) =
  mkConfig st tr (Await k :: us) (Some ks) pl
  \/ exists r, In r us /\ rejected r = true.
Proof.
  unfold promise_all. simpl.
  destruct (existsb rejected us) eqn:Hrej.
  - right. apply existsb_exists in Hrej. done.
  - by left.
Qed.

Lemma filter_imap_events {R : Type} sel (T : nat -> FileEntry -> Task R)
    (E : nat -> FileEntry -> Event) l :
  (forall i e, List.filter sel (events (T i e)) = [E i e]) ->
  List.filter sel (flat_map events (imap T l)) = imap E l.
Proof.
  revert T E. induction l as [|x l IH]; intros T E HT; [done|].
  rewrite !imap_cons. cbn [flat_map]. rewrite List.filter_app, HT.
  rewrite (IH (T ∘ S) (E ∘ S)); [done|]. intros i e. apply HT.
Qed.

Section StorageUploads.
Context (env : Env) (C : Component) (st : ReactState) (p b : string).
Hypothesis Hbucket : bucketName env = Some b.
Hypothesis Hname : b <> "".
Hypothesis Hpost : createSocialMediaPost env (userId C) = Some p.

Local Abbreviation stored :=
  (imap (fun index entry =>
           StorageUpload b (mediaFilePath (userId C) p index (file entry)) (file entry))
     (files C)).

Lemma filter_stored : List.filter is_storage_upload stored = stored.
Proof.
  apply filter_all, Forall_forall. intros e He.
  apply list_elem_of_lookup in He as [i Hi]. rewrite list_lookup_imap in Hi.
  destruct (files C !! i); [|done]. simpl in Hi. by injection Hi as <-.
Qed.

Lemma carousel_all_storage :
  List.filter is_storage_upload (flat_map events (carouselUploads env C p)) = stored.
Proof.
  unfold carouselUploads. apply filter_imap_events. intros i entry.
  rewrite events_bind, List.filter_app, (upload_storage_events _ _ _ _ _ b Hbucket Hname).
  by destruct (outcome _).
Qed.

Lemma start_trace_future :
  files C <> [] ->
  trace (processSocialMediaPost env C st) = CreateSocialMediaPost (userId C) :: stored
  /\ List.filter is_storage_upload (future (processSocialMediaPost env C st)) = [].
Proof.
  intros Hfiles.
  assert (Hcases : (exists entry, files C = [entry]) \/ 1 < length (files C)).
  { destruct (files C) as [|entry [|entry' rest]]; [done|left; by eexists|right].
    simpl. lia. }
  destruct Hcases as [[entry Hone]|Hmany].
  - assert (Htrace : trace (processSocialMediaPost env C st)
                     = CreateSocialMediaPost (userId C) :: stored).
    { rewrite (processSocialMediaPost_single _ _ _ p Hpost) by by rewrite Hone.
      unfold start, processSingleSocialMediaPost. rewrite Hone. cbv zeta.
      destruct (upload_bind_started env (userId C) (file entry) 0 p b
                  (fun filePath =>
                     bind
                       (forEach (selectedInstagramAccounts C)
                          (singleInstagram env C p (file entry) filePath))
                       (fun _ =>
                          forEach (selectedYoutubeChannels C)
                            (singleYoutube env C p (file entry)))) Hbucket Hname) as [k ->].
      done. }
    split; [done|].
    eapply future_none.
    + rewrite (processSocialMediaPost_single _ _ _ p Hpost) by by rewrite Hone.
      apply start_perm.
    + rewrite Htrace. f_equal. simpl. rewrite filter_stored.
      rewrite (processSingle_events _ _ _ _ _ Hone), List.filter_app.
      rewrite (upload_storage_events _ _ _ _ _ b Hbucket Hname). rewrite Hone. simpl.
      rewrite (filter_none _ (fun e => is_storage_upload e = false)); [done|done|].
      destruct (outcome _) as [fp|]; [|constructor].
      apply Forall_app. split; apply Forall_flat_map; intros x.
      * eapply Forall_impl; [apply singleInstagram_events|].
        apply of_instagram_not_storage.
      * eapply Forall_impl; [apply singleYoutube_events|].
        apply of_youtube_not_storage.
  - assert (Htrace : trace (processSocialMediaPost env C st)
                     = CreateSocialMediaPost (userId C) :: stored).
    { rewrite (processSocialMediaPost_carousel _ _ _ p Hpost Hmany).
      unfold processCarouselSocialMediaPost, carouselUploads, absorb.
      destruct (started_emit
                  (fun index entry =>
                     bind (uploadSocialMediaPostFile env (userId C) (file entry) index p)
                       (fun filePath =>
                          Ret {| filePath := filePath;
                                 postType := video_or_image (type (file entry)) |}))
                  (fun index entry =>
                     StorageUpload b (mediaFilePath (userId C) p index (file entry))
                       (file entry))
                  (files C)) as (Hes & Hcs & Hrs).
      { intros i e. by apply upload_bind_started. }
      rewrite Hes, Hcs.
      destruct ((map run_sync _).*2) as [|r rs] eqn:Hstarted.
      { apply (f_equal length) in Hstarted.
        rewrite ?length_fmap, ?length_map, ?length_imap in Hstarted. simpl in Hstarted. lia. }
      apply Forall_cons in Hrs as [[k ->] Hrs].
      destruct (promise_all_suspended
                  (foldl apply_event st stored)
                  ([CreateSocialMediaPost (userId C)] ++ stored) k rs
                  (carouselAfterUploads env C p) []) as [->|(r & Hr & Hrej)]; [done|].
      apply list_elem_of_In in Hr. destruct (proj1 (Forall_forall _ _) Hrs r Hr) as [k' Hk'].
      rewrite Hk' in Hrej. simpl in Hrej. discriminate Hrej. }
    split; [done|].
    eapply future_none.
    + rewrite (processSocialMediaPost_carousel _ _ _ p Hpost Hmany).
      apply processCarousel_perm.
    + rewrite Htrace. simpl. f_equal. rewrite !List.filter_app, carousel_all_storage.
      rewrite filter_stored.
      rewrite (filter_none _ (fun e => is_storage_upload e = false)); [|done|].
      * by rewrite app_nil_r.
      * destruct (mapM outcome _) as [fps|]; [|constructor].
        rewrite carouselAfterUploads_events. apply Forall_flat_map. intros x.
        eapply Forall_impl; [apply carouselInstagram_events|].
        apply of_instagram_not_storage.
Qed.

End StorageUploads.

(** X11.  With a bucket name that is not empty and the post record created,
    the storage uploads are the first thing a run does after creating the
    record: one per selected file, in selection order, item [index] under
    [userId/postId/index.extension]; and whatever happens later, no file is
    uploaded a second time. *)
Theorem storage_uploads_up_front env C st p b schedule :
  bucketName env = Some b ->
  b <> "" ->
  createSocialMediaPost env (userId C) = Some p ->
  files C <> [] ->
  (CreateSocialMediaPost (userId C)
     :: imap (fun index entry =>
                StorageUpload b (mediaFilePath (userId C) p index (file entry))
                  (file entry))
          (files C))
    `prefix_of` trace (run schedule (processSocialMediaPost env C st))
  /\ List.filter is_storage_upload (trace (run schedule (processSocialMediaPost env C st)))
     = imap (fun index entry =>
               StorageUpload b (mediaFilePath (userId C) p index (file entry))
                 (file entry))
         (files C).
Proof.
  intros Hbucket Hname Hpost Hfiles.
  destruct (start_trace_future env C st p b Hbucket Hname Hpost Hfiles)
    as [Htrace Hfuture].
  split.
  - rewrite <- Htrace. apply run_trace_prefix.
  - rewrite (frozen_filter _ _ _ Hfuture), Htrace. simpl.
    apply (filter_stored C p b).
Qed.

Lemma storage_uploads_up_front_witness :
  List.filter is_storage_upload
    (trace (run (Examples.round_robin 8)
              (processSocialMediaPost Examples.env_ok Examples.three_images_both
                 Examples.st0))) =
  [StorageUpload "media" "u1/post1/0.jpg" Examples.photo1;
   StorageUpload "media" "u1/post1/1.jpg" Examples.photo2;
   StorageUpload "media" "u1/post1/2.jpg" Examples.photo3].
Proof.
  refine (proj2
    (storage_uploads_up_front Examples.env_ok Examples.three_images_both Examples.st0
       "post1" "media" (Examples.round_robin 8) eq_refl _ eq_refl _));
    discriminate.
Defined.

(** * Storage paths *)

Lemma append_cons c (a b : string) : String c a +:+ b = String c (a +:+ b).
Proof. reflexivity. Qed.

Lemma append_nil (b : string) : "" +:+ b = b.
Proof. reflexivity. Qed.

Lemma append_nil_r (a : string) : a +:+ "" = a.
Proof. induction a as [|c a IH]; [done|]. by rewrite append_cons, IH. Qed.

Lemma string_app_assoc (a b c : string) : (a +:+ b) +:+ c = a +:+ (b +:+ c).
Proof.
  induction a as [|x a IH]; [done|]. by rewrite !append_cons, IH.
Qed.

Lemma nodot_app a b : nodot (a +:+ b) = nodot a && nodot b.
Proof.
  induction a as [|c a IH]; [done|].
  rewrite append_cons. simpl. by rewrite IH, andb_assoc.
Qed.

Lemma split_pop_nodot acc s : nodot acc = true -> nodot (split_pop acc s) = true.
Proof.
  revert acc. induction s as [|c s IH]; intros acc Hacc; simpl; [done|].
  destruct (Ascii.eqb c ".") eqn:Hc; apply IH; [done|].
  rewrite nodot_app, Hacc. simpl. by rewrite Hc.
Qed.

Lemma split_pop_plain acc s : nodot s = true -> split_pop acc s = acc +:+ s.
Proof.
  revert acc. induction s as [|c s IH]; intros acc; simpl.
  - intros _. by rewrite append_nil_r.
  - intros [Hc Hs]%andb_true_iff. apply negb_true_iff in Hc. rewrite Hc.
    rewrite IH by done. by rewrite string_app_assoc.
Qed.

Lemma split_pop_dot acc base ext :
  split_pop acc (base +:+ "." +:+ ext) = split_pop "" ext.
Proof.
  revert acc. induction base as [|c base IH]; intros acc.
  - by rewrite append_nil.
  - rewrite append_cons. simpl. by destruct (Ascii.eqb c ".").
Qed.

Lemma string_app_inv_head (a x y : string) : a +:+ x = a +:+ y -> x = y.
Proof. apply (inj (String.app a)). Qed.

Lemma nodot_before_dot a b x y :
  nodot a = true -> nodot b = true -> a +:+ "." +:+ x = b +:+ "." +:+ y -> a = b.
Proof.
  revert b. induction a as [|c a IH]; intros [|d b]; rewrite ?append_cons, ?append_nil;
    simpl; try done.
  - intros _ [Hd _]%andb_true_iff [= <- _]. done.
  - intros [Hc _]%andb_true_iff _ [= -> _]. done.
  - intros [_ Ha]%andb_true_iff [_ Hb]%andb_true_iff [= -> Heq]. f_equal.
    by apply IH.
Qed.

Lemma pretty_N_go_nodot x s : nodot s = true -> nodot (pretty_N_go x s) = true.
Proof.
  revert s. induction (N.lt_wf_0 x) as [x _ IH]; intros s Hs.
  assert (x = 0 \/ 0 < x)%N as [->|Hx] by lia.
  - by rewrite pretty_N_go_0.
  - rewrite pretty_N_go_step by done. apply IH.
    { by apply N.div_lt. }
    simpl. rewrite Hs. unfold pretty_N_char. by repeat case_match.
Qed.

Lemma pretty_nat_nodot (n : nat) : nodot (pretty n) = true.
Proof.
  unfold pretty, pretty_nat, pretty, pretty_N.
  destruct (decide _); [done|]. by apply pretty_N_go_nodot.
Qed.

(** X12.  The extension in a storage path is the text after the last dot of
    the file name and holds no dot itself; a name without a dot is used as
    a whole. *)
Theorem media_path_extension u p i f :
  nodot (split_pop "" (name f)) = true
  /\ (forall base ext,
        name f = base +:+ "." +:+ ext -> nodot ext = true ->
        mediaFilePath u p i f = u +:+ "/" +:+ p +:+ "/" +:+ pretty i +:+ "." +:+ ext)
  /\ (nodot (name f) = true ->
      mediaFilePath u p i f = u +:+ "/" +:+ p +:+ "/" +:+ pretty i +:+ "." +:+ name f).
Proof.
  unfold mediaFilePath. split; [by apply split_pop_nodot|]. split.
  - intros base ext -> Hext. by rewrite split_pop_dot, split_pop_plain.
  - intros Hname. by rewrite split_pop_plain.
Qed.

(** X13.  The items of one post get pairwise distinct storage paths, also
    when files share a name: the index decides. *)
Theorem media_paths_distinct u p (entries : list FileEntry) :
  NoDup (imap (fun index entry => mediaFilePath u p index (file entry)) entries).
Proof.
  apply NoDup_alt. intros i j path Hi Hj.
  rewrite list_lookup_imap in Hi, Hj.
  destruct (entries !! i) as [x|]; [|done].
  destruct (entries !! j) as [y|]; [|done].
  simpl in Hi, Hj. injection Hi as Hi. injection Hj as Hj. rewrite <- Hj in Hi.
  unfold mediaFilePath in Hi.
  do 4 apply string_app_inv_head in Hi.
  apply nodot_before_dot in Hi; [|apply pretty_nat_nodot..].
  by apply (inj pretty) in Hi.
Qed.

(** * What the uploads hand to the workflows *)

Lemma upload_outcome_inv env u f i p b path :
  bucketName env = Some b ->
  outcome (uploadSocialMediaPostFile env u f i p) = Some path ->
  storage_upload env b (mediaFilePath u p i f) f = UploadPath path
  /\ path <> "" /\ media_files_insert env path p u = true.
Proof.
  intros Hb. unfold uploadSocialMediaPostFile. rewrite Hb.
  destruct (String.eqb b ""); [done|]. cbv zeta. simpl.
  destruct (storage_upload env b _ f) as [| |stored]; try done.
  destruct (String.eqb stored "") eqn:Hne; [done|]. simpl.
  destruct (media_files_insert env stored p u) eqn:Hins; simpl; [|done].
  intros [= ->]. apply String.eqb_neq in Hne. done.
Qed.

Lemma video_or_image_twice s : video_or_image (video_or_image s) = video_or_image s.
Proof. unfold video_or_image. by destruct (includes s "video"). Qed.

(** X14.  When every upload of a carousel succeeds, what is handed to the
    workflows follows the selection: as many items as files, item [index]
    with the path the storage answered for file [index] and with the kind of
    that file, ["video"] when its type mentions video and ["image"]
    otherwise; and the kind sent with the container of the item, computed
    from that kind again, is the same. *)
Theorem carousel_items_follow_selection env C p b fps :
  bucketName env = Some b ->
  mapM outcome (carouselUploads env C p) = Some fps ->
  length fps = length (files C)
  /\ forall index entry,
       files C !! index = Some entry ->
       exists path,
         storage_upload env b (mediaFilePath (userId C) p index (file entry))
           (file entry) = UploadPath path
         /\ media_files_insert env path p (userId C) = true
         /\ fps !! index =
              Some {| filePath := path;
                      postType := video_or_image (type (file entry)) |}
         /\ video_or_image (video_or_image (type (file entry)))
            = video_or_image (type (file entry)).
Proof.
  intros Hb Hfps. apply mapM_Some in Hfps. split.
  - apply Forall2_length in Hfps. unfold carouselUploads in Hfps.
    by rewrite length_imap in Hfps.
  - intros index entry Hentry.
    assert (Hup : carouselUploads env C p !! index =
                  Some (bind
                          (uploadSocialMediaPostFile env (userId C) (file entry) index p)
                          (fun filePath =>
                             Ret {| filePath := filePath;
                                    postType := video_or_image (type (file entry)) |}))).
    { unfold carouselUploads. by rewrite list_lookup_imap, Hentry. }
    destruct (Forall2_lookup_l _ _ _ _ _ Hfps Hup) as (fp & Hfp & Hout).
    rewrite outcome_bind in Hout.
    destruct (outcome (uploadSocialMediaPostFile _ _ _ _ _)) as [path|] eqn:Hpath;
      [|done].
    simpl in Hout. injection Hout as <-.
    destruct (upload_outcome_inv _ _ _ _ _ _ _ Hb Hpath) as (Hstored & _ & Hins).
    exists path. repeat split; try done. apply video_or_image_twice.
Qed.

Lemma carousel_items_follow_selection_witness :
  length
    [mkUploaded "u1/post1/0.jpg" "image"; mkUploaded "u1/post1/1.jpg" "image";
     mkUploaded "u1/post1/2.jpg" "image"] =
  length (files Examples.three_images_one_account).
Proof.
  refine (proj1
    (carousel_items_follow_selection Examples.env_ok Examples.three_images_one_account
       "post1" "media"
       [mkUploaded "u1/post1/0.jpg" "image"; mkUploaded "u1/post1/1.jpg" "image";
        mkUploaded "u1/post1/2.jpg" "image"] eq_refl _)).
  reflexivity.
Defined.

(** * A publish call that fails on the single-item path *)

Lemma filter_both {A : Type} (f g : A -> bool) l :
  List.filter (fun x => f x && g x) l = List.filter g (List.filter f l).
Proof.
  induction l as [|x l IH]; simpl; [done|].
  destruct (f x); simpl; [|done]. destruct (g x); by rewrite IH.
Qed.

Lemma disabled_while_processing C st a :
  instagramAccountIdToProcessingState st = {[ a := processing ]} ->
  disabled C st = true.
Proof.
  intros Hst. unfold disabled. rewrite Hst, map_to_list_singleton. simpl.
  by rewrite !orb_true_r.
Qed.

(** X15.  On the single-item path, when the container of the only selected
    account is created and ready but its publish call fails, nothing is
    written after [processing]: once everything has settled the account is
    still shown as processing, and the submit button is disabled. *)
Theorem publish_failure_keeps_processing env C st p entry fp acc cid schedule :
  createSocialMediaPost env (userId C) = Some p ->
  files C = [entry] ->
  outcome (uploadSocialMediaPostFile env (userId C) (file entry) 0 p) = Some fp ->
  selectedInstagramAccounts C = [acc] ->
  createInstagramContainer env (InstagramAccounts.instagram_business_account_id acc)
    fp (Some (caption C)) (userId C) (video_or_image (type (file entry))) false
    = Some cid ->
  checkInstagramContainerStatus env [cid]
    (InstagramAccounts.instagram_business_account_id acc) (userId C) = Some tt ->
  publishInstagramMediaContainer env
    (InstagramAccounts.instagram_business_account_id acc) cid (userId C) = None ->
  quiescent (run schedule (processSocialMediaPost env C st)) = true ->
  List.filter (touches_instagram (InstagramAccounts.instagram_business_account_id acc))
    (trace (run schedule (processSocialMediaPost env C st))) =
  [SetInstagramAccountIdToProcessingState
     {[ InstagramAccounts.instagram_business_account_id acc := processing ]};
   CreateInstagramContainer (InstagramAccounts.instagram_business_account_id acc) fp
     (Some (caption C)) (userId C) (video_or_image (type (file entry))) false;
   CheckInstagramContainerStatus [cid]
     (InstagramAccounts.instagram_business_account_id acc) (userId C);
   PublishInstagramMediaContainer
     (InstagramAccounts.instagram_business_account_id acc) cid (userId C)]
  /\ instagramAccountIdToProcessingState
       (react (run schedule (processSocialMediaPost env C st)))
     = {[ InstagramAccounts.instagram_business_account_id acc := processing ]}
  /\ disabled C (react (run schedule (processSocialMediaPost env C st))) = true.
Proof.
  intros Hpost Hfiles Hup Hsel Hcreate Hcheck Hpublish Hq.
  assert (Hscript :
    List.filter (touches_instagram (InstagramAccounts.instagram_business_account_id acc))
      (trace (run schedule (processSocialMediaPost env C st))) =
    [SetInstagramAccountIdToProcessingState
       {[ InstagramAccounts.instagram_business_account_id acc := processing ]};
     CreateInstagramContainer (InstagramAccounts.instagram_business_account_id acc) fp
       (Some (caption C)) (userId C) (video_or_image (type (file entry))) false;
     CheckInstagramContainerStatus [cid]
       (InstagramAccounts.instagram_business_account_id acc) (userId C);
     PublishInstagramMediaContainer
       (InstagramAccounts.instagram_business_account_id acc) cid (userId C)]).
  { rewrite <- (single_script_publish_fails env C p (file entry) fp acc cid
                 Hcreate Hcheck Hpublish).
    apply sequenced_quiescent; [|done].
    apply (single_projection_instagram env C st p entry fp acc schedule Hpost Hfiles Hup).
    - rewrite Hsel. simpl. apply NoDup_singleton.
    - rewrite Hsel. apply list_elem_of_here. }
  assert (Hstate :
    instagramAccountIdToProcessingState
      (react (run schedule (processSocialMediaPost env C st)))
    = {[ InstagramAccounts.instagram_business_account_id acc := processing ]}).
  { rewrite processSocialMediaPost_react.
    apply (instagram_last_write
             (fun e =>
                touches_instagram (InstagramAccounts.instagram_business_account_id acc) e
                && is_write e)).
    - eapply Forall_impl; [apply processSocialMediaPost_events|].
      intros e He w ->.
      destruct He as [He|[He|[(x & Hx & He)|(x & Hx & He)]]]; try done.
      rewrite Hsel in Hx. apply list_elem_of_singleton in Hx as ->.
      destruct He as [s ->]. by rewrite touches_instagram_set.
    - rewrite filter_both, Hscript. reflexivity. }
  split; [done|]. split; [done|].
  by apply (disabled_while_processing C _ _ Hstate).
Qed.

Lemma publish_failure_keeps_processing_witness :
  instagramAccountIdToProcessingState
    (react (run (Examples.round_robin 6)
              (processSocialMediaPost MoreExamples.env_publish_fails
                 Examples.one_video_one_account Examples.st0)))
  = {[ "ig1" := processing ]}.
Proof.
  refine (proj1 (proj2
    (publish_failure_keeps_processing MoreExamples.env_publish_fails
       Examples.one_video_one_account Examples.st0 "post1"
       (mkFileEntry Examples.clip "") "u1/post1/0.mp4" Examples.ig1
       "c:ig1:u1/post1/0.mp4" (Examples.round_robin 6) _ _ _ _ _ _ _ _)));
    vm_compute; reflexivity.
Defined.

(** * What is persisted *)

Lemma of_youtube_not_persist c e : of_youtube c e -> is_persist e = false.
Proof. by destruct e. Qed.

Lemma upload_not_persist e : is_upload e = true -> is_persist e = false.
Proof. by destruct e. Qed.

Lemma singleInstagram_persists env C p f fp acc :
  List.filter is_persist (events (singleInstagram env C p f fp acc)) =
  match
    createInstagramContainer env (InstagramAccounts.instagram_business_account_id acc)
      fp (Some (caption C)) (userId C) (video_or_image (type f)) false
  with
  | Some cid =>
      match
        checkInstagramContainerStatus env [cid]
          (InstagramAccounts.instagram_business_account_id acc) (userId C)
      with
      | Some _ =>
          match
            publishInstagramMediaContainer env
              (InstagramAccounts.instagram_business_account_id acc) cid (userId C)
          with
          | Some mediaId => [SaveInstagramId mediaId p (caption C) (userId C)]
          | None => []
          end
      | None => []
      end
  | None => []
  end.
Proof.
  unfold singleInstagram, call. cbv zeta.
  destruct (createInstagramContainer env _ fp _ _ _ false) as [cid|]; [|done].
  cbn [bind catch_ events List.filter is_persist app].
  destruct (checkInstagramContainerStatus env [cid] _ _) as [[]|]; [|done].
  cbn [bind catch_ events List.filter is_persist app].
  destruct (publishInstagramMediaContainer env _ cid _) as [mediaId|]; [|done].
  cbn [bind catch_ events List.filter is_persist app].
  by destruct (saveInstagramId env mediaId p (caption C) (userId C)).
Qed.

(** X16.  On the single-item path, once everything has settled, the persist
    calls made are exactly one for each selected account whose container was
    created, became ready and was published, with the media id the publish
    call returned, the post id, the caption and the user id; for an account
    whose workflow failed before there is none. *)
Theorem persist_follows_publish env C st p entry fp schedule :
  createSocialMediaPost env (userId C) = Some p ->
  files C = [entry] ->
  outcome (uploadSocialMediaPostFile env (userId C) (file entry) 0 p) = Some fp ->
  quiescent (run schedule (processSocialMediaPost env C st)) = true ->
  List.filter is_persist (trace (run schedule (processSocialMediaPost env C st))) ≡ₚ
  flat_map
    (fun acc =>
       match
         createInstagramContainer env
           (InstagramAccounts.instagram_business_account_id acc)
           fp (Some (caption C)) (userId C) (video_or_image (type (file entry))) false
       with
       | Some cid =>
           match
             checkInstagramContainerStatus env [cid]
               (InstagramAccounts.instagram_business_account_id acc) (userId C)
           with
           | Some _ =>
               match
                 publishInstagramMediaContainer env
                   (InstagramAccounts.instagram_business_account_id acc) cid (userId C)
               with
               | Some mediaId => [SaveInstagramId mediaId p (caption C) (userId C)]
               | None => []
               end
           | None => []
           end
       | None => []
       end)
    (selectedInstagramAccounts C).
Proof.
  intros Hpost Hfiles Hup Hq.
  rewrite (filter_perm _ _ _ (trace_quiescent_perm _ _ Hq)).
  rewrite (processSocialMediaPost_single _ _ _ p Hpost) by by rewrite Hfiles.
  rewrite (filter_perm _ _ _ (start_perm _ _ _)).
  rewrite (processSingle_events _ _ _ _ _ Hfiles), Hup.
  rewrite !List.filter_app.
  rewrite (filter_none is_persist (fun e => is_upload e = true)
             (events (uploadSocialMediaPostFile env (userId C) (file entry) 0 p)));
    [|apply upload_not_persist|apply uploadSocialMediaPostFile_events].
  rewrite (filter_none is_persist (fun e => is_persist e = false)
             (flat_map _ (selectedYoutubeChannels C))); [|done|].
  - rewrite app_nil_r. cbn [List.filter is_persist app]. rewrite filter_flat_map.
    induction (selectedInstagramAccounts C) as [|acc l IH]; [done|].
    cbn [flat_map]. by rewrite singleInstagram_persists, IH.
  - apply Forall_flat_map. intros x.
    eapply Forall_impl; [apply singleYoutube_events|]. apply of_youtube_not_persist.
Qed.

Lemma persist_follows_publish_witness :
  List.filter is_persist
    (trace (run (Examples.round_robin 6)
              (processSocialMediaPost Examples.env_ig1_fails
                 Examples.one_video_two_accounts Examples.st0))) ≡ₚ
  [SaveInstagramId "m:c:ig2:u1/post1/0.mp4" "post1" "hello" "u1"].
Proof.
  refine (persist_follows_publish Examples.env_ig1_fails Examples.one_video_two_accounts
            Examples.st0 "post1" (mkFileEntry Examples.clip "") "u1/post1/0.mp4"
            (Examples.round_robin 6) _ _ _ _); vm_compute; reflexivity.
Defined.

Lemma carouselInstagram_persists env C p fps acc :
  List.filter is_persist (events (carouselInstagram env C p fps acc)) =
  match
    sequence
      (map (fun fp =>
              createInstagramContainer env
                (InstagramAccounts.instagram_business_account_id acc) (filePath fp) None
                (userId C) (video_or_image (postType fp)) true) fps)
  with
  | Some ids =>
      match
        checkInstagramContainerStatus env ids
          (InstagramAccounts.instagram_business_account_id acc) (userId C)
      with
      | Some _ =>
          match
            createInstagramCarouselContainer env ids
              (InstagramAccounts.instagram_business_account_id acc) (userId C)
              (caption C)
          with
          | Some agg =>
              match
                checkInstagramContainerStatus env [agg]
                  (InstagramAccounts.instagram_business_account_id acc) (userId C)
              with
              | Some _ =>
                  match
                    publishInstagramMediaContainer env
                      (InstagramAccounts.instagram_business_account_id acc) agg
                      (userId C)
                  with
                  | Some mediaId => [SaveInstagramId mediaId p (caption C) (userId C)]
                  | None => []
                  end
              | None => []
              end
          | None => []
          end
      | None => []
      end
  | None => []
  end.
Proof.
  rewrite carouselInstagram_unfold. cbv zeta. cbn [events].
  rewrite events_emitAll, app_nil_r. cbn [events List.filter is_persist].
  rewrite List.filter_app.
  rewrite (filter_none is_persist (fun e => is_persist e = false)); [|done|].
  2: { apply Forall_forall. by intros e (fp & -> & _)%list_elem_of_fmap. }
  cbn [app]. unfold call.
  destruct (sequence _) as [ids|]; [|done].
  destruct (checkInstagramContainerStatus env ids _ _) as [[]|]; [|done].
  cbn [bind catch_ events List.filter is_persist app].
  destruct (createInstagramCarouselContainer env ids _ _ _) as [agg|]; [|done].
  cbn [bind catch_ events List.filter is_persist app].
  destruct (checkInstagramContainerStatus env [agg] _ _) as [[]|]; [|done].
  cbn [bind catch_ events List.filter is_persist app].
  destruct (publishInstagramMediaContainer env _ agg _) as [mediaId|]; [|done].
  cbn [bind catch_ events List.filter is_persist app].
  by destruct (saveInstagramId env mediaId p (caption C) (userId C)).
Qed.

(** X22.  On the path for several items, once everything has settled, the
    persist calls made are exactly one for each selected account whose item
    containers were all created and ready and whose aggregate container was
    created, ready and published, with the media id the publish call
    returned, the post id, the caption and the user id. *)
Theorem carousel_persist_follows_publish env C st p fps schedule :
  createSocialMediaPost env (userId C) = Some p ->
  1 < length (files C) ->
  mapM outcome (carouselUploads env C p) = Some fps ->
  quiescent (run schedule (processSocialMediaPost env C st)) = true ->
  List.filter is_persist (trace (run schedule (processSocialMediaPost env C st))) ≡ₚ
  flat_map
    (fun acc =>
       match
         sequence
           (map (fun fp =>
                   createInstagramContainer env
                     (InstagramAccounts.instagram_business_account_id acc) (filePath fp)
                     None (userId C) (video_or_image (postType fp)) true) fps)
       with
       | Some ids =>
           match
             checkInstagramContainerStatus env ids
               (InstagramAccounts.instagram_business_account_id acc) (userId C)
           with
           | Some _ =>
               match
                 createInstagramCarouselContainer env ids
                   (InstagramAccounts.instagram_business_account_id acc) (userId C)
                   (caption C)
               with
               | Some agg =>
                   match
                     checkInstagramContainerStatus env [agg]
                       (InstagramAccounts.instagram_business_account_id acc) (userId C)
                   with
                   | Some _ =>
                       match
                         publishInstagramMediaContainer env
                           (InstagramAccounts.instagram_business_account_id acc) agg
                           (userId C)
                       with
                       | Some mediaId =>
                           [SaveInstagramId mediaId p (caption C) (userId C)]
                       | None => []
                       end
                   | None => []
                   end
               | None => []
               end
           | None => []
           end
       | None => []
       end)
    (selectedInstagramAccounts C).
Proof.
  intros Hpost Hmany Hfps Hq.
  rewrite (filter_perm _ _ _ (trace_quiescent_perm _ _ Hq)).
  rewrite (processSocialMediaPost_carousel _ _ _ p Hpost Hmany).
  rewrite (filter_perm _ _ _ (processCarousel_perm _ _ _ _ _)).
  rewrite Hfps, carouselAfterUploads_events, !List.filter_app.
  rewrite (filter_none is_persist (fun e => is_persist e = false)
             (flat_map events (carouselUploads env C p))); [|done|].
  - cbn [List.filter is_persist app]. rewrite filter_flat_map.
    induction (selectedInstagramAccounts C) as [|acc l IH]; [done|].
    cbn [flat_map]. by rewrite carouselInstagram_persists, IH.
  - apply Forall_flat_map_list.
    eapply Forall_impl; [apply carouselUploads_events|]. intros t Ht.
    eapply Forall_impl; [apply Ht|]. apply upload_not_persist.
Qed.

Lemma carousel_persist_follows_publish_witness :
  List.filter is_persist
    (trace (run (Examples.round_robin 8)
              (processSocialMediaPost Examples.env_ok Examples.three_images_both
                 Examples.st0))) ≡ₚ
  [SaveInstagramId "m:agg:ig1" "post1" "hello" "u1"].
Proof.
  refine (carousel_persist_follows_publish Examples.env_ok Examples.three_images_both
            Examples.st0 "post1"
            [mkUploaded "u1/post1/0.jpg" "image"; mkUploaded "u1/post1/1.jpg" "image";
             mkUploaded "u1/post1/2.jpg" "image"]
            (Examples.round_robin 8) _ _ _ _); vm_compute; try reflexivity.
  lia.
Defined.

(** * The metadata rows *)

Lemma upload_recorded env C p index entry :
  files C !! index = Some entry ->
  Forall (recorded env C p)
    (events (uploadSocialMediaPostFile env (userId C) (file entry) index p)).
Proof.
  intros Hentry. unfold uploadSocialMediaPostFile.
  destruct (bucketName env) as [b|] eqn:Hb; [|constructor].
  destruct (String.eqb b ""); [constructor|]. cbv zeta.
  cbn [events]. constructor; [done|].
  destruct (storage_upload env b _ (file entry)) as [| |path] eqn:Hstored;
    try constructor.
  destruct (String.eqb path "") eqn:Hne; [constructor|].
  apply String.eqb_neq in Hne. cbn [events]. constructor.
  - split; [done|]. split; [done|]. by exists b, index, entry.
  - by destruct (media_files_insert env path p (userId C)).
Qed.

Lemma of_instagram_recorded env C p a e : of_instagram a e -> recorded env C p e.
Proof. by destruct e. Qed.

Lemma of_youtube_recorded env C p c e : of_youtube c e -> recorded env C p e.
Proof. by destruct e. Qed.

(** X18.  At every point of every run, each metadata row written for the
    post carries the post id and the user id, and points to a path that is
    not empty and that the storage answered for one of the selected files:
    no row is written for a file whose storage write failed. *)
Theorem metadata_rows_follow_storage env C st p schedule :
  createSocialMediaPost env (userId C) = Some p ->
  Forall (recorded env C p) (trace (run schedule (processSocialMediaPost env C st))).
Proof.
  intros Hpost. apply run_Forall. unfold processSocialMediaPost. rewrite Hpost.
  destruct (length (files C) =? 1)%nat eqn:Hone.
  - rewrite start_perm. constructor; [done|].
    destruct (files C) as [|entry rest] eqn:Hfiles; [done|].
    rewrite (processSingle_events _ _ _ _ _ Hfiles). apply Forall_app. split.
    + apply upload_recorded. by rewrite Hfiles.
    + destruct (outcome _) as [fp|]; [|constructor].
      apply Forall_app. split; apply Forall_flat_map; intros x.
      * eapply Forall_impl; [apply singleInstagram_events|].
        intros e. apply of_instagram_recorded.
      * eapply Forall_impl; [apply singleYoutube_events|].
        intros e. apply of_youtube_recorded.
  - destruct (1 <? length (files C))%nat; [|by repeat constructor].
    rewrite processCarousel_perm. constructor; [done|]. apply Forall_app. split.
    + apply Forall_flat_map_list, Forall_forall. intros t Ht.
      unfold carouselUploads in Ht.
      apply list_elem_of_lookup in Ht as [i Hi]. rewrite list_lookup_imap in Hi.
      destruct (files C !! i) as [entry|] eqn:Hentry; [|done].
      simpl in Hi. injection Hi as <-. rewrite events_bind.
      apply Forall_app. split; [by apply upload_recorded|].
      by destruct (outcome _).
    + destruct (mapM outcome _) as [fps|]; [|constructor].
      rewrite carouselAfterUploads_events. apply Forall_flat_map. intros x.
      eapply Forall_impl; [apply carouselInstagram_events|].
      intros e. apply of_instagram_recorded.
Qed.

Lemma metadata_rows_follow_storage_witness :
  Forall (recorded Examples.env_insert_fails Examples.three_images_one_account "post1")
    (trace (run (Examples.round_robin 8)
              (processSocialMediaPost Examples.env_insert_fails
                 Examples.three_images_one_account Examples.st0))).
Proof.
  apply (metadata_rows_follow_storage Examples.env_insert_fails
           Examples.three_images_one_account Examples.st0 "post1"
           (Examples.round_robin 8)).
  reflexivity.
Defined.

(** * The earlier revision *)

